(** * basic-poller: the participant poller of [poller.py]

    A shallow embedding of the classes [Participant] and [Poller] and of the
    calls the interactive driver makes on them, followed by the properties
    of the selection engine: balance of the [polled] counters, the
    contracts of [shuffle], [__next__] and [open], the frame of the outcome
    methods, and the sharing of [Participant] objects between the roster
    and the working list.

    Python objects are mutable and shared by reference.  The embedding
    keeps one object store ([heap]) of [Participant] values; the two lists
    of a [Poller] hold references (positions in the store), so that a
    counter updated through [_to_poll] is the counter [_participants]
    sees. *)

From Stdlib Require Import ZArith Lia Ascii String DecimalString.
From Stdlib Require DecimalPos DecimalZ.
From stdpp Require Import base list strings sorting.

Open Scope Z_scope.

(** ** Python built-ins used by the module *)

(** [l[i]] with Python's negative indices; [None] stands for [IndexError]. *)
Definition getitem {A : Type} (l : list A) (i : Z) : option A :=
  let n := Z.of_nat (length l) in
  if bool_decide (0 <= i) then l !! Z.to_nat i
  else if bool_decide (- n <= i) then l !! Z.to_nat (n + i)
  else None.

(** [str(n)] for an integer. *)
Definition str (n : Z) : string := NilZero.string_of_int (Z.to_int n).

(** [s.split(sep)] for a one-character separator: never the empty list. *)
Fixpoint split (sep : ascii) (s : string) : list string :=
  match s with
  | EmptyString => [EmptyString]
  | String c s' =>
      if bool_decide (c = sep) then EmptyString :: split sep s'
      else match split sep s' with
           | h :: t => String c h :: t
           | [] => [String c EmptyString]
           end
  end.

(** [sep.join(l)]. *)
Definition join (sep : string) (l : list string) : string := String.concat sep l.

(** [x[i], x[j] = x[j], x[i]]; out of range positions are left alone (the
    caller below only swaps inside the list). *)
Definition swap {A : Type} (x : list A) (i j : nat) : list A :=
  match x !! i, x !! j with
  | Some a, Some b => <[j:=a]> (<[i:=b]> x)
  | _, _ => x
  end.

(** [random.shuffle(x)]: for [i] from [len(x) - 1] down to [1], draw
    [j = randbelow(i + 1)] and exchange [x[i]] and [x[j]].  The numbers the
    generator hands out are the list [draws]; each is reduced below [i + 1],
    and a generator that has run dry answers [0]. *)
Fixpoint shuffle_from {A : Type} (i : nat) (draws : list nat) (x : list A) : list A :=
  match i with
  | O => x
  | S i' =>
      let j := (hd 0%nat draws mod (i + 1))%nat in
      shuffle_from i' (tl draws) (swap x i j)
  end.

Definition random_shuffle {A : Type} (draws : list nat) (x : list A) : list A :=
  shuffle_from (length x - 1) draws x.

(** [x.sort(key=key)]: Python's sort is stable.  Insertion from the right,
    each element going in front of the first one whose key is not smaller,
    is the stable sort. *)
Section Sort.
Context {A : Type} (key : A -> Z).

Fixpoint insert_by (a : A) (l : list A) : list A :=
  match l with
  | [] => [a]
  | b :: l' => if bool_decide (key a <= key b) then a :: b :: l'
               else b :: insert_by a l'
  end.

Fixpoint sort_by (l : list A) : list A :=
  match l with
  | [] => []
  | a :: l' => insert_by a (sort_by l')
  end.

(** Ascending order of the key. *)
Definition key_le (a b : A) : Prop := key a <= key b.
End Sort.

(** ** class Participant *)

Module Participant.
Record t : Type := mk {
  name : string;
  polled : Z;
  correct : Z;
  attempted : Z;
  excused : Z
}.

(** [__str__]: the line saved in the csv file. *)
Definition __str__ (self : t) : string :=
  join "," [name self; str (polled self); str (correct self);
            str (attempted self); str (excused self)].

(** The four [+= 1] updates of a counter. *)
Definition incr_polled (p : t) : t :=
  mk (name p) (polled p + 1) (correct p) (attempted p) (excused p).
Definition incr_correct (p : t) : t :=
  mk (name p) (polled p) (correct p + 1) (attempted p) (excused p).
Definition incr_attempted (p : t) : t :=
  mk (name p) (polled p) (correct p) (attempted p + 1) (excused p).
Definition incr_excused (p : t) : t :=
  mk (name p) (polled p) (correct p) (attempted p) (excused p + 1).

#[global] Instance inhabited : Inhabited t := populate (mk EmptyString 0 0 0 0).
End Participant.

(** A reference to a [Participant] object: its position in the store. *)
Definition ref : Type := nat.

(** The exceptions the module raises or lets through. *)
Inductive exn : Type :=
| ValueError (msg : string)
| IndexError
| StopIteration.

(** How a call ends. *)
Inductive outcome (A : Type) : Type :=
| Return (a : A)
| Raise (e : exn).
Arguments Return {A} a.
Arguments Raise {A} e.

(** ** class Poller *)

Module Poller.

(** The attributes of [__init__].  [_opener] is kept as what was written
    through it: [None] until [save] opens the file for writing, then the
    strings passed to [f.write] in order.  [heap] is the store of the
    [Participant] objects created by [open]. *)
Record t : Type := mk {
  _filename : string;
  _index : Z;
  _last_polled : Z;
  _opener : option (list string);
  _participants : list ref;
  _stopped : bool;
  _to_poll : list ref;
  _total_polled : Z;
  heap : list Participant.t
}.

Definition set_index (v : Z) (s : t) : t :=
  mk (_filename s) v (_last_polled s) (_opener s) (_participants s)
     (_stopped s) (_to_poll s) (_total_polled s) (heap s).
Definition set_last_polled (v : Z) (s : t) : t :=
  mk (_filename s) (_index s) v (_opener s) (_participants s)
     (_stopped s) (_to_poll s) (_total_polled s) (heap s).
Definition set_opener (v : option (list string)) (s : t) : t :=
  mk (_filename s) (_index s) (_last_polled s) v (_participants s)
     (_stopped s) (_to_poll s) (_total_polled s) (heap s).
Definition set_participants (v : list ref) (s : t) : t :=
  mk (_filename s) (_index s) (_last_polled s) (_opener s) v
     (_stopped s) (_to_poll s) (_total_polled s) (heap s).
Definition set_stopped (v : bool) (s : t) : t :=
  mk (_filename s) (_index s) (_last_polled s) (_opener s) (_participants s)
     v (_to_poll s) (_total_polled s) (heap s).
Definition set_to_poll (v : list ref) (s : t) : t :=
  mk (_filename s) (_index s) (_last_polled s) (_opener s) (_participants s)
     (_stopped s) v (_total_polled s) (heap s).
Definition set_total_polled (v : Z) (s : t) : t :=
  mk (_filename s) (_index s) (_last_polled s) (_opener s) (_participants s)
     (_stopped s) (_to_poll s) v (heap s).
Definition set_heap (v : list Participant.t) (s : t) : t :=
  mk (_filename s) (_index s) (_last_polled s) (_opener s) (_participants s)
     (_stopped s) (_to_poll s) (_total_polled s) v.

(** A method body: it reads and updates the poller and either returns or
    raises; what was updated before an exception stays updated. *)
Definition M (A : Type) : Type := t -> outcome A * t.

Definition ret {A : Type} (a : A) : M A := fun s => (Return a, s).
Definition raise {A : Type} (e : exn) : M A := fun s => (Raise e, s).
Definition bind {A B : Type} (m : M A) (k : A -> M B) : M B :=
  fun s => match m s with
           | (Return a, s') => k a s'
           | (Raise e, s') => (Raise e, s')
           end.
Definition get : M t := fun s => (Return s, s).
Definition modify (f : t -> t) : M unit := fun s => (Return tt, f s).

Notation "'let*' x ':=' m 'in' k" := (bind m (fun x => k))
  (at level 10, x name, m at level 100, k at level 200).
Notation "m ;; k" := (bind m (fun _ => k))
  (at level 100, k at level 200, right associativity).

(** [self._to_poll[self._index]]: the reference found there. *)
Definition to_poll_at_index : M ref :=
  let* s := get in
  match getitem (_to_poll s) (_index s) with
  | Some r => ret r
  | None => raise IndexError
  end.

(** [obj.field += 1] on the object a reference points to. *)
Definition update (r : ref) (f : Participant.t -> Participant.t) : M unit :=
  modify (fun s => set_heap (alter f r (heap s)) s).

(** The object a reference points to. *)
Definition deref (s : t) (r : ref) : Participant.t := heap s !!! r.

(** [x.polled] for a reference [x]: the sort key of [shuffle]. *)
Definition polled_of (s : t) (x : ref) : Z := Participant.polled (deref s x).

Definition __init__ (filename : string) : t :=
  mk filename (-1) 0 None [] false [] 0 [].

Definition _polled : M unit :=
  let* r := to_poll_at_index in
  update r Participant.incr_polled ;;
  modify (fun s => set_total_polled (_total_polled s + 1) s).

Definition attempted : M unit :=
  _polled ;;
  let* r := to_poll_at_index in
  update r Participant.incr_attempted.

Definition correct : M unit :=
  _polled ;;
  let* r := to_poll_at_index in
  update r Participant.incr_correct.

Definition current_participant : M string :=
  let* r := to_poll_at_index in
  let* s := get in
  ret (Participant.name (deref s r)).

Definition excused : M unit :=
  _polled ;;
  let* r := to_poll_at_index in
  update r Participant.incr_excused.

Definition missing : M unit := _polled.

Section Open.
(** [int(s)] on a string: the integer read, or [None] for [ValueError].
    Which strings Python reads as integers is left open. *)
Variable int : string -> option Z.

(** The body of the [try] of [open]: unpack the five fields and build
    the [Participant]; [None] when one of the steps raises [ValueError]. *)
Definition parse_line (line : string) : option Participant.t :=
  match split "," line with
  | [name; polled; correct; attempted; excused] =>
      match int polled, int correct, int attempted, int excused with
      | Some p, Some c, Some a, Some e => Some (Participant.mk name p c a e)
      | _, _, _, _ => None
      end
  | _ => None
  end.

(** [self._participants.append(participant)] on a new object. *)
Definition append_participant (p : Participant.t) : M unit :=
  modify (fun s =>
    set_participants (_participants s ++ [length (heap s)])
      (set_heap (heap s ++ [p]) s)).

(** The [for] loop of [open] over the lines the opener yields.  (The
    [print] of the offending line is kept apart, in [open_prints].) *)
Fixpoint open_lines (lines : list string) : M unit :=
  match lines with
  | [] => ret tt
  | line :: rest =>
      if bool_decide (line <> EmptyString) then
        match parse_line line with
        | Some participant =>
            append_participant participant ;; open_lines rest
        | None =>
            let* s := get in
            raise (ValueError
                     (_filename s ++ ": Line formatted incorrectly: " ++ line))
        end
      else open_lines rest
  end.

(** [open], given the lines [self._opener(self._filename)] yields. *)
Definition open (lines : list string) : M unit :=
  open_lines lines ;;
  let* s := get in
  if bool_decide (length (_participants s) = 0%nat) then
    raise (ValueError
             ("File " ++ _filename s ++ " does not contain participants"))
  else modify (fun s => set_to_poll (_participants s) s).

(** [__enter__]: equivalent to [open]; it returns [self]. *)
Definition __enter__ (lines : list string) : M unit := open lines.
End Open.

(** The end of a line written by [save]. *)
Definition newline : string := String (ascii_of_nat 10) EmptyString.

(** The string [save] writes for one participant. *)
Definition line_of (s : t) (r : ref) : string :=
  Participant.__str__ (deref s r) ++ newline.

Definition save : M unit :=
  modify (fun s => set_opener (Some (line_of s <$> _participants s)) s).

(** [shuffle], given the numbers [random] draws during the call. *)
Definition shuffle (draws : list nat) : M unit :=
  modify (fun s => set_to_poll (random_shuffle draws (_to_poll s)) s) ;;
  modify (fun s => set_to_poll (sort_by (polled_of s) (_to_poll s)) s) ;;
  let* s := get in
  match getitem (_to_poll s) 0 with
  | Some r => modify (set_last_polled (polled_of s r))
  | None => raise IndexError
  end.

Definition stop : M unit := modify (set_stopped true).

Definition total : M Z := let* s := get in ret (_total_polled s).

Definition __iter__ (draws : list nat) : M unit :=
  shuffle draws ;;
  modify (set_index (-1)) ;;
  modify (set_stopped false).

(** [__exit__]: [exc_type] is [None] when the block ended normally. *)
Definition __exit__ (exc_type : option exn) : M unit :=
  match exc_type with
  | None => save
  | Some _ => ret tt
  end.

(** The test of the [if] in [__next__], [or] evaluated left to right. *)
Definition reshuffle_due : M bool :=
  let* s := get in
  if bool_decide (Z.of_nat (length (_to_poll s)) <= _index s) then ret true
  else
    let* r := to_poll_at_index in
    ret (bool_decide (_last_polled s < polled_of s r)).

(** [__next__], given the numbers [random] draws if it reshuffles. *)
Definition __next__ (draws : list nat) : M string :=
  let* s := get in
  if _stopped s then raise StopIteration
  else
    modify (fun s => set_index (_index s + 1) s) ;;
    let* again := reshuffle_due in
    (if again : bool then shuffle draws ;; modify (set_index 0) else ret tt) ;;
    current_participant.

(** [with Poller(filename) as poller: body]: [__enter__], the block, then
    [__exit__] with the exception the block raised, if any.  [__exit__]
    returns [None], so that exception goes on to the caller. *)
Definition with_ {A : Type} (int : string -> option Z) (lines : list string)
    (body : M A) : M A :=
  fun s =>
    match __enter__ int lines s with
    | (Raise e, s1) => (Raise e, s1)
    | (Return _, s1) =>
        match body s1 with
        | (Return a, s2) =>
            match __exit__ None s2 with
            | (Return _, s3) => (Return a, s3)
            | (Raise e, s3) => (Raise e, s3)
            end
        | (Raise e, s2) =>
            match __exit__ (Some e) s2 with
            | (Return _, s3) => (Raise e, s3)
            | (Raise e', s3) => (Raise e', s3)
            end
        end
    end.

End Poller.

(** [int] on plain decimal numerals, enough to run the examples. *)
Definition int_decimal (s : string) : option Z :=
  Z.of_int <$> NilZero.int_of_string s.

Import Poller.

(** ** Vocabulary of the properties *)

(** The four outcome methods under one name. *)
Inductive kind : Type := Attempted | Correct | Excused | MissingOnly.

Definition record_outcome (k : kind) : M unit :=
  match k with
  | Attempted => attempted
  | Correct => correct
  | Excused => excused
  | MissingOnly => missing
  end.

(** The counter of its own that an outcome method increments. *)
Definition incr_category (k : kind) (p : Participant.t) : Participant.t :=
  match k with
  | Attempted => Participant.incr_attempted p
  | Correct => Participant.incr_correct p
  | Excused => Participant.incr_excused p
  | MissingOnly => p
  end.

(** The poller after an outcome method has run on the object [r]. *)
Definition recorded (k : kind) (r : ref) (s : t) : t :=
  set_heap
    (alter (fun p => incr_category k (Participant.incr_polled p)) r (heap s))
    (set_total_polled (_total_polled s + 1) s).

(** The reference under the cursor, [self._to_poll[self._index]]. *)
Definition cursor (s : t) : option ref := getitem (_to_poll s) (_index s).

(** The list [shuffle] leaves in [_to_poll]. *)
Definition shuffled (draws : list nat) (s : t) : list ref :=
  sort_by (polled_of s) (random_shuffle draws (_to_poll s)).

(** The roster and the working list as the objects they refer to. *)
Definition roster (s : t) : list Participant.t := deref s <$> _participants s.
Definition working_set (s : t) : list Participant.t := deref s <$> _to_poll s.

(** The [polled] counters of the roster, their largest and smallest value
    and the distance between the two. *)
Definition polled_counts (s : t) : list Z := polled_of s <$> _participants s.

Definition maximum (l : list Z) : Z :=
  match l with
  | [] => 0
  | a :: l' => foldr Z.max a l'
  end.

Definition minimum (l : list Z) : Z :=
  match l with
  | [] => 0
  | a :: l' => foldr Z.min a l'
  end.

Definition spread (s : t) : Z :=
  maximum (polled_counts s) - minimum (polled_counts s).

(** A loaded poller: the roster holds distinct live objects and the
    working list is a reordering of the roster. *)
Definition loaded (s : t) : Prop :=
  _participants s <> [] /\
  NoDup (_participants s) /\
  _to_poll s ≡ₚ _participants s /\
  forall r, r ∈ _participants s -> (r < length (heap s))%nat.

(** A line [open] cannot read: it does not split into five fields, or
    one of the four fields after the name is not an integer. *)
Definition malformed (int : string -> option Z) (line : string) : Prop :=
  length (split "," line) <> 5%nat \/
  exists field, field ∈ drop 1 (split "," line) /\ int field = None.

(** The two messages of [open]. *)
Definition malformed_message (filename line : string) : string :=
  filename ++ ": Line formatted incorrectly: " ++ line.
Definition empty_message (filename : string) : string :=
  "File " ++ filename ++ " does not contain participants".

(** The lines [open] reads, each with the participant it builds. *)
Definition parsed (int : string -> option Z) (lines : list string)
    (ps : list Participant.t) : Prop :=
  Forall2 (fun line p => parse_line int line = Some p)
    (filter (fun line => line <> EmptyString) lines) ps.

(** The poller after new objects [ps] were appended to the roster. *)
Definition appended (ps : list Participant.t) (s : t) : t :=
  set_participants (_participants s ++ seq (length (heap s)) (length ps))
    (set_heap (heap s ++ ps) s).

(** The poller a successful [open] leaves from a new [Poller]. *)
Definition opened (filename : string) (ps : list Participant.t) : t :=
  set_to_poll (seq 0 (length ps)) (appended ps (__init__ filename)).

(** The roster of the stable-sort example: [polled] is 3, 1, 1, 2. *)
Definition example_roster : list Participant.t :=
  [Participant.mk "P0" 3 0 0 0; Participant.mk "P1" 1 0 0 0;
   Participant.mk "P2" 1 0 0 0; Participant.mk "P3" 2 0 0 0].

(** The roster of the tests: two participants never polled. *)
Definition test_roster : list Participant.t :=
  [Participant.mk "Person0" 0 0 0 0; Participant.mk "Person1" 0 0 0 0].

(** The text of the fixture [mock_0] of the tests. *)
Definition mock_0 : string :=
  ("Person0,0,0,0,0" ++ newline ++ "Person1,0,0,0,0" ++ newline)%string.

(** A call raises. *)
Definition fails {A : Type} (m : M A) (s : t) : Prop :=
  exists e s', m s = (Raise e, s').

(** The calls a driver makes on a loaded poller. *)
Inductive call : Type :=
| Iter (draws : list nat)
| Shuffle (draws : list nat)
| Next (draws : list nat)
| Outcome (k : kind)
| Current
| Stop
| Total
| Save.

(** The poller after a call, whether the call returned or raised. *)
Definition exec (c : call) (s : t) : t :=
  match c with
  | Iter draws => (__iter__ draws s).2
  | Shuffle draws => (shuffle draws s).2
  | Next draws => (__next__ draws s).2
  | Outcome k => (record_outcome k s).2
  | Current => (current_participant s).2
  | Stop => (stop s).2
  | Total => (total s).2
  | Save => (save s).2
  end.

(** The poller after a sequence of calls. *)
Definition session (cs : list call) (s : t) : t := foldl (fun s c => exec c s) s cs.

(** The call shuffles: it is [__iter__] or [shuffle], or a [__next__] that
    is not stopped and finds the test of its [if] true. *)
Definition begins_pass (c : call) (s : t) : bool :=
  match c with
  | Iter _ | Shuffle _ => true
  | Next _ =>
      negb (_stopped s) &&
      match reshuffle_due (set_index (_index s + 1) s) with
      | (Return b, _) => b
      | (Raise _, _) => false
      end
  | _ => false
  end.

(** The name a call hands to the driver, if it is a [__next__] that returns. *)
Definition returned (c : call) (s : t) : list string :=
  match c with
  | Next draws =>
      match __next__ draws s with
      | (Return nm, _) => [nm]
      | (Raise _, _) => []
      end
  | _ => []
  end.

(** The names [__next__] returns during the calls [cs], up to the first
    call that shuffles. *)
Fixpoint pass_names (cs : list call) (s : t) : list string :=
  match cs with
  | [] => []
  | c :: cs' =>
      if begins_pass c s then []
      else returned c s ++ pass_names cs' (exec c s)
  end.

(** The names at the positions of [_to_poll] after the cursor. *)
Definition remaining (s : t) : list string :=
  (fun r => Participant.name (deref s r))
    <$> drop (Z.to_nat (_index s + 1)) (_to_poll s).

(** [s'] has the objects of [s]: the same roster, as many objects, each
    with the name it had, and a working list that reorders the old one. *)
Definition same_objects (s s' : t) : Prop :=
  _participants s' = _participants s /\
  length (heap s') = length (heap s) /\
  (forall r, Participant.name (deref s' r) = Participant.name (deref s r)) /\
  _to_poll s' ≡ₚ _to_poll s.

(** All [polled] counters of the roster lie in [m .. m + 1]. *)
Definition within (s : t) (m : Z) : Prop :=
  forall r, r ∈ _participants s -> m <= polled_of s r <= m + 1.

(** A session of the driver: every round calls [__next__] and then one
    outcome method.  The value returned lists the poller after each call. *)
Fixpoint rounds (steps : list (list nat * kind)) : M (list t) :=
  match steps with
  | [] => ret []
  | (draws, k) :: rest =>
      __next__ draws ;;
      let* s1 := get in
      record_outcome k ;;
      let* s2 := get in
      let* trace := rounds rest in
      ret (s1 :: s2 :: trace)
  end.

(** Between two rounds, once a shuffle has happened: the floor
    [_last_polled] is not above the least counter. *)
Definition floor_pass (s : t) : Prop :=
  exists m, within s m /\ _last_polled s <= m.

(** Between two rounds, before the first shuffle of a roster loaded with
    equal counters: the positions up to the cursor were polled once. *)
Definition first_pass (s : t) : Prop :=
  exists k, forall (i : nat) r, _to_poll s !! i = Some r ->
    polled_of s r = if bool_decide (Z.of_nat i <= _index s) then k + 1 else k.

Definition between_rounds (s : t) : Prop :=
  loaded s /\ _stopped s = false /\ -1 <= _index s /\
  (floor_pass s \/ first_pass s).

(** ** The opener of the tests ([poller_test.py]) *)

Module Opener.

(** The class attributes of the [Opener] that [mock_open] returns. *)
Record t : Type := mk {
  text : string;
  to_write : list string;
  iter_called : bool
}.

Definition mock_open (mock_text : string) : t := mk mock_text [] false.

(** [__iter__]: the lines handed out, and the opener afterwards. *)
Definition __iter__ (o : t) : list string * t :=
  (if bool_decide (text o = EmptyString) then []
   else split (ascii_of_nat 10) (text o),
   mk (text o) (to_write o) true).

Definition write (chunk : string) (o : t) : t :=
  mk (text o) (to_write o ++ [chunk]) (iter_called o).

Definition __exit__ (exc_type : option exn) (o : t) : t :=
  match exc_type with
  | None =>
      if bool_decide (to_write o <> []) then
        mk (join EmptyString (to_write o)) (to_write o) (iter_called o)
      else o
  | Some _ => o
  end.

End Opener.

(** [Poller.open] reading from the opener of the tests. *)
Definition open_through (int : string -> option Z) (o : Opener.t) (s : t)
    : outcome unit * t * Opener.t :=
  (open int (Opener.__iter__ o).1 s, (Opener.__iter__ o).2).

(** [Poller.save] writing to the opener of the tests: the [with] block of
    [save] writes the lines one by one and leaves through [__exit__]. *)
Definition save_through (o : Opener.t) (s : t) : Opener.t :=
  Opener.__exit__ None
    (foldl (fun o chunk => Opener.write chunk o) o
       (default [] (_opener (save s).2))).

(** A call on a poller that was given the opener of the tests: [save] is
    the only call that reaches the opener. *)
Definition exec_through (c : call) (so : t * Opener.t) : t * Opener.t :=
  (exec c so.1,
   match c with
   | Save => save_through so.2 so.1
   | _ => so.2
   end).

(** A sequence of calls on a poller and the opener of the tests. *)
Definition session_through (cs : list call) (so : t * Opener.t) : t * Opener.t :=
  foldl (fun so c => exec_through c so) so cs.

Definition is_save (c : call) : bool :=
  match c with
  | Save => true
  | _ => false
  end.

(** The participants the calls [cs] hand to [write], call after call: the
    roster as it is at each [save]. *)
Fixpoint saved (cs : list call) (s : t) : list Participant.t :=
  match cs with
  | [] => []
  | c :: cs' => (if is_save c then roster s else []) ++ saved cs' (exec c s)
  end.

(** ** What [open] prints *)

(** The line between two double quotes (character 34). *)
Definition quoted (line : string) : string :=
  String (ascii_of_nat 34) (line ++ String (ascii_of_nat 34) EmptyString).

(** The lines [open] prints: in its [except] branch the offending line in
    quotes, just before it raises; nothing for the lines it reads and
    nothing when it finds no participant. *)
Fixpoint open_prints (int : string -> option Z) (lines : list string) : list string :=
  match lines with
  | [] => []
  | line :: rest =>
      if bool_decide (line <> EmptyString) then
        match parse_line int line with
        | Some _ => open_prints int rest
        | None => [quoted line]
        end
      else open_prints int rest
  end.

(** ** The driver ([randopoll.py]) *)

Module Randopoll.

(** [str.lower()], on the letters A to Z; only these matter to the
    comparisons of [main]. *)
Definition lower_char (c : ascii) : ascii :=
  let n := nat_of_ascii c in
  if (65 <=? n)%nat && (n <=? 90)%nat then ascii_of_nat (n + 32) else c.

Fixpoint lower (s : string) : string :=
  match s with
  | EmptyString => EmptyString
  | String c s' => String (lower_char c) (lower s')
  end.

(** The line [main] prints before it reads a command. *)
Definition prompt (participant : string) : string :=
  participant ++ ": (A)nswered (C)orrect (E)xcused (M)issing (Q)uit".

(** How far [main] has got on the lines typed so far: it waits for the
    next line, it has left the [with] block, or an exception left it. *)
Inductive status : Type :=
| Waiting
| Finished
| Failed (e : exn).

(** The [while True] loop for one participant and, after its [break], the
    rest of the [for] loop.  [inputs] are the lines [input()] returns,
    [draws] what [random] draws in each [__next__] to come, [out] the lines
    printed so far. *)
Fixpoint asking (inputs : list string) (draws : list (list nat))
    (participant : string) (s : t) (out : list string)
    : status * t * list string :=
  match inputs with
  | [] => (Waiting, s, out ++ [prompt participant])
  | line :: rest =>
      let out := out ++ [prompt participant] in
      let command := lower line in
      let resume (r : outcome unit * t) :=
        match r with
        | (Raise e, s') => (Failed e, s', out)
        | (Return _, s') =>
            match __next__ (hd [] draws) s' with
            | (Return participant', s'') =>
                asking rest (tl draws) participant' s'' out
            | (Raise StopIteration, s'') => (Finished, s'', out)
            | (Raise e, s'') => (Failed e, s'', out)
            end
        end in
      if bool_decide (command = "a") then resume (attempted s)
      else if bool_decide (command = "c") then resume (correct s)
      else if bool_decide (command = "e") then resume (excused s)
      else if bool_decide (command = "q") then resume (stop s)
      else if bool_decide (command = "m") then resume (stop s)
      else asking rest draws participant s (out ++ ["Unknown response"])
  end.

(** [for participant in poller]: [__iter__], the first [__next__], and the
    body. *)
Definition for_participants (inputs : list string) (draws : list (list nat))
    (s : t) : status * t * list string :=
  match __iter__ (hd [] draws) s with
  | (Raise e, s1) => (Failed e, s1, [])
  | (Return _, s1) =>
      match __next__ (hd [] (tl draws)) s1 with
      | (Return participant, s2) => asking inputs (tl (tl draws)) participant s2 []
      | (Raise StopIteration, s2) => (Finished, s2, [])
      | (Raise e, s2) => (Failed e, s2, [])
      end
  end.

(** [main], for the file name of the command line, the lines the file
    yields, the draws and the lines typed so far: how far [main] has got,
    the poller, and the lines printed, those of [open] first.  While [main]
    waits in [input()] the [with] block has not been left; what [input()]
    does when the input ends there ([EOFError]) is not part of this. *)
Definition main (int : string -> option Z) (filename : string)
    (lines : list string) (draws : list (list nat)) (inputs : list string)
    : status * t * list string :=
  let printed := open_prints int lines in
  match __enter__ int lines (__init__ filename) with
  | (Raise e, s) => (Failed e, s, printed)
  | (Return _, s) =>
      match for_participants inputs draws s with
      | (Finished, s', out) =>
          match __exit__ None s' with
          | (Return _, s'') => (Finished, s'', printed ++ out)
          | (Raise e, s'') => (Failed e, s'', printed ++ out)
          end
      | (Failed e, s', out) =>
          match __exit__ (Some e) s' with
          | (Return _, s'') => (Failed e, s'', printed ++ out)
          | (Raise e', s'') => (Failed e', s'', printed ++ out)
          end
      | (Waiting, s', out) => (Waiting, s', printed ++ out)
      end
  end.

End Randopoll.

(** ** Vocabulary of the further properties *)

(** The outcomes the lines typed record, up to the first line that quits:
    the commands of [main] read as its [if] chain reads them. *)
Definition quits (line : string) : bool :=
  bool_decide (Randopoll.lower line = "q") || bool_decide (Randopoll.lower line = "m").

Definition answer (line : string) : option kind :=
  if bool_decide (Randopoll.lower line = "a") then Some Attempted
  else if bool_decide (Randopoll.lower line = "c") then Some Correct
  else if bool_decide (Randopoll.lower line = "e") then Some Excused
  else None.

Fixpoint answers (inputs : list string) : list kind :=
  match inputs with
  | [] => []
  | line :: rest =>
      if quits line then []
      else match answer line with
           | Some k => k :: answers rest
           | None => answers rest
           end
  end.

(** What [main] does after the [break] of a command whose call ended as
    [r]: the next turn of the [for] loop. *)
Definition resumed (rest : list string) (draws : list (list nat))
    (out : list string) (r : outcome unit * t)
    : Randopoll.status * t * list string :=
  match r with
  | (Raise e, s') => (Randopoll.Failed e, s', out)
  | (Return _, s') =>
      match __next__ (hd [] draws) s' with
      | (Return participant', s'') =>
          Randopoll.asking rest (tl draws) participant' s'' out
      | (Raise StopIteration, s'') => (Randopoll.Finished, s'', out)
      | (Raise e, s'') => (Randopoll.Failed e, s'', out)
      end
  end.

(** The rounds of the draws [draws] with the outcomes [ks]. *)
Fixpoint paired (draws : list (list nat)) (ks : list kind) : list (list nat * kind) :=
  match ks with
  | [] => []
  | k :: ks' => (hd [] draws, k) :: paired (tl draws) ks'
  end.

(** The character [c] occurs in the string [s]. *)
Definition has_char (c : ascii) (s : string) : Prop := c ∈ list_ascii_of_string s.

(** The sum of the [polled] counters of the roster. *)
Definition sum_polled (s : t) : Z := foldr Z.add 0 (polled_counts s).

(** The polls of a participant that none of its outcome counters accounts
    for: those recorded by [missing]. *)
Definition unaccounted (p : Participant.t) : Z :=
  Participant.polled p - Participant.correct p
  - Participant.attempted p - Participant.excused p.

(** [q] is what outcome methods can make of [p]: the same name, no counter
    smaller, and no fewer polls unaccounted for. *)
Definition grown (p q : Participant.t) : Prop :=
  Participant.name q = Participant.name p /\
  Participant.polled p <= Participant.polled q /\
  Participant.correct p <= Participant.correct q /\
  Participant.attempted p <= Participant.attempted q /\
  Participant.excused p <= Participant.excused q /\
  unaccounted p <= unaccounted q.

(** Between two rounds of any loaded roster: the floor [_last_polled] is
    not above any counter. *)
Definition floor_below (s : t) : Prop :=
  loaded s /\ _stopped s = false /\ -1 <= _index s /\
  forall x, x ∈ _participants s -> _last_polled s <= polled_of s x.

(** The participant under the cursor has the least [polled] of the roster. *)
Definition least_under_cursor (s : t) : Prop :=
  exists r, cursor s = Some r /\
    forall x, x ∈ _participants s -> polled_of s r <= polled_of s x.

(** The calls of a session of rounds. *)
Definition calls_of (steps : list (list nat * kind)) : list call :=
  flat_map (fun step => [Next step.1; Outcome step.2]) steps.

(** * Properties *)

(** ** The built-ins *)

Section Builtins.
Context {A : Type}.
Implicit Types (l x : list A) (i : Z).

Lemma getitem_nonneg l i : 0 <= i -> getitem l i = l !! Z.to_nat i.
Proof. intros Hi. unfold getitem. by rewrite bool_decide_eq_true_2. Qed.

Lemma getitem_last l : getitem l (-1) = last l.
Proof.
  unfold getitem. rewrite bool_decide_eq_false_2 by lia.
  destruct l as [|a l] using rev_ind.
  - done.
  - rewrite last_snoc, length_app. simpl.
    rewrite bool_decide_eq_true_2 by lia.
    replace (Z.to_nat _) with (length l) by lia.
    by rewrite list_lookup_middle.
Qed.

Lemma getitem_nil i : getitem (@nil A) i = None.
Proof. unfold getitem. simpl. repeat case_bool_decide; done. Qed.

Lemma getitem_Some_elem_of l i a : getitem l i = Some a -> a ∈ l.
Proof.
  unfold getitem. repeat case_bool_decide; try done;
    intros ?; by eapply list_elem_of_lookup_2.
Qed.

Lemma swap_Permutation x (i j : nat) : swap x i j ≡ₚ x.
Proof.
  unfold swap. destruct (x !! i) as [a|] eqn:Hi; [|done].
  destruct (x !! j) as [b|] eqn:Hj; [|done].
  by apply Permutation_insert_swap.
Qed.

Lemma shuffle_from_Permutation (n : nat) draws x : shuffle_from n draws x ≡ₚ x.
Proof.
  revert draws x. induction n as [|n IH]; intros draws x; simpl; [done|].
  by rewrite IH, swap_Permutation.
Qed.

Lemma random_shuffle_Permutation draws x : random_shuffle draws x ≡ₚ x.
Proof. apply shuffle_from_Permutation. Qed.

Lemma random_shuffle_length draws x : length (random_shuffle draws x) = length x.
Proof. by rewrite random_shuffle_Permutation. Qed.

(** Every reordering of the list is the outcome of some draws: whatever
    holds for all draws holds for all permutations [random.shuffle] can
    leave. *)
Lemma shuffle_from_onto (n : nat) x l' :
  (S n <= length x)%nat ->
  take (S n) l' ≡ₚ take (S n) x -> drop (S n) l' = drop (S n) x ->
  exists draws, shuffle_from n draws x = l'.
Proof.
  revert x. induction n as [|n IH]; intros x Hlen Htake Hdrop.
  - exists []. simpl.
    destruct x as [|a x]; [simpl in Hlen; lia|].
    destruct l' as [|b l']; simpl in *.
    + by apply Permutation_nil_l in Htake.
    + rewrite !take_0 in Htake. apply Permutation_singleton_inj in Htake.
      rewrite !drop_0 in Hdrop. by subst.
  - assert (length l' = length x) as Hlen'.
    { rewrite <- (take_drop (S (S n)) l'), <- (take_drop (S (S n)) x).
      by rewrite !length_app, Htake, Hdrop. }
    destruct (lookup_lt_is_Some_2 l' (S n)) as [t Ht]; [lia|].
    destruct (lookup_lt_is_Some_2 x (S n)) as [a Ha]; [lia|].
    assert (t ∈ take (S (S n)) x) as Hin.
    { rewrite <- Htake. apply list_elem_of_lookup. exists (S n).
      by rewrite lookup_take_lt by lia. }
    apply list_elem_of_lookup in Hin as [j Hj].
    apply lookup_take_Some in Hj as [Hj Hjn].
    set (x' := swap x (S n) j).
    assert (x' = <[j:=a]> (<[S n:=t]> x)) as Hx'.
    { unfold x', swap. by rewrite Ha, Hj. }
    assert (x' !! S n = Some t) as Hx'n.
    { rewrite Hx'. destruct (decide (j = S n)) as [->|Hne].
      - rewrite list_lookup_insert_eq by (rewrite length_insert; lia). congruence.
      - rewrite list_lookup_insert_ne by done.
        by rewrite list_lookup_insert_eq by lia. }
    assert (drop (S (S n)) x' = drop (S (S n)) x) as Hdrop'.
    { rewrite Hx'. by rewrite !drop_insert_lt by lia. }
    assert (length x' = length x) as Hlenx'.
    { rewrite Hx'. by rewrite !length_insert. }
    assert (take (S (S n)) x' ≡ₚ take (S (S n)) x) as Htake'.
    { apply (inj (.++ drop (S (S n)) x)). rewrite <- Hdrop' at 1.
      rewrite !take_drop. apply swap_Permutation. }
    destruct (IH x') as [draws Hdraws].
    + lia.
    + apply (inj (.++ [t])).
      rewrite <- (take_S_r l' (S n) t), <- (take_S_r x' (S n) t) by done.
      by rewrite Htake, Htake'.
    + rewrite (drop_S l' t (S n)), (drop_S x' t (S n)) by done.
      by rewrite Hdrop, Hdrop'.
    + exists (j :: draws).
      change (shuffle_from n draws (swap x (S n) (j mod (S n + 1))%nat) = l').
      by rewrite Nat.mod_small by lia.
Qed.

Lemma random_shuffle_onto x l' :
  l' ≡ₚ x -> exists draws, random_shuffle draws x = l'.
Proof.
  intros Hp. unfold random_shuffle.
  destruct x as [|a x].
  { exists []. simpl. by apply Permutation_nil_r in Hp. }
  pose proof (Permutation_length Hp) as Hlen. simpl in Hlen.
  apply shuffle_from_onto; simpl.
  - lia.
  - replace (S (length x - 0)) with (length (a :: x)) by (simpl; lia).
    by rewrite !take_ge by (simpl; lia).
  - replace (S (length x - 0)) with (length (a :: x)) by (simpl; lia).
    by rewrite !drop_ge by (simpl; lia).
Qed.
End Builtins.

Section SortFacts.
Context {A : Type} (key : A -> Z).
Implicit Types (l : list A) (a : A).

Lemma insert_by_Permutation a l : insert_by key a l ≡ₚ a :: l.
Proof.
  induction l as [|b l IH]; simpl; [done|].
  case_bool_decide; [done|]. by rewrite IH, Permutation_swap.
Qed.

Lemma sort_by_Permutation l : sort_by key l ≡ₚ l.
Proof.
  induction l as [|a l IH]; simpl; [done|].
  by rewrite insert_by_Permutation, IH.
Qed.

Lemma sort_by_length l : length (sort_by key l) = length l.
Proof. by rewrite sort_by_Permutation. Qed.

Lemma insert_by_sorted a l :
  StronglySorted (key_le key) l -> StronglySorted (key_le key) (insert_by key a l).
Proof.
  induction 1 as [|b l Hl IH Hb]; simpl.
  - repeat constructor.
  - case_bool_decide as Hab.
    + constructor; [by constructor|].
      constructor; [done|].
      eapply Forall_impl; [exact Hb|]. unfold key_le. intros; lia.
    + constructor; [done|].
      rewrite insert_by_Permutation. constructor; [unfold key_le; lia|done].
Qed.

(** The result is in ascending order of the key. *)
Lemma sort_by_sorted l : StronglySorted (key_le key) (sort_by key l).
Proof.
  induction l as [|a l IH]; simpl; [constructor|]. by apply insert_by_sorted.
Qed.

Lemma insert_by_filter (k : Z) a l :
  filter (fun b => key b = k) (insert_by key a l)
  = filter (fun b => key b = k) (a :: l).
Proof.
  induction l as [|b l IH]; simpl; [done|].
  case_bool_decide as Hab; [done|].
  rewrite (filter_cons _ b), IH, !(filter_cons _ a), (filter_cons _ b).
  repeat case_decide; try done. lia.
Qed.

(** The sort is stable: the elements of one key keep their order. *)
Lemma sort_by_stable (k : Z) l :
  filter (fun b => key b = k) (sort_by key l) = filter (fun b => key b = k) l.
Proof.
  induction l as [|a l IH]; simpl; [done|].
  by rewrite insert_by_filter, !(filter_cons _ a), IH.
Qed.

(** The first element of the sorted list has the least key. *)
Lemma sort_by_head_least l a b :
  sort_by key l !! 0%nat = Some a -> b ∈ l -> key a <= key b.
Proof.
  intros Hhd Hb. pose proof (sort_by_sorted l) as Hs.
  rewrite <- (sort_by_Permutation l) in Hb.
  destruct (sort_by key l) as [|a' l']; simplify_eq/=.
  apply StronglySorted_inv in Hs as [_ Hall].
  apply elem_of_cons in Hb as [->|Hb]; [lia|].
  rewrite Forall_forall in Hall. by apply Hall.
Qed.

(** There is one stable sort: a list in ascending order of the key whose
    elements of each key stand as in [l] is [sort_by key l], whatever the
    algorithm that produced it. *)
Lemma stable_sorted_unique l1 l2 :
  StronglySorted (key_le key) l1 -> StronglySorted (key_le key) l2 ->
  (forall k, filter (fun b => key b = k) l1 = filter (fun b => key b = k) l2) ->
  l1 = l2.
Proof.
  intros Hs1. revert l2. induction Hs1 as [|a l1 Hs1 IH Ha]; intros l2 Hs2 Hf.
  - destruct l2 as [|b l2]; [done|].
    specialize (Hf (key b)). by rewrite filter_cons_True in Hf.
  - destruct Hs2 as [|b l2 Hs2 Hb].
    { specialize (Hf (key a)). by rewrite filter_cons_True in Hf. }
    assert (key a = key b) as Hab.
    { assert (a ∈ b :: l2) as Hin.
      { apply (list_elem_of_filter (fun c => key c = key a)).
        rewrite <- Hf, filter_cons_True by done. by left. }
      assert (b ∈ a :: l1) as Hin'.
      { apply (list_elem_of_filter (fun c => key c = key b)).
        rewrite Hf, filter_cons_True by done. by left. }
      rewrite Forall_forall in Ha, Hb. unfold key_le in Ha, Hb.
      apply elem_of_cons in Hin as [->|Hin]; [done|].
      apply elem_of_cons in Hin' as [->|Hin']; [done|].
      specialize (Ha _ Hin'). specialize (Hb _ Hin). lia. }
    assert (a = b) as <-.
    { specialize (Hf (key a)).
      rewrite !filter_cons_True in Hf by done. congruence. }
    f_equal. apply IH; [done|]. intros k. specialize (Hf k).
    rewrite !(filter_cons _ a) in Hf. case_decide; congruence.
Qed.

Lemma sort_by_unique l l' :
  StronglySorted (key_le key) l' ->
  (forall k, filter (fun b => key b = k) l' = filter (fun b => key b = k) l) ->
  l' = sort_by key l.
Proof.
  intros Hs Hf. apply stable_sorted_unique; [done|apply sort_by_sorted|].
  intros k. by rewrite Hf, sort_by_stable.
Qed.
End SortFacts.

(** ** The methods, call by call *)

Ltac run_method :=
  unfold __next__, __iter__, shuffle, reshuffle_due, current_participant,
    attempted, correct, excused, missing, _polled, to_poll_at_index, update,
    stop, total, save, __exit__, bind, get, modify, ret, raise; simpl.

Lemma to_poll_at_index_Some s r :
  cursor s = Some r -> to_poll_at_index s = (Return r, s).
Proof. unfold cursor. intros H. run_method. by rewrite H. Qed.

Lemma to_poll_at_index_None s :
  cursor s = None -> to_poll_at_index s = (Raise IndexError, s).
Proof. unfold cursor. intros H. run_method. by rewrite H. Qed.

Lemma current_participant_Some s r :
  cursor s = Some r ->
  current_participant s = (Return (Participant.name (deref s r)), s).
Proof. unfold cursor. intros H. run_method. by rewrite H. Qed.

Lemma record_outcome_Some k s r :
  cursor s = Some r ->
  record_outcome k s = (Return tt, recorded k r s).
Proof.
  unfold cursor, recorded. intros H.
  destruct k; simpl; run_method; rewrite H; simpl; rewrite ?H; simpl;
    unfold set_heap, set_total_polled; simpl;
    by rewrite ?list_alter_alter_eq.
Qed.

Lemma record_outcome_None k s :
  cursor s = None -> record_outcome k s = (Raise IndexError, s).
Proof. unfold cursor. intros H. destruct k; simpl; run_method; by rewrite H. Qed.

Lemma shuffle_eq draws s :
  shuffle draws s =
    match shuffled draws s with
    | r :: _ =>
        (Return tt, set_last_polled (polled_of s r) (set_to_poll (shuffled draws s) s))
    | [] => (Raise IndexError, set_to_poll [] s)
    end.
Proof.
  run_method. unfold shuffled.
  change (polled_of (set_to_poll _ s)) with (polled_of s).
  by destruct (sort_by _ _) as [|r l] eqn:Hs.
Qed.

Lemma shuffled_Permutation draws s : shuffled draws s ≡ₚ _to_poll s.
Proof.
  unfold shuffled. by rewrite sort_by_Permutation, random_shuffle_Permutation.
Qed.

Lemma shuffled_sorted draws s :
  StronglySorted (key_le (polled_of s)) (shuffled draws s).
Proof. apply sort_by_sorted. Qed.

Lemma shuffled_head draws s :
  _to_poll s <> [] -> exists r l, shuffled draws s = r :: l.
Proof.
  intros Hne. destruct (shuffled draws s) as [|r l] eqn:Hs; [|by eauto].
  pose proof (shuffled_Permutation draws s) as Hp. rewrite Hs in Hp.
  by apply Permutation_nil_l in Hp.
Qed.

(** The head of the shuffled list carries the least [polled] of the list. *)
Lemma shuffled_head_least draws s r l x :
  shuffled draws s = r :: l -> x ∈ _to_poll s -> polled_of s r <= polled_of s x.
Proof.
  intros Hs Hx. unfold shuffled in Hs.
  apply (sort_by_head_least (polled_of s) (random_shuffle draws (_to_poll s))).
  - by rewrite Hs.
  - by rewrite random_shuffle_Permutation.
Qed.

Lemma shuffle_Return draws s r l :
  shuffled draws s = r :: l ->
  shuffle draws s =
    (Return tt, set_last_polled (polled_of s r) (set_to_poll (r :: l) s)).
Proof. intros Hs. by rewrite shuffle_eq, Hs. Qed.

Lemma reshuffle_due_eq s :
  reshuffle_due s =
    if bool_decide (Z.of_nat (length (_to_poll s)) <= _index s) then (Return true, s)
    else match cursor s with
         | Some r => (Return (bool_decide (_last_polled s < polled_of s r)), s)
         | None => (Raise IndexError, s)
         end.
Proof.
  unfold cursor. run_method. case_bool_decide; [done|].
  by destruct (getitem _ _).
Qed.

Lemma next_stopped draws s :
  _stopped s = true -> __next__ draws s = (Raise StopIteration, s).
Proof. intros H. run_method. by rewrite H. Qed.

(** [__next__] when the cursor moves on without a new shuffle. *)
Lemma next_advance draws s r :
  _stopped s = false ->
  reshuffle_due (set_index (_index s + 1) s)
    = (Return false, set_index (_index s + 1) s) ->
  cursor (set_index (_index s + 1) s) = Some r ->
  __next__ draws s
    = (Return (Participant.name (deref s r)), set_index (_index s + 1) s).
Proof.
  intros Hst Hdue Hcur. unfold __next__, bind at 1, get. rewrite Hst.
  unfold bind at 1. unfold modify at 1. unfold bind at 1. rewrite Hdue.
  unfold bind at 1, ret at 1. by rewrite (current_participant_Some _ r).
Qed.

(** [__next__] when it shuffles again. *)
Lemma next_reshuffle draws s r l :
  _stopped s = false ->
  reshuffle_due (set_index (_index s + 1) s)
    = (Return true, set_index (_index s + 1) s) ->
  shuffled draws s = r :: l ->
  __next__ draws s
    = (Return (Participant.name (deref s r)),
       set_index 0 (set_last_polled (polled_of s r) (set_to_poll (r :: l) s))).
Proof.
  intros Hst Hdue Hs. unfold __next__, bind at 1, get. rewrite Hst.
  unfold bind at 1. unfold modify at 1. unfold bind at 1. rewrite Hdue.
  unfold bind at 1. unfold bind at 1.
  rewrite (shuffle_Return draws _ r l) by done.
  unfold modify at 1.
  by rewrite (current_participant_Some _ r).
Qed.

(** ** Largest and smallest counter *)

Lemma maximum_ge l x : x ∈ l -> x <= maximum l.
Proof.
  destruct l as [|a l]; [by intros ?%elem_of_nil|]. simpl.
  revert a x. induction l as [|b l IH]; intros a x Hx; simpl.
  - apply list_elem_of_singleton in Hx. lia.
  - apply elem_of_cons in Hx as [->|Hx].
    + specialize (IH a a (list_elem_of_here _ _)). lia.
    + apply elem_of_cons in Hx as [->|Hx]; [lia|].
      specialize (IH a x (list_elem_of_further _ _ _ Hx)). lia.
Qed.

Lemma minimum_le l x : x ∈ l -> minimum l <= x.
Proof.
  destruct l as [|a l]; [by intros ?%elem_of_nil|]. simpl.
  revert a x. induction l as [|b l IH]; intros a x Hx; simpl.
  - apply list_elem_of_singleton in Hx. lia.
  - apply elem_of_cons in Hx as [->|Hx].
    + specialize (IH a a (list_elem_of_here _ _)). lia.
    + apply elem_of_cons in Hx as [->|Hx]; [lia|].
      specialize (IH a x (list_elem_of_further _ _ _ Hx)). lia.
Qed.

Lemma maximum_elem_of l : l <> [] -> maximum l ∈ l.
Proof.
  destruct l as [|a l]; [done|]. intros _. simpl.
  induction l as [|b l IH]; simpl; [by left|].
  destruct (Z.max_spec b (foldr Z.max a l)) as [[_ ->]|[_ ->]].
  - apply elem_of_cons in IH as [->|IH]; [by left|by do 2 right].
  - right. by left.
Qed.

Lemma minimum_elem_of l : l <> [] -> minimum l ∈ l.
Proof.
  destruct l as [|a l]; [done|]. intros _. simpl.
  induction l as [|b l IH]; simpl; [by left|].
  destruct (Z.min_spec b (foldr Z.min a l)) as [[_ ->]|[_ ->]].
  - right. by left.
  - apply elem_of_cons in IH as [->|IH]; [by left|by do 2 right].
Qed.

Lemma elem_of_polled_counts s x :
  x ∈ polled_counts s <-> exists r, r ∈ _participants s /\ x = polled_of s r.
Proof.
  unfold polled_counts. rewrite list_elem_of_fmap.
  split; intros (r & ? & ?); by exists r.
Qed.

(** A spread of at most one is a window [m .. m + 1] around the counters. *)
Lemma within_spread s m : within s m -> spread s <= 1.
Proof.
  intros Hw. unfold spread.
  destruct (decide (polled_counts s = [])) as [->|Hne]; [simpl; lia|].
  pose proof (maximum_elem_of _ Hne) as (r1 & Hr1 & ->)%elem_of_polled_counts.
  pose proof (minimum_elem_of _ Hne) as (r2 & Hr2 & ->)%elem_of_polled_counts.
  apply Hw in Hr1. apply Hw in Hr2. lia.
Qed.

Lemma spread_within s : spread s <= 1 -> within s (minimum (polled_counts s)).
Proof.
  unfold spread. intros Hs r Hr.
  assert (polled_of s r ∈ polled_counts s) as Hin
    by (apply elem_of_polled_counts; eauto).
  pose proof (maximum_ge _ _ Hin). pose proof (minimum_le _ _ Hin). lia.
Qed.

(** ** Loaded pollers *)

Lemma loaded_to_poll_ne s : loaded s -> _to_poll s <> [].
Proof.
  intros (Hne & _ & Hp & _) Hnil. rewrite Hnil in Hp.
  by apply Permutation_nil_l in Hp.
Qed.

Lemma loaded_NoDup s : loaded s -> NoDup (_to_poll s).
Proof. intros (_ & Hnd & Hp & _). by rewrite Hp. Qed.

Lemma loaded_elem_of s r : loaded s -> r ∈ _to_poll s <-> r ∈ _participants s.
Proof. intros (_ & _ & Hp & _). by rewrite Hp. Qed.

Lemma loaded_live s r : loaded s -> r ∈ _to_poll s -> (r < length (heap s))%nat.
Proof. intros Hl Hr. apply Hl. by apply loaded_elem_of. Qed.

Lemma loaded_cursor_live s r : loaded s -> cursor s = Some r -> (r < length (heap s))%nat.
Proof.
  intros Hl Hc. eapply loaded_live; [done|]. by eapply getitem_Some_elem_of.
Qed.

Lemma loaded_set_index v s : loaded s -> loaded (set_index v s).
Proof. done. Qed.

Lemma loaded_set_stopped v s : loaded s -> loaded (set_stopped v s).
Proof. done. Qed.

Lemma loaded_set_opener v s : loaded s -> loaded (set_opener v s).
Proof. done. Qed.

Lemma loaded_set_last_polled v s : loaded s -> loaded (set_last_polled v s).
Proof. done. Qed.

Lemma loaded_set_to_poll l s :
  l ≡ₚ _to_poll s -> loaded s -> loaded (set_to_poll l s).
Proof.
  intros Hp (Hne & Hnd & Hq & Hlive). repeat split; simpl; try done.
  by rewrite Hp.
Qed.

Lemma loaded_recorded k r s : loaded s -> loaded (recorded k r s).
Proof.
  intros (Hne & Hnd & Hq & Hlive). repeat split; simpl; try done.
  intros x Hx. rewrite length_alter. by apply Hlive.
Qed.

Lemma loaded_shuffled draws s r l :
  shuffled draws s = r :: l -> loaded s ->
  loaded (set_last_polled (polled_of s r) (set_to_poll (r :: l) s)).
Proof.
  intros Hs Hl. apply loaded_set_last_polled, loaded_set_to_poll; [|done].
  rewrite <- Hs. apply shuffled_Permutation.
Qed.

(** ** Counters after an outcome method *)

Lemma deref_recorded k r s x :
  (r < length (heap s))%nat ->
  deref (recorded k r s) x =
    if decide (x = r) then incr_category k (Participant.incr_polled (deref s r))
    else deref s x.
Proof.
  intros Hr. unfold deref, recorded. simpl.
  rewrite list_lookup_total_alter.
  destruct (decide (x = r)) as [->|Hne].
  - by rewrite decide_True.
  - rewrite decide_False; [done|]. intros [? _]. by apply Hne.
Qed.

Lemma polled_incr_category k p :
  Participant.polled (incr_category k p) = Participant.polled p.
Proof. by destruct k. Qed.

Lemma polled_of_recorded k r s x :
  (r < length (heap s))%nat ->
  polled_of (recorded k r s) x =
    if decide (x = r) then polled_of s r + 1 else polled_of s x.
Proof.
  intros Hr. unfold polled_of. rewrite deref_recorded by done.
  case_decide; [|done]. by rewrite polled_incr_category.
Qed.

Lemma spread_same_heap s s' :
  heap s' = heap s -> _participants s' = _participants s -> spread s' = spread s.
Proof.
  intros Hh Hp. unfold spread, polled_counts. rewrite Hp.
  replace (polled_of s') with (polled_of s); [done|].
  unfold polled_of, deref. by rewrite Hh.
Qed.

(** ** One round of a session *)

Lemma between_rounds_within s : between_rounds s -> exists m, within s m.
Proof.
  intros (Hl & _ & _ & [(m & Hw & _)|(k & Hk)]); [by eauto|].
  exists k. intros r Hr. apply (loaded_elem_of s r Hl) in Hr.
  apply list_elem_of_lookup in Hr as [i Hi]. rewrite (Hk i r Hi).
  case_bool_decide; lia.
Qed.

Lemma between_rounds_spread s : between_rounds s -> spread s <= 1.
Proof. intros [m Hm]%between_rounds_within. by eapply within_spread. Qed.

(** After a shuffle the head of the list is polled, and the floor is the
    least counter again. *)
Lemma round_reshuffle draws k s r l :
  loaded s -> (exists m, within s m) -> shuffled draws s = r :: l ->
  floor_pass
    (recorded k r (set_index 0 (set_last_polled (polled_of s r) (set_to_poll (r :: l) s)))).
Proof.
  intros Hl [m0 Hm0] Hs. exists (polled_of s r).
  assert (r ∈ _to_poll s) as Hr.
  { rewrite <- (shuffled_Permutation draws s), Hs. by left. }
  pose proof (loaded_live s r Hl Hr) as Hlive.
  split; [|simpl; lia].
  intros x Hx. simpl in Hx.
  rewrite polled_of_recorded by done.
  change (polled_of (set_index _ _)) with (polled_of s).
  case_decide as Hxr; [lia|].
  pose proof (shuffled_head_least draws s r l x Hs) as Hle.
  apply (loaded_elem_of s r Hl) in Hr.
  pose proof (Hm0 r Hr). pose proof (Hm0 x Hx).
  rewrite (loaded_elem_of s x Hl) in Hle. specialize (Hle Hx). lia.
Qed.

(** Without a shuffle the participant under the cursor sits at the floor. *)
Lemma round_advance_floor k s r :
  loaded s -> floor_pass s ->
  cursor (set_index (_index s + 1) s) = Some r ->
  polled_of s r <= _last_polled s ->
  floor_pass (recorded k r (set_index (_index s + 1) s)).
Proof.
  intros Hl (m & Hw & HL) Hc Hle. exists m.
  pose proof (loaded_cursor_live _ r (loaded_set_index _ s Hl) Hc) as Hlive.
  assert (r ∈ _participants s) as Hr.
  { apply (loaded_elem_of s r Hl). by apply getitem_Some_elem_of in Hc. }
  split; [|done]. intros x Hx. simpl in Hx.
  rewrite polled_of_recorded by done.
  change (polled_of (set_index _ _)) with (polled_of s).
  pose proof (Hw r Hr). pose proof (Hw x Hx). case_decide; lia.
Qed.

Lemma round_advance_first k s r :
  loaded s -> first_pass s -> -1 <= _index s ->
  cursor (set_index (_index s + 1) s) = Some r ->
  first_pass (recorded k r (set_index (_index s + 1) s)).
Proof.
  intros Hl (c & Hc) Hidx Hcur. exists c.
  pose proof (loaded_cursor_live _ r (loaded_set_index _ s Hl) Hcur) as Hlive.
  unfold cursor in Hcur. simpl in Hcur.
  rewrite getitem_nonneg in Hcur by lia.
  intros i x Hi. simpl in Hi. rewrite polled_of_recorded by done.
  change (polled_of (set_index _ _)) with (polled_of s). simpl.
  case_decide as Hxr.
  - subst x.
    pose proof (NoDup_lookup _ _ _ _ (loaded_NoDup s Hl) Hi Hcur) as ->.
    rewrite (Hc _ _ Hcur).
    rewrite bool_decide_eq_false_2, bool_decide_eq_true_2 by lia. done.
  - rewrite (Hc _ _ Hi).
    assert (i <> Z.to_nat (_index s + 1)) as Hne by congruence.
    repeat case_bool_decide; try done; lia.
Qed.

Lemma round_ok draws k s :
  between_rounds s ->
  exists nm s1 s2,
    __next__ draws s = (Return nm, s1) /\
    record_outcome k s1 = (Return tt, s2) /\
    heap s1 = heap s /\ _participants s1 = _participants s /\
    between_rounds s2.
Proof.
  intros Hinv. pose proof (between_rounds_within s Hinv) as Hwithin.
  destruct Hinv as (Hl & Hst & Hidx & Hpass).
  pose proof (reshuffle_due_eq (set_index (_index s + 1) s)) as Hdue.
  destruct (shuffled_head draws s (loaded_to_poll_ne s Hl)) as (r0 & l & Hs).
  assert (forall s1, s1 = set_index 0 (set_last_polled (polled_of s r0)
                                          (set_to_poll (r0 :: l) s)) ->
            __next__ draws s = (Return (Participant.name (deref s r0)), s1) ->
            exists nm s1 s2,
              __next__ draws s = (Return nm, s1) /\
              record_outcome k s1 = (Return tt, s2) /\
              heap s1 = heap s /\ _participants s1 = _participants s /\
              between_rounds s2) as Hshuffle.
  { intros s1 -> Hnext. eexists _, _, _. split; [exact Hnext|].
    split; [by apply (record_outcome_Some k _ r0)|].
    do 2 (split; [done|]). split; [|split; [done|split; [simpl; lia|]]].
    - by apply loaded_recorded, loaded_set_index, (loaded_shuffled draws).
    - left. by apply (round_reshuffle draws). }
  simpl in Hdue. case_bool_decide as Hlen.
  { eapply Hshuffle; [done|]. by apply next_reshuffle. }
  destruct (cursor (set_index (_index s + 1) s)) as [r|] eqn:Hcur.
  2:{ exfalso. unfold cursor in Hcur. simpl in Hcur.
      rewrite getitem_nonneg in Hcur by lia.
      apply lookup_ge_None in Hcur. lia. }
  case_bool_decide as Hover.
  { eapply Hshuffle; [done|]. by apply next_reshuffle. }
  eexists _, _, _. split; [by apply (next_advance draws s r)|].
  split; [by apply (record_outcome_Some k _ r)|].
  do 2 (split; [done|]). split; [|split; [done|split; [simpl; lia|]]].
  - by apply loaded_recorded, loaded_set_index.
  - destruct Hpass as [Hf|Hf].
    + left. apply round_advance_floor; try done.
      change (polled_of (set_index _ _)) with (polled_of s) in Hover. lia.
    + right. by apply round_advance_first.
Qed.

(** ** Loading *)

Section Loading.
Variable int : string -> option Z.

Lemma parse_line_None line : parse_line int line = None <-> malformed int line.
Proof.
  unfold parse_line, malformed.
  destruct (split "," line) as [|f0 [|f1 [|f2 [|f3 [|f4 [|f5 fs]]]]]];
    simpl; try (split; [by left|done]).
  destruct (int f1) eqn:H1, (int f2) eqn:H2, (int f3) eqn:H3, (int f4) eqn:H4;
    (split;
     [try done; intros _; right; eexists; (split; [|eassumption]);
      repeat first [apply list_elem_of_here | apply list_elem_of_further]|]);
    try done.
  intros [?|(f & Hf & Hnone)]; [done|].
  rewrite !elem_of_cons, elem_of_nil in Hf.
  destruct Hf as [->|[->|[->|[->|[]]]]]; congruence.
Qed.

Lemma appended_cons p ps s : appended ps (appended [p] s) = appended (p :: ps) s.
Proof.
  unfold appended, set_participants, set_heap. simpl.
  rewrite length_app, <- !(assoc_L (++)). simpl.
  by rewrite Nat.add_1_r.
Qed.

Lemma appended_nil s : appended [] s = s.
Proof.
  unfold appended, set_participants, set_heap. simpl.
  rewrite !app_nil_r. by destruct s.
Qed.

Lemma open_lines_Return lines ps s :
  parsed int lines ps -> open_lines int lines s = (Return tt, appended ps s).
Proof.
  unfold parsed. revert ps s.
  induction lines as [|line lines IH]; intros ps s Hps; simpl.
  - apply Forall2_nil_inv_l in Hps as ->. by rewrite appended_nil.
  - rewrite filter_cons in Hps. case_bool_decide as Hline.
    + rewrite decide_True in Hps by done.
      apply Forall2_cons_inv_l in Hps as (p & ps' & Hp & Hps' & ->).
      rewrite Hp. unfold bind, append_participant, modify.
      rewrite (IH ps') by done. by rewrite <- appended_cons.
    + rewrite decide_False in Hps by naive_solver. by apply IH.
Qed.

Lemma open_lines_Raise l1 line l2 ps s :
  parsed int l1 ps -> line <> EmptyString -> parse_line int line = None ->
  open_lines int (l1 ++ line :: l2) s
    = (Raise (ValueError (malformed_message (_filename s) line)), appended ps s).
Proof.
  unfold parsed. intros Hps Hne Hbad. revert ps s Hps.
  induction l1 as [|l l1 IH]; intros ps s Hps; simpl.
  - apply Forall2_nil_inv_l in Hps as ->.
    rewrite bool_decide_eq_true_2, Hbad, appended_nil by done. done.
  - rewrite filter_cons in Hps. case_bool_decide as Hline.
    + rewrite decide_True in Hps by done.
      apply Forall2_cons_inv_l in Hps as (p & ps' & Hp & Hps' & ->).
      rewrite Hp. unfold bind at 1, append_participant, modify.
      rewrite (IH ps') by done. by rewrite <- appended_cons.
    + rewrite decide_False in Hps by naive_solver. by apply IH.
Qed.

(** Either every non-empty line is read, or there is a first one that is not. *)
Lemma lines_cases lines :
  (exists ps, parsed int lines ps) \/
  (exists l1 line l2 ps, lines = l1 ++ line :: l2 /\ parsed int l1 ps /\
     line <> EmptyString /\ parse_line int line = None).
Proof.
  unfold parsed. induction lines as [|line lines IH].
  - left. exists []. constructor.
  - destruct (decide (line = EmptyString)) as [->|Hne].
    + destruct IH as [[ps Hps]|(l1 & l & l2 & ps & -> & Hps & Hl & Hbad)].
      * left. exists ps. by rewrite filter_cons_False by naive_solver.
      * right. exists (EmptyString :: l1), l, l2, ps.
        by rewrite filter_cons_False by naive_solver.
    + destruct (parse_line int line) as [p|] eqn:Hp.
      * destruct IH as [[ps Hps]|(l1 & l & l2 & ps & -> & Hps & Hl & Hbad)].
        -- left. exists (p :: ps). rewrite filter_cons_True by done.
           by constructor.
        -- right. exists (line :: l1), l, l2, (p :: ps).
           rewrite filter_cons_True by done. repeat split; try done.
           by constructor.
      * right. exists [], line, lines, []. repeat split; try done; constructor.
Qed.

Lemma parsed_no_malformed lines ps line :
  parsed int lines ps -> line ∈ lines -> line <> EmptyString ->
  parse_line int line <> None.
Proof.
  unfold parsed. intros Hps Hin Hne Hbad.
  assert (line ∈ filter (fun l => l <> EmptyString) lines) as Hf
    by by apply list_elem_of_filter.
  apply list_elem_of_lookup in Hf as [i Hi].
  destruct (Forall2_lookup_l _ _ _ _ _ Hps Hi) as (p & _ & Hp). congruence.
Qed.

Lemma open_parsed filename lines ps :
  parsed int lines ps ->
  open int lines (__init__ filename) =
    if bool_decide (ps = []) then
      (Raise (ValueError (empty_message filename)), __init__ filename)
    else (Return tt, opened filename ps).
Proof.
  intros Hps. unfold open, bind at 1. rewrite (open_lines_Return lines ps) by done.
  unfold bind, get. simpl. rewrite length_seq.
  destruct ps as [|p ps]; simpl; [by rewrite appended_nil|done].
Qed.
End Loading.

(** The two messages of [open] never coincide. *)
Lemma messages_differ_aux (n : nat) (f t1 t2 : string) :
  (String.length f <= n)%nat ->
  ("File " ++ f ++ String " " t1)%string <> (f ++ String ":" t2)%string.
Proof.
  revert f. induction n as [|n IH]; intros f Hn.
  - destruct f; simpl in *; [discriminate|lia].
  - destruct f as [|c1 [|c2 [|c3 [|c4 [|c5 f]]]]]; simpl in *;
      try (intros H; injection H; intros; subst; discriminate).
    intros H. injection H as <- <- <- <- <- H'.
    apply (IH f); [lia|done].
Qed.

Lemma messages_differ filename line :
  empty_message filename <> malformed_message filename line.
Proof.
  unfold empty_message, malformed_message.
  apply (messages_differ_aux (String.length filename)). lia.
Qed.

Lemma malformed_message_inj filename line line' :
  malformed_message filename line = malformed_message filename line' -> line = line'.
Proof.
  unfold malformed_message. induction filename as [|c f IH]; simpl.
  - intros H. by simplify_eq.
  - intros H. injection H as H. by apply IH.
Qed.

Lemma open_malformed int filename l1 line l2 ps :
  parsed int l1 ps -> line <> EmptyString -> parse_line int line = None ->
  open int (l1 ++ line :: l2) (__init__ filename)
    = (Raise (ValueError (malformed_message filename line)),
       appended ps (__init__ filename)).
Proof.
  intros Hps Hne Hbad. unfold open, bind at 1.
  by rewrite (open_lines_Raise int l1 line l2 ps).
Qed.

Lemma open_Return_inv int filename lines s0 :
  open int lines (__init__ filename) = (Return tt, s0) ->
  exists ps, ps <> [] /\ parsed int lines ps /\ s0 = opened filename ps.
Proof.
  intros Hopen.
  destruct (lines_cases int lines)
    as [[ps Hps]|(l1 & line & l2 & ps & -> & Hps & Hne & Hbad)].
  - rewrite (open_parsed int filename lines ps Hps) in Hopen.
    case_bool_decide; simplify_eq. by exists ps.
  - by rewrite (open_malformed int filename l1 line l2 ps) in Hopen.
Qed.

Lemma lookup_total_seq {A : Type} `{!Inhabited A} (l : list A) :
  (fun i => l !!! i) <$> seq 0 (length l) = l.
Proof.
  apply list_eq. intros i. rewrite list_lookup_fmap.
  destruct (decide (i < length l)%nat) as [Hi|Hi].
  - rewrite lookup_seq_lt by done. simpl.
    destruct (lookup_lt_is_Some_2 l i Hi) as [x Hx].
    by rewrite Hx, (list_lookup_total_correct _ _ _ Hx).
  - rewrite lookup_seq_ge, lookup_ge_None_2 by lia. done.
Qed.

Lemma roster_opened filename ps : roster (opened filename ps) = ps.
Proof. unfold roster, deref. simpl. apply lookup_total_seq. Qed.

Lemma opened_loaded filename ps : ps <> [] -> loaded (opened filename ps).
Proof.
  intros Hne. repeat split; simpl.
  - by destruct ps.
  - apply NoDup_seq.
  - done.
  - intros r Hr. apply elem_of_seq in Hr. lia.
Qed.

Lemma parsed_length int lines ps :
  parsed int lines ps ->
  length ps = length (filter (fun line => line <> EmptyString) lines).
Proof. intros Hps. symmetry. by eapply Forall2_length. Qed.

(** C9.  [open] on a new [Poller] raises the error naming the file and the
    line exactly when a non-empty line is malformed, and the line it names
    is such a line; with no malformed line it raises the error of the empty
    roster exactly when no record was read; and otherwise it returns with
    one [Participant] for each non-empty line, in the order of the lines. *)
Theorem open_failure_contract (int : string -> option Z)
    (filename : string) (lines : list string) :
  let result := open int lines (__init__ filename) in
  ((exists line, line ∈ lines /\ line <> EmptyString /\ malformed int line) <->
   (exists line, result.1 = Raise (ValueError (malformed_message filename line)))) /\
  (forall line,
     result.1 = Raise (ValueError (malformed_message filename line)) ->
     line ∈ lines /\ line <> EmptyString /\ malformed int line) /\
  (~ (exists line, line ∈ lines /\ line <> EmptyString /\ malformed int line) ->
   exists ps, parsed int lines ps /\
     (result.1 = Raise (ValueError (empty_message filename)) <-> ps = []) /\
     (ps <> [] ->
      result = (Return tt, opened filename ps) /\
      roster (opened filename ps) = ps /\
      length ps = length (filter (fun line => line <> EmptyString) lines))).
Proof.
  simpl.
  destruct (lines_cases int lines)
    as [[ps Hps]|(l1 & line & l2 & ps & -> & Hps & Hne & Hbad)].
  - assert (~ exists line, line ∈ lines /\ line <> EmptyString /\ malformed int line)
      as Hnone.
    { intros (line & Hin & Hne & Hbad%parse_line_None).
      by eapply parsed_no_malformed. }
    rewrite (open_parsed int filename lines ps Hps).
    assert (forall line,
              (if bool_decide (ps = [])
               then (Raise (ValueError (empty_message filename)), __init__ filename)
               else (Return tt, opened filename ps)).1
              <> @Raise unit (ValueError (malformed_message filename line))) as Hno.
    { intros line. case_bool_decide; simpl; [|done].
      intros [=Heq]. by apply messages_differ in Heq. }
    split; [split; [done|by intros [line H%Hno]]|].
    split; [by intros line H%Hno|].
    intros _. exists ps. split; [done|]. split.
    + case_bool_decide; simpl; [done|]. split; [done|]. done.
    + intros Hne. rewrite bool_decide_eq_false_2 by done.
      split; [done|]. split; [apply roster_opened|by eapply parsed_length].
  - rewrite (open_malformed int filename l1 line l2 ps Hps Hne Hbad). simpl.
    assert (line ∈ l1 ++ line :: l2 /\ line <> EmptyString /\ malformed int line)
      as Hline.
    { split; [apply elem_of_app; right; by left|].
      split; [done|]. by apply parse_line_None. }
    split; [split; [by eauto|by eauto]|].
    split.
    + intros line' [=->%malformed_message_inj]. done.
    + intros []. by eauto.
Qed.

(** ** Sessions of rounds *)

Lemma iter_Return draws s r l :
  shuffled draws s = r :: l ->
  __iter__ draws s
    = (Return tt,
       set_stopped false
         (set_index (-1) (set_last_polled (polled_of s r) (set_to_poll (r :: l) s)))).
Proof.
  intros Hs. unfold __iter__, bind at 1.
  by rewrite (shuffle_Return draws s r l).
Qed.

(** A shuffle puts the floor at the least counter of the roster. *)
Lemma shuffled_floor draws s r l s' :
  loaded s -> (exists m, within s m) -> shuffled draws s = r :: l ->
  heap s' = heap s -> _participants s' = _participants s ->
  _last_polled s' = polled_of s r ->
  floor_pass s'.
Proof.
  intros Hl [m0 Hm0] Hs Hh Hp HL. exists (polled_of s r).
  split; [|lia]. intros x Hx. rewrite Hp in Hx.
  replace (polled_of s' x) with (polled_of s x)
    by (unfold polled_of, deref; by rewrite Hh).
  assert (r ∈ _participants s) as Hr.
  { apply (loaded_elem_of s r Hl).
    rewrite <- (shuffled_Permutation draws s), Hs. by left. }
  pose proof (shuffled_head_least draws s r l x Hs) as Hle.
  rewrite (loaded_elem_of s x Hl) in Hle. specialize (Hle Hx).
  pose proof (Hm0 r Hr). pose proof (Hm0 x Hx). lia.
Qed.

Lemma iter_between_rounds draws s :
  loaded s -> (exists m, within s m) ->
  exists s1, __iter__ draws s = (Return tt, s1) /\
    heap s1 = heap s /\ _participants s1 = _participants s /\
    between_rounds s1.
Proof.
  intros Hl Hw.
  destruct (shuffled_head draws s (loaded_to_poll_ne s Hl)) as (r & l & Hs).
  eexists. split; [by apply iter_Return|]. do 2 (split; [done|]).
  split; [|split; [done|split; [simpl; lia|]]].
  - by apply loaded_set_stopped, loaded_set_index, (loaded_shuffled draws).
  - left. by eapply (shuffled_floor draws s r l).
Qed.

Lemma rounds_ok steps s :
  between_rounds s ->
  exists trace s',
    rounds steps s = (Return trace, s') /\
    length trace = (2 * length steps)%nat /\
    Forall (fun s => spread s <= 1) trace.
Proof.
  revert s. induction steps as [|[draws k] steps IH]; intros s Hinv.
  - exists [], s. by repeat split.
  - destruct (round_ok draws k s Hinv) as (nm & s1 & s2 & Hn & Hr & Hh & Hp & Hinv2).
    destruct (IH s2 Hinv2) as (trace & s' & Hrun & Hlen & Hall).
    exists (s1 :: s2 :: trace), s'. split; [|split].
    + simpl. unfold bind at 1. rewrite Hn.
      unfold bind at 1, get at 1. unfold bind at 1. rewrite Hr.
      unfold bind at 1, get at 1. unfold bind at 1. by rewrite Hrun.
    + simpl. lia.
    + constructor; [|constructor; [|done]].
      * rewrite (spread_same_heap s s1) by done. by apply between_rounds_spread.
      * by apply between_rounds_spread.
Qed.

Lemma opened_between_rounds filename ps :
  ps <> [] ->
  (forall p q, p ∈ ps -> q ∈ ps -> Participant.polled p = Participant.polled q) ->
  between_rounds (opened filename ps).
Proof.
  intros Hne Heq. split; [by apply opened_loaded|].
  split; [done|]. split; [simpl; lia|]. right.
  destruct ps as [|p0 ps]; [done|]. exists (Participant.polled p0).
  intros i r Hi. simpl in Hi. rewrite bool_decide_eq_false_2 by (simpl; lia).
  apply Heq; [|by left].
  rewrite <- (roster_opened filename (p0 :: ps)) at 2.
  unfold roster. apply list_elem_of_fmap. exists r. split; [done|].
  simpl. by eapply list_elem_of_lookup_2.
Qed.

(** Started with [__iter__], a session keeps the balance from any loaded
    roster whose counters are within one of each other. *)
Lemma balance_after_iter (draws : list nat) (steps : list (list nat * kind)) (s : t) :
  loaded s -> spread s <= 1 ->
  exists s1 trace s',
    __iter__ draws s = (Return tt, s1) /\
    rounds steps s1 = (Return trace, s') /\
    length trace = (2 * length steps)%nat /\
    Forall (fun s => spread s <= 1) (s1 :: trace).
Proof.
  intros Hl Hsp.
  destruct (iter_between_rounds draws s Hl) as (s1 & Hiter & _ & _ & Hinv1).
  { eexists. by apply spread_within. }
  destruct (rounds_ok steps _ Hinv1) as (trace & s' & Hrun & Hlen & Hall).
  exists s1, trace, s'. repeat split; try done.
  constructor; [by apply between_rounds_spread|done].
Qed.

(** As [open] leaves it the floor is 0: it is not above the counters of a
    roster that holds no negative one. *)
Lemma opened_floor_pass filename ps :
  ps <> [] -> spread (opened filename ps) <= 1 ->
  (forall p, p ∈ ps -> 0 <= Participant.polled p) ->
  between_rounds (opened filename ps).
Proof.
  intros Hne Hsp Hnn. split; [by apply opened_loaded|].
  split; [done|]. split; [simpl; lia|]. left.
  exists (minimum (polled_counts (opened filename ps))).
  split; [by apply spread_within|].
  assert (polled_counts (opened filename ps) <> []) as Hne'.
  { unfold polled_counts. intros H%fmap_nil_inv. simpl in H.
    destruct ps; [done|]. simpl in H. done. }
  destruct (proj1 (elem_of_polled_counts _ _) (minimum_elem_of _ Hne'))
    as (r & Hr & ->).
  change (_last_polled (opened filename ps)) with 0.
  apply Hnn. rewrite <- (roster_opened filename ps) at 2.
  unfold roster. apply list_elem_of_fmap. by exists r.
Qed.

(** C1.  A roster is loaded with [polled] counters at most one apart, and
    a session of rounds follows, each a [__next__] followed by one outcome
    method, with any random draws and any outcomes.  If the session starts
    with [__iter__] (as [for participant in poller] does), every call
    returns and after every call the largest [polled] counter of the roster
    exceeds the smallest by at most one.  The same holds when [__next__]
    is called at once, without [__iter__], provided no counter is negative
    or all counters are equal: the floor [open] leaves is 0, and it must
    not lie above the counters. *)
Theorem balance_invariant (int : string -> option Z) (filename : string)
    (lines : list string) (s0 : t) (steps : list (list nat * kind)) :
  open int lines (__init__ filename) = (Return tt, s0) ->
  spread s0 <= 1 ->
  (forall draws, exists s1 trace s',
     __iter__ draws s0 = (Return tt, s1) /\
     rounds steps s1 = (Return trace, s') /\
     length trace = (2 * length steps)%nat /\
     Forall (fun s => spread s <= 1) (s1 :: trace)) /\
  ((forall p, p ∈ roster s0 -> 0 <= Participant.polled p) \/
   (forall p q, p ∈ roster s0 -> q ∈ roster s0 ->
      Participant.polled p = Participant.polled q) ->
   exists trace s',
     rounds steps s0 = (Return trace, s') /\
     length trace = (2 * length steps)%nat /\
     Forall (fun s => spread s <= 1) (s0 :: trace)).
Proof.
  intros (ps & Hne & Hps & ->)%open_Return_inv Hsp.
  split.
  - intros draws.
    by apply balance_after_iter; [apply opened_loaded|].
  - rewrite roster_opened. intros Hstart.
    assert (between_rounds (opened filename ps)) as Hinv.
    { destruct Hstart as [Hnn|Heq].
      - by apply opened_floor_pass.
      - by apply opened_between_rounds. }
    destruct (rounds_ok steps _ Hinv) as (trace & s' & Hrun & Hlen & Hall).
    exists trace, s'. repeat split; try done.
    constructor; [by apply between_rounds_spread|done].
Qed.

(** C1 as stated fails when [__next__] is called at once on counters that
    are negative and unequal: the file holds [polled] -1 and -2, one apart;
    [__next__] leaves the cursor on the first participant, whose -1 is not
    above the floor 0, and [attempted] makes the counters 0 and -2. *)
Lemma balance_invariant_counterexample :
  let lines := ["A,-1,0,0,0"; "B,-2,0,0,0"; ""]%string in
  exists s0 s1 s2,
    open int_decimal lines (__init__ "test") = (Return tt, s0) /\
    polled_counts s0 = [-1; -2] /\ spread s0 <= 1 /\
    __next__ [] s0 = (Return "A"%string, s1) /\
    attempted s1 = (Return tt, s2) /\
    polled_counts s2 = [0; -2] /\ spread s2 = 2 /\ ~ spread s2 <= 1.
Proof.
  eexists _, _, _. split; [reflexivity|]. split; [reflexivity|].
  split; [by vm_compute|]. split; [reflexivity|]. split; [reflexivity|].
  split; [reflexivity|]. split; [reflexivity|]. by vm_compute.
Qed.

(** ** The contract of [__next__] *)

Lemma name_in_roster s s' r :
  heap s' = heap s -> r ∈ _participants s ->
  Participant.name (deref s' r) ∈ Participant.name <$> roster s.
Proof.
  intros Hh Hr. unfold roster. rewrite <- list_fmap_compose.
  apply list_elem_of_fmap. exists r. split; [|done].
  simpl. unfold deref. by rewrite Hh.
Qed.

(** C2.  A stopped poller raises [StopIteration] and is left as it was.
    Otherwise, on a loaded poller, [__next__] advances the cursor by one;
    if the cursor is then past the end of [_to_poll], or the participant
    under it has [polled] above [_last_polled], it calls [shuffle] and
    sets the cursor to 0, and else it changes nothing more; it returns the
    name of the participant under the cursor, a name of the roster.  In
    particular the call after the last position returns such a name. *)
Theorem next_contract (draws : list nat) (s : t) :
  (_stopped s = true -> __next__ draws s = (Raise StopIteration, s)) /\
  (_stopped s = false -> loaded s -> -1 <= _index s ->
   let s1 := set_index (_index s + 1) s in
   let past_end := Z.of_nat (length (_to_poll s)) <= _index s + 1 in
   let over_floor :=
     exists r, cursor s1 = Some r /\ _last_polled s < polled_of s r in
   exists r s',
     __next__ draws s = (Return (Participant.name (deref s' r)), s') /\
     cursor s' = Some r /\
     Participant.name (deref s' r) ∈ Participant.name <$> roster s /\
     (past_end \/ over_floor ->
      exists s2, shuffle draws s1 = (Return tt, s2) /\ s' = set_index 0 s2) /\
     (~ (past_end \/ over_floor) -> s' = s1)) /\
  (_stopped s = false -> loaded s ->
   _index s = Z.of_nat (length (_to_poll s)) - 1 ->
   exists nm s',
     __next__ draws s = (Return nm, s') /\
     nm ∈ Participant.name <$> roster s /\ _index s' = 0).
Proof.
  split; [apply next_stopped|].
  assert (_stopped s = false -> loaded s -> -1 <= _index s ->
          Z.of_nat (length (_to_poll s)) <= _index s + 1 \/
          (exists r, cursor (set_index (_index s + 1) s) = Some r /\
                     _last_polled s < polled_of s r) ->
          exists r s',
            __next__ draws s = (Return (Participant.name (deref s' r)), s') /\
            cursor s' = Some r /\
            Participant.name (deref s' r) ∈ Participant.name <$> roster s /\
            _index s' = 0 /\
            exists s2, shuffle draws (set_index (_index s + 1) s) = (Return tt, s2) /\
                       s' = set_index 0 s2) as Hshuffle.
  { intros Hst Hl Hidx Hcond.
    destruct (shuffled_head draws s (loaded_to_poll_ne s Hl)) as (r0 & l & Hs).
    exists r0, (set_index 0 (set_last_polled (polled_of s r0) (set_to_poll (r0 :: l) s))).
    split.
    { rewrite (next_reshuffle draws s r0 l); try done.
      rewrite reshuffle_due_eq. simpl.
      destruct Hcond as [Hend|(r & Hr & Hover)].
      - by rewrite bool_decide_eq_true_2.
      - case_bool_decide; [done|]. rewrite Hr.
        by rewrite bool_decide_eq_true_2. }
    split; [done|]. split.
    { apply (name_in_roster s); [done|]. apply (loaded_elem_of s r0 Hl).
      rewrite <- (shuffled_Permutation draws s), Hs. by left. }
    split; [done|].
    exists (set_last_polled (polled_of s r0)
              (set_to_poll (r0 :: l) (set_index (_index s + 1) s))).
    split; [|done]. by rewrite (shuffle_Return draws _ r0 l). }
  split.
  - intros Hst Hl Hidx. simpl.
    set (cond := Z.of_nat (length (_to_poll s)) <= _index s + 1 \/
                 (exists r, cursor (set_index (_index s + 1) s) = Some r /\
                            _last_polled s < polled_of s r)).
    assert (cond -> exists r s',
              __next__ draws s = (Return (Participant.name (deref s' r)), s') /\
              cursor s' = Some r /\
              Participant.name (deref s' r) ∈ Participant.name <$> roster s /\
              (cond -> exists s2, shuffle draws (set_index (_index s + 1) s)
                                    = (Return tt, s2) /\ s' = set_index 0 s2) /\
              (~ cond -> s' = set_index (_index s + 1) s)) as Hyes.
    { intros Hcond.
      destruct (Hshuffle Hst Hl Hidx Hcond) as (r & s' & Hn & Hc & Hnm & _ & Hs2).
      exists r, s'. by repeat split. }
    destruct (decide (Z.of_nat (length (_to_poll s)) <= _index s + 1))
      as [Hend|Hend]; [by apply Hyes; left|].
    destruct (cursor (set_index (_index s + 1) s)) as [r|] eqn:Hcur.
    2:{ exfalso. unfold cursor in Hcur. simpl in Hcur.
        rewrite getitem_nonneg in Hcur by lia.
        apply lookup_ge_None in Hcur. lia. }
    destruct (decide (_last_polled s < polled_of s r)) as [Hover|Hover];
      [by apply Hyes; right; exists r|].
    assert (~ cond) as Hcond
      by (unfold cond; intros [?|(r' & [= <-] & ?)]; done).
    exists r, (set_index (_index s + 1) s).
    split.
    { rewrite (next_advance draws s r); try done.
      rewrite reshuffle_due_eq. simpl.
      rewrite bool_decide_eq_false_2 by done. rewrite Hcur.
      by rewrite bool_decide_eq_false_2. }
    split; [done|]. split; [|by split].
    apply (name_in_roster s); [done|]. apply (loaded_elem_of s r Hl).
    by apply getitem_Some_elem_of in Hcur.
  - intros Hst Hl Hidx.
    destruct (Hshuffle Hst Hl) as (r & s' & Hn & _ & Hnm & Hi & _); [lia|left; lia|].
    by eauto.
Qed.

(** ** The contract of [shuffle] *)

Lemma shuffle_loaded draws s :
  loaded s ->
  exists r l, shuffled draws s = r :: l /\
    shuffle draws s
      = (Return tt, set_last_polled (polled_of s r) (set_to_poll (r :: l) s)).
Proof.
  intros Hl.
  destruct (shuffled_head draws s (loaded_to_poll_ne s Hl)) as (r & l & Hs).
  exists r, l. split; [done|]. by apply shuffle_Return.
Qed.

(** C3.  On a loaded poller [shuffle] returns and leaves in [_to_poll] a
    reordering of the roster, in ascending order of [polled], in which the
    participants of one [polled] value stand as the random permutation
    left them; [_last_polled] is the [polled] of the first of them, and
    the objects and the roster are untouched.  For the roster with
    [polled] 3, 1, 1, 2 the first name [__next__] returns after [shuffle]
    is [P1] or [P2], of [polled] 1, and [_last_polled] is 1; some draws
    give [P1] and some give [P2]. *)
Theorem shuffle_contract :
  (forall (draws : list nat) (s : t), loaded s ->
   exists s',
     shuffle draws s = (Return tt, s') /\
     _to_poll s' ≡ₚ _participants s /\
     StronglySorted (key_le (polled_of s')) (_to_poll s') /\
     random_shuffle draws (_to_poll s) ≡ₚ _participants s /\
     (forall k,
        filter (fun r => polled_of s' r = k) (_to_poll s')
        = filter (fun r => polled_of s' r = k) (random_shuffle draws (_to_poll s))) /\
     (exists r, _to_poll s' !! 0%nat = Some r /\ _last_polled s' = polled_of s' r) /\
     heap s' = heap s /\ _participants s' = _participants s) /\
  (forall (draws draws' : list nat),
   exists s' r s'',
     shuffle draws (opened "roster" example_roster) = (Return tt, s') /\
     __next__ draws' s' = (Return (Participant.name (deref s' r)), s'') /\
     cursor s'' = Some r /\
     (Participant.name (deref s' r) = "P1" \/ Participant.name (deref s' r) = "P2") /\
     polled_of s' r = 1 /\
     _last_polled s' = 1 /\ _last_polled s'' = 1) /\
  (exists draws,
     (shuffle draws ;; __next__ []) (opened "roster" example_roster)
     = (Return "P1"%string,
        (shuffle draws ;; __next__ []) (opened "roster" example_roster)).2) /\
  (exists draws,
     (shuffle draws ;; __next__ []) (opened "roster" example_roster)
     = (Return "P2"%string,
        (shuffle draws ;; __next__ []) (opened "roster" example_roster)).2).
Proof.
  split; [|split; [|split; [by exists []|by exists [0; 0; 1]%nat]]].
  - intros draws s Hl.
    destruct (shuffle_loaded draws s Hl) as (r & l & Hs & Hrun).
    eexists. split; [exact Hrun|]. simpl.
    change (polled_of (set_last_polled _ _)) with (polled_of s).
    rewrite <- Hs. destruct Hl as (_ & _ & Hp & _).
    split; [by rewrite shuffled_Permutation|].
    split; [apply shuffled_sorted|].
    split; [by rewrite random_shuffle_Permutation|].
    split; [intros k; apply sort_by_stable|].
    split; [by exists r|done].
  - intros draws draws'. set (s := opened "roster" example_roster).
    assert (loaded s) as Hl by by apply opened_loaded.
    destruct (shuffle_loaded draws s Hl) as (r & l & Hs & Hrun).
    set (s' := set_last_polled (polled_of s r) (set_to_poll (r :: l) s)) in *.
    assert (r ∈ _to_poll s) as Hr.
    { rewrite <- (shuffled_Permutation draws s), Hs. by left. }
    assert (polled_of s r <= 1) as Hle.
    { apply (shuffled_head_least draws s r l 1%nat Hs).
      simpl. by do 2 constructor. }
    assert (r = 1%nat \/ r = 2%nat) as Hcase.
    { simpl in Hr. rewrite !elem_of_cons, elem_of_nil in Hr.
      destruct Hr as [->|[->|[->|[->|[]]]]]; vm_compute in Hle; auto;
        by destruct Hle. }
    assert (polled_of s r = 1) as Hone by (by destruct Hcase as [->| ->]).
    assert (cursor (set_index (_index s' + 1) s') = Some r) as Hcur by done.
    exists s', r, (set_index (_index s' + 1) s').
    split; [done|]. split.
    { apply next_advance; [done| |done].
      rewrite reshuffle_due_eq, Hcur. simpl.
      change (polled_of (set_index _ _) r) with (polled_of s r).
      by rewrite bool_decide_eq_false_2 by lia. }
    split; [done|]. split; [by destruct Hcase as [->| ->]; [left|right]|].
    by repeat split.
Qed.

(** ** The two ways of [__next__] *)

Lemma next_cases draws s :
  _stopped s = false -> loaded s -> -1 <= _index s ->
  (exists r l,
     reshuffle_due (set_index (_index s + 1) s)
       = (Return true, set_index (_index s + 1) s) /\
     shuffled draws s = r :: l /\
     __next__ draws s
       = (Return (Participant.name (deref s r)),
          set_index 0 (set_last_polled (polled_of s r) (set_to_poll (r :: l) s)))) \/
  (exists r,
     reshuffle_due (set_index (_index s + 1) s)
       = (Return false, set_index (_index s + 1) s) /\
     _to_poll s !! Z.to_nat (_index s + 1) = Some r /\
     __next__ draws s
       = (Return (Participant.name (deref s r)), set_index (_index s + 1) s)).
Proof.
  intros Hst Hl Hidx.
  destruct (shuffled_head draws s (loaded_to_poll_ne s Hl)) as (r0 & l & Hs).
  pose proof (reshuffle_due_eq (set_index (_index s + 1) s)) as Hdue.
  simpl in Hdue. unfold cursor in Hdue. simpl in Hdue.
  rewrite getitem_nonneg in Hdue by lia.
  case_bool_decide as Hend.
  { left. exists r0, l. split; [done|]. split; [done|]. by apply next_reshuffle. }
  destruct (_to_poll s !! Z.to_nat (_index s + 1)) as [r|] eqn:Hr.
  2:{ apply lookup_ge_None in Hr. lia. }
  change (polled_of (set_index _ _)) with (polled_of s) in Hdue.
  case_bool_decide as Hover.
  { left. exists r0, l. split; [done|]. split; [done|]. by apply next_reshuffle. }
  right. exists r. split; [done|]. split; [done|].
  apply next_advance; [done|done|].
  unfold cursor. simpl. by rewrite getitem_nonneg by lia.
Qed.

(** ** Outcome methods and the cursor *)

(** C4, as the code has it.  With the cursor not started ([_index] is -1)
    the outcome methods and [current_participant] raise only when
    [_to_poll] is empty, and then [IndexError]; on a non-empty [_to_poll]
    the index -1 is its last position, so they return: the outcome is
    recorded for the last participant of [_to_poll] and
    [current_participant] gives its name. *)
Theorem outcome_before_next (k : kind) (s : t) :
  _index s = -1 ->
  (_to_poll s = [] ->
   record_outcome k s = (Raise IndexError, s) /\
   current_participant s = (Raise IndexError, s)) /\
  (forall r, last (_to_poll s) = Some r ->
   record_outcome k s = (Return tt, recorded k r s) /\
   current_participant s = (Return (Participant.name (deref s r)), s)).
Proof.
  intros Hidx.
  assert (cursor s = last (_to_poll s)) as Hcur.
  { unfold cursor. rewrite Hidx. apply getitem_last. }
  split.
  - intros Hnil. rewrite Hnil in Hcur. simpl in Hcur. split.
    + by apply record_outcome_None.
    + unfold current_participant, bind at 1.
      by rewrite to_poll_at_index_None.
  - intros r Hr. rewrite Hr in Hcur. split.
    + by apply record_outcome_Some.
    + by apply current_participant_Some.
Qed.

(** C4 as stated fails: on the roster of the tests, loaded and with no
    [__next__] called yet, neither [attempted] nor [current_participant]
    raises; the outcome goes to [Person1]. *)
Lemma outcome_before_next_counterexample :
  let s := opened "test" test_roster in
  _index s = -1 /\
  ~ fails (record_outcome Attempted) s /\
  ~ fails current_participant s /\
  current_participant s = (Return "Person1"%string, s) /\
  roster (record_outcome Attempted s).2
    = [Participant.mk "Person0" 0 0 0 0; Participant.mk "Person1" 1 0 1 0].
Proof.
  simpl. split; [done|].
  split; [by intros (e & s' & [=])|].
  split; [by intros (e & s' & [=])|].
  by split.
Qed.

(** C6.  After a [__next__] that returns, an outcome method returns too
    and adds one to [polled] of the participant under the cursor (the one
    whose name [__next__] returned), one to the counter of its kind (none
    for [missing]) and one to [_total_polled]; it changes no other counter
    and not the name of that participant, no other object, and no other
    attribute of the poller. *)
Theorem outcome_frame (draws : list nat) (k : kind) (s s1 : t) (nm : string) :
  loaded s -> -1 <= _index s ->
  __next__ draws s = (Return nm, s1) ->
  exists r s2,
    cursor s1 = Some r /\ Participant.name (deref s1 r) = nm /\
    record_outcome k s1 = (Return tt, s2) /\
    Participant.polled (deref s2 r) = Participant.polled (deref s1 r) + 1 /\
    Participant.correct (deref s2 r)
      = Participant.correct (deref s1 r) + (if k is Correct then 1 else 0) /\
    Participant.attempted (deref s2 r)
      = Participant.attempted (deref s1 r) + (if k is Attempted then 1 else 0) /\
    Participant.excused (deref s2 r)
      = Participant.excused (deref s1 r) + (if k is Excused then 1 else 0) /\
    Participant.name (deref s2 r) = Participant.name (deref s1 r) /\
    (forall r', r' <> r -> deref s2 r' = deref s1 r') /\
    length (heap s2) = length (heap s1) /\
    _total_polled s2 = _total_polled s1 + 1 /\
    _to_poll s2 = _to_poll s1 /\ _participants s2 = _participants s1 /\
    _index s2 = _index s1 /\ _last_polled s2 = _last_polled s1 /\
    _stopped s2 = _stopped s1 /\ _filename s2 = _filename s1 /\
    _opener s2 = _opener s1.
Proof.
  intros Hl Hidx Hnext.
  destruct (_stopped s) eqn:Hst; [by rewrite next_stopped in Hnext|].
  assert (exists r, cursor s1 = Some r /\ Participant.name (deref s1 r) = nm /\
                    loaded s1) as (r & Hcur & Hnm & Hl1).
  { destruct (next_cases draws s Hst Hl Hidx)
      as [(r & l & _ & Hs & Heq)|(r & _ & Hr & Heq)];
      rewrite Heq in Hnext; simplify_eq; exists r.
    - split; [done|]. split; [done|].
      by apply loaded_set_index, (loaded_shuffled draws).
    - split; [|by split; [|apply loaded_set_index]].
      unfold cursor. simpl. by rewrite getitem_nonneg by lia. }
  pose proof (loaded_cursor_live s1 r Hl1 Hcur) as Hlive.
  exists r, (recorded k r s1).
  split; [done|]. split; [done|]. split; [by apply record_outcome_Some|].
  rewrite (deref_recorded k r s1 r Hlive), decide_True by done.
  split; [by destruct k; simpl; lia|]. split; [by destruct k; simpl; lia|].
  split; [by destruct k; simpl; lia|]. split; [by destruct k; simpl; lia|].
  split; [by destruct k|]. split.
  { intros r' Hne. by rewrite (deref_recorded k r s1 r' Hlive), decide_False. }
  split; [simpl; by rewrite length_alter|]. by repeat split.
Qed.

(** ** What [shuffle] leaves alone *)

Lemma shuffle_index_stopped draws s :
  _index (shuffle draws s).2 = _index s /\
  _stopped (shuffle draws s).2 = _stopped s.
Proof. rewrite shuffle_eq. by destruct (shuffled draws s). Qed.

(** C7, as the code has it.  [shuffle] itself changes neither the cursor
    nor [_stopped].  [__iter__], which starts an iteration, calls
    [shuffle] and then sets the cursor to not started (-1) and [_stopped]
    to false.  A [__next__] that shuffles sets the cursor to 0, and
    [_stopped] is false after it because it was false before. *)
Theorem shuffle_cursor_halted (draws : list nat) (s : t) :
  (_index (shuffle draws s).2 = _index s /\
   _stopped (shuffle draws s).2 = _stopped s) /\
  (loaded s ->
   exists s', __iter__ draws s = (Return tt, s') /\
     _index s' = -1 /\ _stopped s' = false) /\
  (loaded s -> -1 <= _index s -> begins_pass (Next draws) s = true ->
   exists nm s', __next__ draws s = (Return nm, s') /\
     _index s' = 0 /\ _stopped s' = false /\ _stopped s = false).
Proof.
  split; [apply shuffle_index_stopped|]. split.
  - intros Hl.
    destruct (shuffled_head draws s (loaded_to_poll_ne s Hl)) as (r & l & Hs).
    eexists. split; [by apply iter_Return|]. done.
  - intros Hl Hidx Hb. simpl in Hb. apply andb_true_iff in Hb as [Hst Hdue].
    apply negb_true_iff in Hst.
    destruct (next_cases draws s Hst Hl Hidx)
      as [(r & l & _ & Hs & Heq)|(r & Hno & _ & _)].
    + eexists _, _. split; [exact Heq|]. done.
    + by rewrite Hno in Hdue.
Qed.

(** C7 as stated fails: after [__next__] and [stop] on the roster of the
    tests, a call of [shuffle] leaves the cursor at 0 and [_stopped] true;
    and the [__next__] that shuffles at the end of the list leaves the
    cursor at 0, not at -1. *)
Lemma shuffle_cursor_halted_counterexample :
  let s := session [Iter []; Next []; Outcome Attempted; Stop]
             (opened "test" test_roster) in
  let s' := session [Iter []; Next []; Outcome Attempted; Next []; Outcome Attempted]
              (opened "test" test_roster) in
  (shuffle [] s = (Return tt, (shuffle [] s).2) /\
   _index (shuffle [] s).2 = 0 /\ _index (shuffle [] s).2 <> -1 /\
   _stopped (shuffle [] s).2 = true /\ _stopped (shuffle [] s).2 <> false) /\
  (begins_pass (Next []) s' = true /\
   _index (exec (Next []) s') = 0 /\ _index (exec (Next []) s') <> -1).
Proof. vm_compute. repeat split; done. Qed.

(** ** Leaving the [with] block *)

Lemma save_eq s :
  save s = (Return tt, set_opener (Some (line_of s <$> _participants s)) s).
Proof. done. Qed.

Lemma line_of_roster s :
  line_of s <$> _participants s
  = (fun p => Participant.__str__ p ++ newline)%string <$> roster s.
Proof. unfold roster. by rewrite <- list_fmap_compose. Qed.

(** C10.  [__exit__] calls [save] when the block ended normally and does
    nothing when it ended with an exception.  So a [with] block that
    returns leaves the file written with the lines of the roster as the
    block left it, and a block that raises leaves the poller, and with it
    what was written to the file, as the block left it, and the exception
    goes on to the caller. *)
Theorem exit_saves_only_without_exception (int : string -> option Z)
    (lines : list string) (A : Type) (body : M A) (s0 s1 : t) :
  __enter__ int lines s0 = (Return tt, s1) ->
  (__exit__ None = save /\
   forall e s, __exit__ (Some e) s = (Return tt, s)) /\
  (forall a s2, body s1 = (Return a, s2) ->
     with_ int lines body s0 = (Return a, (save s2).2) /\
     _opener (save s2).2
       = Some ((fun p => Participant.__str__ p ++ newline)%string <$> roster s2)) /\
  (forall e s2, body s1 = (Raise e, s2) ->
     with_ int lines body s0 = (Raise e, s2) /\
     _opener (with_ int lines body s0).2 = _opener s2).
Proof.
  intros Henter. split; [done|]. split.
  - intros a s2 Hbody. unfold with_. rewrite Henter, Hbody. simpl.
    split; [done|]. by rewrite line_of_roster.
  - intros e s2 Hbody. unfold with_. by rewrite Henter, Hbody.
Qed.

(** ** The poller after any call *)

Lemma name_recorded k r s x :
  Participant.name (deref (recorded k r s) x) = Participant.name (deref s x).
Proof.
  unfold deref, recorded. simpl. rewrite list_lookup_total_alter.
  case_decide as H; [|done]. destruct H as [-> _]. by destruct k.
Qed.

Lemma same_objects_refl s : same_objects s s.
Proof. by repeat split. Qed.

Lemma same_objects_trans s1 s2 s3 :
  same_objects s1 s2 -> same_objects s2 s3 -> same_objects s1 s3.
Proof.
  intros (Hp & Hh & Hn & Ht) (Hp' & Hh' & Hn' & Ht'). repeat split.
  - by rewrite Hp'.
  - by rewrite Hh'.
  - intros r. by rewrite Hn'.
  - by rewrite Ht'.
Qed.

Lemma same_objects_recorded k r s : same_objects s (recorded k r s).
Proof.
  repeat split; simpl; try done.
  - by rewrite length_alter.
  - apply name_recorded.
Qed.

Lemma same_objects_shuffled draws s r l v :
  shuffled draws s = r :: l ->
  same_objects s (set_last_polled v (set_to_poll (r :: l) s)).
Proof.
  intros Hs. repeat split; simpl; try done.
  rewrite <- Hs. apply shuffled_Permutation.
Qed.

Lemma exec_Outcome k s :
  exec (Outcome k) s = match cursor s with Some r => recorded k r s | None => s end.
Proof.
  simpl. destruct (cursor s) as [r|] eqn:Hc.
  - by rewrite (record_outcome_Some k s r).
  - by rewrite record_outcome_None.
Qed.

Lemma exec_Current s : exec Current s = s.
Proof.
  simpl. destruct (cursor s) as [r|] eqn:Hc.
  - by rewrite (current_participant_Some s r).
  - unfold current_participant, bind at 1. by rewrite to_poll_at_index_None.
Qed.

(** No call loses or copies an object, and the cursor never falls below
    the position before the list. *)
Lemma exec_inv c s :
  loaded s -> -1 <= _index s ->
  loaded (exec c s) /\ -1 <= _index (exec c s) /\ same_objects s (exec c s).
Proof.
  intros Hl Hidx.
  destruct (shuffled_head (match c with
                           | Iter d | Shuffle d | Next d => d
                           | _ => []
                           end) s (loaded_to_poll_ne s Hl)) as (r0 & l & Hs).
  destruct c as [d|d|d|k| | | |].
  - simpl. rewrite (iter_Return d s r0 l Hs). simpl. split; [|split; [lia|]].
    + by apply loaded_set_stopped, loaded_set_index, (loaded_shuffled d).
    + by apply (same_objects_shuffled d s r0 l).
  - simpl. rewrite (shuffle_Return d s r0 l Hs). simpl. split; [|split; [lia|]].
    + by apply (loaded_shuffled d).
    + by apply (same_objects_shuffled d).
  - simpl. destruct (_stopped s) eqn:Hst.
    { rewrite next_stopped by done.
      split; [done|]. split; [done|]. apply same_objects_refl. }
    destruct (next_cases d s Hst Hl Hidx)
      as [(r & l' & _ & Hs' & ->)|(r & _ & Hr & ->)]; simpl.
    + split; [|split; [lia|]].
      * by apply loaded_set_index, (loaded_shuffled d).
      * by apply (same_objects_shuffled d s r l').
    + split; [done|]. split; [lia|]. apply (same_objects_refl s).
  - rewrite exec_Outcome. destruct (cursor s) as [r|].
    + split; [by apply loaded_recorded|]. split; [done|].
      apply same_objects_recorded.
    + split; [done|]. split; [done|]. apply same_objects_refl.
  - rewrite exec_Current. split; [done|]. split; [done|]. apply same_objects_refl.
  - split; [done|]. split; [done|]. apply (same_objects_refl s).
  - split; [done|]. split; [done|]. apply (same_objects_refl s).
  - split; [done|]. split; [done|]. apply (same_objects_refl s).
Qed.

Lemma session_inv cs s :
  loaded s -> -1 <= _index s ->
  loaded (session cs s) /\ -1 <= _index (session cs s) /\
  same_objects s (session cs s).
Proof.
  revert s. induction cs as [|c cs IH]; intros s Hl Hidx; simpl.
  - split; [done|]. split; [done|]. apply same_objects_refl.
  - destruct (exec_inv c s Hl Hidx) as (Hl' & Hidx' & Hso).
    destruct (IH _ Hl' Hidx') as (Hl'' & Hidx'' & Hso').
    split; [done|]. split; [done|]. by eapply same_objects_trans.
Qed.

(** ** Shared objects *)

(** An outcome recorded through the working list shows in the roster, at
    the position of the object. *)
Lemma roster_recorded k r s (i : nat) :
  loaded s -> _participants s !! i = Some r ->
  roster (recorded k r s)
  = <[i := incr_category k (Participant.incr_polled (deref s r))]> (roster s).
Proof.
  intros Hl Hi.
  assert (r < length (heap s))%nat as Hlive.
  { apply Hl. by eapply list_elem_of_lookup_2. }
  destruct Hl as (_ & Hnd & _ & _).
  apply list_eq. intros j. unfold roster. simpl.
  rewrite list_lookup_fmap.
  destruct (decide (i = j)) as [<-|Hne].
  - rewrite list_lookup_insert_eq
      by (rewrite length_fmap; by eapply lookup_lt_Some).
    rewrite Hi. simpl. by rewrite deref_recorded, decide_True.
  - rewrite list_lookup_insert_ne, list_lookup_fmap by done.
    destruct (_participants s !! j) as [x|] eqn:Hj; [|done]. simpl.
    rewrite deref_recorded by done. rewrite decide_False; [done|].
    intros ->. apply Hne. by eapply NoDup_lookup.
Qed.

(** C8.  After [open], whatever calls follow, the roster is the list of
    objects that was loaded, in the order loaded, and each keeps its name;
    no object is added; [_to_poll] holds the same objects in some order;
    an outcome recorded through [_to_poll] changes the roster at the
    position of that object; and [save] writes the lines of the objects in
    the order of the roster, with their counters as they are then. *)
Theorem aliasing_and_order (int : string -> option Z) (filename : string)
    (lines : list string) (s0 : t) (cs : list call) :
  open int lines (__init__ filename) = (Return tt, s0) ->
  let s := session cs s0 in
  _to_poll s0 = _participants s0 /\
  _participants s = _participants s0 /\
  NoDup (_participants s) /\
  _to_poll s ≡ₚ _participants s /\
  length (heap s) = length (heap s0) /\
  Participant.name <$> roster s = Participant.name <$> roster s0 /\
  (forall k r, cursor s = Some r ->
     exists i, _participants s !! i = Some r /\
       record_outcome k s = (Return tt, recorded k r s) /\
       roster (recorded k r s)
       = <[i := incr_category k (Participant.incr_polled (deref s r))]> (roster s)) /\
  _opener (save s).2
  = Some ((fun p => Participant.__str__ p ++ newline)%string <$> roster s).
Proof.
  intros (ps & Hne & Hps & ->)%open_Return_inv. simpl.
  pose proof (opened_loaded filename ps Hne) as Hl0.
  destruct (session_inv cs (opened filename ps) Hl0)
    as (Hl & Hidx & Hp & Hh & Hn & Ht); [simpl; lia|].
  split; [done|]. split; [done|].
  split; [apply Hl|]. split; [apply Hl|]. split; [done|]. split.
  { unfold roster. rewrite Hp, <- !list_fmap_compose.
    apply list_fmap_ext. intros i r _. apply Hn. }
  split.
  - intros k r Hcur.
    assert (r ∈ _participants (session cs (opened filename ps))) as Hr.
    { apply (loaded_elem_of _ r Hl). by apply getitem_Some_elem_of in Hcur. }
    apply list_elem_of_lookup in Hr as [i Hi]. exists i.
    split; [done|]. split; [by apply record_outcome_Some|].
    by apply roster_recorded.
  - by rewrite line_of_roster.
Qed.

(** ** Names within a pass *)

Lemma remaining_recorded k r s : remaining (recorded k r s) = remaining s.
Proof.
  unfold remaining. simpl. apply list_fmap_ext. intros i x _.
  apply name_recorded.
Qed.

(** A call that does not shuffle returns, if anything, the next of the
    remaining names. *)
Lemma remaining_step c s :
  loaded s -> -1 <= _index s -> begins_pass c s = false ->
  remaining s = returned c s ++ remaining (exec c s).
Proof.
  intros Hl Hidx Hb. destruct c as [d|d|d|k| | | |]; try done.
  - simpl in Hb. simpl. destruct (_stopped s) eqn:Hst.
    { by rewrite next_stopped. }
    destruct (next_cases d s Hst Hl Hidx)
      as [(r & l & Hdue & _ & _)|(r & _ & Hr & ->)].
    { by rewrite Hdue in Hb. }
    simpl. unfold remaining at 1. rewrite (drop_S _ _ _ Hr). simpl.
    unfold remaining. simpl.
    by replace (Z.to_nat (_index s + 1 + 1)) with (S (Z.to_nat (_index s + 1))) by lia.
  - rewrite exec_Outcome. simpl. destruct (cursor s); [|done].
    by rewrite remaining_recorded.
  - by rewrite exec_Current.
Qed.

Lemma pass_names_prefix cs s :
  loaded s -> -1 <= _index s -> exists rest, remaining s = pass_names cs s ++ rest.
Proof.
  revert s. induction cs as [|c cs IH]; intros s Hl Hidx; simpl; [by eauto|].
  destruct (begins_pass c s) eqn:Hb; [by eauto|].
  destruct (exec_inv c s Hl Hidx) as (Hl' & Hidx' & _).
  destruct (IH _ Hl' Hidx') as [rest Hrest]. exists rest.
  by rewrite (remaining_step c s Hl Hidx Hb), Hrest, (assoc_L (++)).
Qed.

Lemma NoDup_to_poll_names s :
  loaded s -> NoDup (Participant.name <$> roster s) ->
  NoDup ((fun r => Participant.name (deref s r)) <$> _to_poll s).
Proof.
  intros (_ & _ & Hp & _) Hnd. rewrite Hp.
  unfold roster in Hnd. by rewrite <- list_fmap_compose in Hnd.
Qed.

Lemma NoDup_remaining s :
  loaded s -> NoDup (Participant.name <$> roster s) -> NoDup (remaining s).
Proof.
  intros Hl Hnd. pose proof (NoDup_to_poll_names s Hl Hnd) as Hall.
  rewrite <- (take_drop (Z.to_nat (_index s + 1)) (_to_poll s)) in Hall.
  rewrite fmap_app in Hall. by apply NoDup_app in Hall as (_ & _ & Hall).
Qed.

Lemma same_objects_names s s' :
  same_objects s s' ->
  Participant.name <$> roster s' = Participant.name <$> roster s.
Proof.
  intros (Hp & _ & Hn & _). unfold roster.
  rewrite Hp, <- !list_fmap_compose. apply list_fmap_ext. intros i r _. apply Hn.
Qed.

(** C5.  On a loaded poller whose roster has pairwise distinct names, the
    names [__next__] returns from any point up to the next shuffle are
    pairwise distinct; and so are the names of a whole pass: those
    returned from the call that shuffles (an [__iter__], a [shuffle], or a
    [__next__] that shuffles and returns the first name) up to the next
    shuffle, whatever outcome methods and other calls come in between. *)
Theorem no_repeat_within_pass (s : t) (cs : list call) :
  loaded s -> -1 <= _index s -> NoDup (Participant.name <$> roster s) ->
  NoDup (pass_names cs s) /\
  (forall c, begins_pass c s = true ->
     NoDup (returned c s ++ pass_names cs (exec c s))).
Proof.
  intros Hl Hidx Hnd.
  assert (forall s', loaded s' -> -1 <= _index s' ->
            NoDup (Participant.name <$> roster s') -> NoDup (pass_names cs s'))
    as Hpass.
  { intros s' Hl' Hidx' Hnd'.
    destruct (pass_names_prefix cs s' Hl' Hidx') as [rest Hrest].
    pose proof (NoDup_remaining s' Hl' Hnd') as Hrem.
    rewrite Hrest in Hrem. by apply NoDup_app in Hrem as (Hrem & _ & _). }
  split; [by apply Hpass|].
  intros c Hb.
  destruct (exec_inv c s Hl Hidx) as (Hl' & Hidx' & Hso).
  assert (NoDup (Participant.name <$> roster (exec c s))) as Hnd'
    by by rewrite (same_objects_names s).
  destruct c as [d|d|d|k| | | |]; try done;
    try (simpl returned; simpl app; by apply Hpass).
  simpl in Hb. apply andb_true_iff in Hb as [Hst Hdue].
  apply negb_true_iff in Hst.
  destruct (next_cases d s Hst Hl Hidx)
    as [(r & l & _ & Hs & Heq)|(r & Hno & _ & _)]; [|by rewrite Hno in Hdue].
  revert Hl' Hidx' Hnd'. simpl. rewrite Heq. simpl. intros Hl' Hidx' Hnd'.
  destruct (pass_names_prefix cs _ Hl' Hidx') as [rest Hrest].
  pose proof (NoDup_to_poll_names _ Hl' Hnd') as Hall.
  change (NoDup (Participant.name (deref s r) ::
                 remaining (set_index 0 (set_last_polled (polled_of s r)
                                           (set_to_poll (r :: l) s))))) in Hall.
  rewrite Hrest, app_comm_cons in Hall.
  by apply NoDup_app in Hall as (Hall & _ & _).
Qed.

(** ** The theorems at concrete sessions *)

Lemma test_roster_loaded : loaded (opened "test" test_roster).
Proof. by apply opened_loaded. Defined.

Lemma test_roster_opened :
  open int_decimal ["Person0,0,0,0,0"; "Person1,0,0,0,0"; ""]%string (__init__ "test")
  = (Return tt, opened "test" test_roster).
Proof. reflexivity. Defined.

Lemma test_roster_names :
  NoDup (Participant.name <$> roster (opened "test" test_roster)).
Proof. rewrite roster_opened. apply (bool_decide_unpack _). by vm_compute. Defined.

(** The session of [test_attempted]: both participants are polled once,
    whichever comes first, and the file gets their two lines in the order
    of the roster. *)
Example test_attempted_first_draw_0 :
  _opener (session [Iter [0%nat]; Next []; Outcome Attempted; Next []; Stop;
                    Outcome Attempted; Next []; Save] (opened "test" test_roster))
  = Some [("Person0,1,0,1,0" ++ newline)%string; ("Person1,1,0,1,0" ++ newline)%string].
Proof. reflexivity. Qed.

Example test_attempted_first_draw_1 :
  _opener (session [Iter [1%nat]; Next []; Outcome Attempted; Next []; Stop;
                    Outcome Attempted; Next []; Save] (opened "test" test_roster))
  = Some [("Person0,1,0,1,0" ++ newline)%string; ("Person1,1,0,1,0" ++ newline)%string].
Proof. reflexivity. Qed.

(** The session of [test_exit]: an empty block writes the line it read. *)
Example test_exit :
  _opener (with_ int_decimal ["Person0,0,0,0,0"; ""]%string (ret tt) (__init__ "test")).2
  = Some [("Person0,0,0,0,0" ++ newline)%string].
Proof. reflexivity. Qed.

(** C1 on a file whose counters are one apart, 1 and 0: three rounds,
    started with [__iter__] and started at once. *)
Lemma balance_invariant_witness :
  let lines := ["Person0,1,0,0,0"; "Person1,0,0,0,0"; ""]%string in
  let s0 := opened "test" [Participant.mk "Person0" 1 0 0 0;
                           Participant.mk "Person1" 0 0 0 0] in
  let steps := [([], Attempted); ([1%nat], Correct); ([], MissingOnly)] in
  (open int_decimal lines (__init__ "test") = (Return tt, s0) /\
   spread s0 <= 1 /\
   (forall p, p ∈ roster s0 -> 0 <= Participant.polled p)) /\
  (exists s1 trace s',
     __iter__ [1%nat] s0 = (Return tt, s1) /\
     rounds steps s1 = (Return trace, s') /\
     length trace = (2 * length steps)%nat /\
     Forall (fun s => spread s <= 1) (s1 :: trace)) /\
  (exists trace s',
     rounds steps s0 = (Return trace, s') /\
     length trace = (2 * length steps)%nat /\
     Forall (fun s => spread s <= 1) (s0 :: trace)).
Proof.
  assert (open int_decimal ["Person0,1,0,0,0"; "Person1,0,0,0,0"; ""]%string
            (__init__ "test")
          = (Return tt, opened "test" [Participant.mk "Person0" 1 0 0 0;
                                       Participant.mk "Person1" 0 0 0 0])) as Hopen
    by reflexivity.
  assert (spread (opened "test" [Participant.mk "Person0" 1 0 0 0;
                                 Participant.mk "Person1" 0 0 0 0]) <= 1) as Hsp
    by by vm_compute.
  assert (forall p, p ∈ roster (opened "test" [Participant.mk "Person0" 1 0 0 0;
                                               Participant.mk "Person1" 0 0 0 0]) ->
                    0 <= Participant.polled p) as Hnn.
  { intros p. rewrite roster_opened, !elem_of_cons, elem_of_nil.
    by intros [->|[->|[]]]. }
  split; [by split; [|split]|].
  destruct (balance_invariant int_decimal "test" _ _
              [([], Attempted); ([1%nat], Correct); ([], MissingOnly)]
              Hopen Hsp) as [Hiter Hdirect].
  split; [exact (Hiter [1%nat])|exact (Hdirect (or_introl Hnn))].
Defined.

(** C2 on the roster of the tests: the first call of a session. *)
Lemma next_contract_witness :
  let s := opened "test" test_roster in
  (_stopped s = false /\ loaded s /\ -1 <= _index s) /\
  (exists r s',
     __next__ [] s = (Return (Participant.name (deref s' r)), s') /\
     cursor s' = Some r /\
     Participant.name (deref s' r) ∈ Participant.name <$> roster s).
Proof.
  assert (-1 <= _index (opened "test" test_roster)) as Hidx by (simpl; lia).
  split; [by split; [|split; [exact test_roster_loaded|]]|].
  destruct (proj1 (proj2 (next_contract [] (opened "test" test_roster)))
              eq_refl test_roster_loaded Hidx)
    as (r & s' & Hn & Hc & Hin & _).
  by exists r, s'.
Defined.

(** C3 on the roster of the example. *)
Lemma shuffle_contract_witness :
  let s := opened "roster" example_roster in
  loaded s /\
  exists s',
    shuffle [2; 0; 1]%nat s = (Return tt, s') /\
    _to_poll s' ≡ₚ _participants s /\
    StronglySorted (key_le (polled_of s')) (_to_poll s') /\
    _last_polled s' = 1.
Proof.
  assert (loaded (opened "roster" example_roster)) as Hl by by apply opened_loaded.
  split; [exact Hl|].
  destruct (proj1 shuffle_contract [2; 0; 1]%nat _ Hl)
    as (s' & Hrun & Hp & Hs & _).
  exists s'. split; [done|]. split; [done|]. split; [done|].
  vm_compute in Hrun. by simplify_eq.
Defined.

(** C4, as the code has it, on the roster of the tests and on a poller
    that has loaded nothing. *)
Lemma outcome_before_next_witness :
  (let s := opened "test" test_roster in
   _index s = -1 /\
   record_outcome Attempted s = (Return tt, recorded Attempted 1%nat s) /\
   current_participant s = (Return (Participant.name (deref s 1%nat)), s)) /\
  (let s := __init__ "test" in
   _index s = -1 /\ _to_poll s = [] /\
   record_outcome Attempted s = (Raise IndexError, s) /\
   current_participant s = (Raise IndexError, s)).
Proof.
  split.
  - split; [reflexivity|].
    exact (proj2 (outcome_before_next Attempted (opened "test" test_roster) eq_refl)
             1%nat eq_refl).
  - split; [reflexivity|]. split; [reflexivity|].
    exact (proj1 (outcome_before_next Attempted (__init__ "test") eq_refl) eq_refl).
Defined.

(** C5 on the roster of the tests. *)
Lemma no_repeat_within_pass_witness :
  let s := opened "test" test_roster in
  let cs := [Next []; Outcome Attempted; Next []; Outcome Correct; Next []; Next []] in
  (loaded s /\ -1 <= _index s /\ NoDup (Participant.name <$> roster s)) /\
  NoDup (pass_names cs s) /\
  NoDup (returned (Iter [1%nat]) s ++ pass_names cs (exec (Iter [1%nat]) s)).
Proof.
  assert (-1 <= _index (opened "test" test_roster)) as Hidx by (simpl; lia).
  split; [by split; [exact test_roster_loaded|split; [|exact test_roster_names]]|].
  destruct (no_repeat_within_pass (opened "test" test_roster)
              [Next []; Outcome Attempted; Next []; Outcome Correct; Next []; Next []]
              test_roster_loaded Hidx test_roster_names) as [H1 H2].
  split; [exact H1|]. by apply H2.
Defined.

(** C6 on the roster of the tests. *)
Lemma outcome_frame_witness :
  let s := opened "test" test_roster in
  (loaded s /\ -1 <= _index s /\
   __next__ [] s = (Return "Person0"%string, set_index 0 s)) /\
  exists r s2,
    cursor (set_index 0 s) = Some r /\
    record_outcome Correct (set_index 0 s) = (Return tt, s2) /\
    Participant.polled (deref s2 r) = Participant.polled (deref s r) + 1 /\
    Participant.correct (deref s2 r) = Participant.correct (deref s r) + 1 /\
    _total_polled s2 = 1.
Proof.
  assert (-1 <= _index (opened "test" test_roster)) as Hidx by (simpl; lia).
  split; [by split; [exact test_roster_loaded|split]|].
  destruct (outcome_frame [] Correct (opened "test" test_roster) _ _
              test_roster_loaded Hidx eq_refl)
    as (r & s2 & Hc & _ & Hrec & Hp & Hcor & _ & _ & _ & _ & _ & Htot & _).
  exists r, s2. by repeat split.
Defined.

(** C7, as the code has it, on the roster of the tests. *)
Lemma shuffle_cursor_halted_witness :
  let s := opened "test" test_roster in
  loaded s /\
  exists s', __iter__ [1%nat] s = (Return tt, s') /\
    _index s' = -1 /\ _stopped s' = false.
Proof.
  split; [exact test_roster_loaded|].
  exact (proj1 (proj2 (shuffle_cursor_halted [1%nat] (opened "test" test_roster)))
           test_roster_loaded).
Defined.

(** C8 on the session of the end-to-end test. *)
Lemma aliasing_and_order_witness :
  let s0 := opened "test" test_roster in
  let cs := [Iter [0%nat]; Next []; Outcome Attempted; Next []; Stop; Outcome Attempted] in
  open int_decimal ["Person0,0,0,0,0"; "Person1,0,0,0,0"; ""]%string (__init__ "test")
    = (Return tt, s0) /\
  _participants (session cs s0) = _participants s0 /\
  _to_poll (session cs s0) ≡ₚ _participants (session cs s0) /\
  _opener (save (session cs s0)).2
  = Some ((fun p => Participant.__str__ p ++ newline)%string <$> roster (session cs s0)).
Proof.
  split; [exact test_roster_opened|].
  destruct (aliasing_and_order int_decimal "test" _ _
              [Iter [0%nat]; Next []; Outcome Attempted; Next []; Stop; Outcome Attempted]
              test_roster_opened)
    as (_ & Hp & _ & Ht & _ & _ & _ & Hsave).
  by split; [|split].
Defined.

(** C9 on the file of the tests. *)
Lemma open_failure_contract_witness :
  let lines := ["Person0,0,0,0,0"; "Person1,0,0,0,0"; ""]%string in
  ~ (exists line, line ∈ lines /\ line <> EmptyString /\ malformed int_decimal line) /\
  exists ps, parsed int_decimal lines ps /\
    (ps <> [] ->
     open int_decimal lines (__init__ "test") = (Return tt, opened "test" ps)).
Proof.
  assert (~ (exists line,
               line ∈ ["Person0,0,0,0,0"; "Person1,0,0,0,0"; ""]%string /\
               line <> EmptyString /\ malformed int_decimal line)) as Hnone.
  { intros (line & Hin & Hne & Hbad%parse_line_None).
    rewrite !elem_of_cons, elem_of_nil in Hin.
    by destruct Hin as [->|[->|[->|[]]]]. }
  split; [exact Hnone|].
  destruct (proj2 (proj2 (open_failure_contract int_decimal "test"
                            ["Person0,0,0,0,0"; "Person1,0,0,0,0"; ""]%string))
              Hnone) as (ps & Hps & _ & Hok).
  exists ps. split; [done|]. intros Hne. by destruct (Hok Hne).
Defined.

(** C10 on a block that polls one participant and one that raises. *)
Lemma exit_saves_only_without_exception_witness :
  let lines := ["Person0,0,0,0,0"; "Person1,0,0,0,0"; ""]%string in
  let s1 := opened "test" test_roster in
  __enter__ int_decimal lines (__init__ "test") = (Return tt, s1) /\
  (forall s2, (__next__ [] ;; attempted) s1 = (Return tt, s2) ->
     with_ int_decimal lines (__next__ [] ;; attempted) (__init__ "test")
     = (Return tt, (save s2).2)) /\
  (forall e s2, (__next__ [] ;; attempted ;; raise (A:=unit) IndexError) s1 = (Raise e, s2) ->
     _opener (with_ int_decimal lines
                (__next__ [] ;; attempted ;; raise (A:=unit) IndexError)
                (__init__ "test")).2 = _opener s2).
Proof.
  split; [exact test_roster_opened|]. split.
  - intros s2 H.
    exact (proj1 (proj1 (proj2 (exit_saves_only_without_exception int_decimal
                    ["Person0,0,0,0,0"; "Person1,0,0,0,0"; ""]%string unit
                    (__next__ [] ;; attempted) _ _ test_roster_opened)) tt s2 H)).
  - intros e s2 H.
    exact (proj2 (proj2 (proj2 (exit_saves_only_without_exception int_decimal
                    ["Person0,0,0,0,0"; "Person1,0,0,0,0"; ""]%string unit
                    (__next__ [] ;; attempted ;; raise (A:=unit) IndexError) _ _
                    test_roster_opened)) e s2 H)).
Defined.

(** * Further properties *)

(** ** Lines written and read back *)

Lemma has_char_String c a s : has_char c (String a s) <-> c = a \/ has_char c s.
Proof. unfold has_char. simpl. apply elem_of_cons. Qed.

Lemma has_char_empty c : ~ has_char c EmptyString.
Proof. unfold has_char. simpl. apply not_elem_of_nil. Qed.

Lemma append_String a s1 s2 :
  (String a s1 ++ s2)%string = String a (s1 ++ s2)%string.
Proof. done. Qed.

Lemma has_char_app c s1 s2 :
  has_char c (s1 ++ s2)%string <-> has_char c s1 \/ has_char c s2.
Proof.
  induction s1 as [|a s1 IH].
  - split; [by right|]. intros [H|H]; [by apply has_char_empty in H|done].
  - rewrite append_String, !has_char_String, IH. tauto.
Qed.

Lemma split_cons sep s : exists h t, split sep s = h :: t.
Proof.
  induction s as [|c s (h & t & IH)]; simpl; [by eauto|].
  case_bool_decide; [by eauto|]. rewrite IH. by eauto.
Qed.

(** No field of [split] holds the separator. *)
Lemma split_fields sep s : Forall (fun f => ~ has_char sep f) (split sep s).
Proof.
  induction s as [|c s IH]; simpl.
  - constructor; [apply has_char_empty|constructor].
  - case_bool_decide as Hc.
    + constructor; [apply has_char_empty|done].
    + destruct (split sep s) as [|h t]; simpl.
      * constructor; [|constructor]. rewrite has_char_String.
        intros [->|H]; [done|by apply has_char_empty in H].
      * apply Forall_cons in IH as [Hh Ht]. constructor; [|done].
        rewrite has_char_String. intros [->|H]; [done|by apply Hh].
Qed.

Lemma split_no_sep sep s : ~ has_char sep s -> split sep s = [s].
Proof.
  induction s as [|c s IH]; simpl; [done|].
  rewrite has_char_String. intros Hno.
  rewrite bool_decide_eq_false_2 by (intros ->; apply Hno; by left).
  rewrite IH; [done|]. intros H. apply Hno. by right.
Qed.

Lemma split_app sep x rest :
  ~ has_char sep x ->
  split sep (x ++ String sep rest)%string = x :: split sep rest.
Proof.
  induction x as [|c x IH].
  - intros _. simpl. by rewrite bool_decide_eq_true_2.
  - rewrite has_char_String. intros Hno. rewrite append_String. simpl.
    rewrite bool_decide_eq_false_2 by (intros ->; apply Hno; by left).
    rewrite IH; [done|]. intros H. apply Hno. by right.
Qed.

(** [split] undoes [join] on fields free of the separator. *)
Lemma split_join sep f fs :
  Forall (fun f => ~ has_char sep f) (f :: fs) ->
  split sep (join (String sep EmptyString) (f :: fs)) = f :: fs.
Proof.
  revert f. induction fs as [|g fs IH]; intros f Hall.
  - apply Forall_cons in Hall as [Hf _]. simpl. by apply split_no_sep.
  - apply Forall_cons in Hall as [Hf Hall].
    change (join (String sep EmptyString) (f :: g :: fs))
      with (f ++ String sep (join (String sep EmptyString) (g :: fs)))%string.
    rewrite split_app by done. by rewrite IH.
Qed.

(** The characters of [str n] are digits and the minus sign. *)
Lemma uint_chars c d :
  has_char c (NilEmpty.string_of_uint d) -> c ∈ list_ascii_of_string "0123456789".
Proof.
  induction d as [|d IH|d IH|d IH|d IH|d IH|d IH|d IH|d IH|d IH|d IH]; simpl;
    [by intros ?%has_char_empty|..];
    rewrite has_char_String; (intros [->|H]; [|by apply IH]);
    simpl; rewrite !elem_of_cons; tauto.
Qed.

Lemma str_chars c n :
  has_char c (str n) -> c ∈ list_ascii_of_string "-0123456789".
Proof.
  assert (forall d, has_char c (NilZero.string_of_uint d) ->
                    c ∈ list_ascii_of_string "0123456789") as Hu.
  { intros d. destruct d; try apply (uint_chars c).
    simpl. rewrite has_char_String. intros [->|H]; [by left|].
    by apply has_char_empty in H. }
  unfold str. destruct (Z.to_int n) as [d|d]; simpl.
  - intros H%Hu. by right.
  - rewrite has_char_String. intros [->|H%Hu]; [by left|by right].
Qed.

Lemma str_no_comma n : ~ has_char "," (str n).
Proof.
  intros H%str_chars. simpl in H. rewrite !elem_of_cons, elem_of_nil in H.
  by repeat destruct H as [H|H].
Qed.

Lemma str_no_newline n : ~ has_char (ascii_of_nat 10) (str n).
Proof.
  intros H%str_chars. simpl in H. rewrite !elem_of_cons, elem_of_nil in H.
  by repeat destruct H as [H|H].
Qed.

(** [int_decimal] reads what [str] prints. *)
Lemma int_decimal_str n : int_decimal (str n) = Some n.
Proof.
  unfold int_decimal, str. rewrite NilZero.isi.
  - simpl. by rewrite DecimalZ.of_to.
  - destruct n; simpl; try done. intros [=H]. by apply DecimalPos.Unsigned.to_uint_nonnil in H.
  - destruct n; simpl; try done. intros [=H]. by apply DecimalPos.Unsigned.to_uint_nonnil in H.
Qed.

Lemma str_line_fields (p : Participant.t) :
  ~ has_char "," (Participant.name p) ->
  split "," (Participant.__str__ p)
  = [Participant.name p; str (Participant.polled p); str (Participant.correct p);
     str (Participant.attempted p); str (Participant.excused p)].
Proof.
  intros Hname. unfold Participant.__str__. apply split_join.
  repeat (constructor; [first [done|apply str_no_comma]|]). constructor.
Qed.

Lemma parse_line_str int (p : Participant.t) :
  (forall n, int (str n) = Some n) ->
  ~ has_char "," (Participant.name p) ->
  parse_line int (Participant.__str__ p) = Some p.
Proof.
  intros Hint Hname. unfold parse_line.
  rewrite str_line_fields, !Hint by done. by destruct p.
Qed.

(** X1.  A line written by [__str__] reads back as the participant it was
    written for, when the name holds no comma and [int] reads the decimal
    numerals [str] prints. *)
Theorem line_round_trip (int : string -> option Z) (p : Participant.t) :
  (forall n, int (str n) = Some n) ->
  ~ has_char "," (Participant.name p) ->
  length (split "," (Participant.__str__ p)) = 5%nat /\
  parse_line int (Participant.__str__ p) = Some p.
Proof.
  intros Hint Hname. split; [by rewrite str_line_fields|].
  by apply parse_line_str.
Qed.

Lemma parse_line_name int line p :
  parse_line int line = Some p -> ~ has_char "," (Participant.name p).
Proof.
  unfold parse_line. pose proof (split_fields "," line) as Hf.
  destruct (split "," line) as [|f0 [|f1 [|f2 [|f3 [|f4 [|f5 fs]]]]]]; try done.
  destruct (int f1), (int f2), (int f3), (int f4); try done.
  intros [= <-]. simpl. by apply Forall_cons in Hf as [Hf _].
Qed.

Lemma parsed_names int lines ps :
  parsed int lines ps ->
  Forall (fun p => ~ has_char "," (Participant.name p)) ps.
Proof.
  unfold parsed. intros Hps. apply Forall_forall. intros p Hp.
  apply list_elem_of_lookup in Hp as [i Hi].
  destruct (Forall2_lookup_r _ _ _ _ _ Hps Hi) as (line & _ & Hline).
  by eapply parse_line_name.
Qed.

Lemma session_names cs s :
  loaded s -> -1 <= _index s ->
  Participant.name <$> roster (session cs s) = Participant.name <$> roster s.
Proof.
  intros Hl Hidx. apply same_objects_names.
  by destruct (session_inv cs s Hl Hidx) as (_ & _ & Hso).
Qed.

Lemma session_opened_names int filename lines s0 cs p :
  open int lines (__init__ filename) = (Return tt, s0) ->
  p ∈ roster (session cs s0) -> ~ has_char "," (Participant.name p).
Proof.
  intros (ps & Hne & Hps & ->)%open_Return_inv Hp.
  assert (Participant.name p ∈ Participant.name <$> ps) as Hin.
  { rewrite <- (roster_opened filename ps).
    rewrite <- (session_names cs (opened filename ps));
      [|by apply opened_loaded|simpl; lia].
    apply list_elem_of_fmap. by exists p. }
  apply list_elem_of_fmap in Hin as (q & Hq & Hin). rewrite Hq.
  pose proof (parsed_names int lines ps Hps) as Hall.
  rewrite Forall_forall in Hall. by apply Hall.
Qed.

(** X2.  No name in the roster holds a comma: [open] takes the name from
    before the first comma of its line, and no call changes a name. *)
Theorem roster_names_comma_free (int : string -> option Z) (filename : string)
    (lines : list string) (s0 : t) (cs : list call) (p : Participant.t) :
  open int lines (__init__ filename) = (Return tt, s0) ->
  p ∈ roster (session cs s0) ->
  ~ has_char "," (Participant.name p) /\
  length (split "," (Participant.__str__ p)) = 5%nat.
Proof.
  intros Hopen Hp.
  pose proof (session_opened_names int filename lines s0 cs p Hopen Hp) as Hname.
  split; [done|]. by rewrite str_line_fields.
Qed.

Lemma str_line_nonempty (p : Participant.t) : Participant.__str__ p <> EmptyString.
Proof.
  unfold Participant.__str__.
  change (join "," [Participant.name p; str (Participant.polled p);
                    str (Participant.correct p); str (Participant.attempted p);
                    str (Participant.excused p)])
    with (Participant.name p
          ++ String "," (join "," [str (Participant.polled p);
                                   str (Participant.correct p);
                                   str (Participant.attempted p);
                                   str (Participant.excused p)]))%string.
  intros H. assert (has_char "," EmptyString) as Hc.
  { rewrite <- H. apply has_char_app. right. apply has_char_String. by left. }
  by apply has_char_empty in Hc.
Qed.

Lemma parsed_str_lines int ps :
  (forall n, int (str n) = Some n) ->
  Forall (fun p => ~ has_char "," (Participant.name p)) ps ->
  parsed int (Participant.__str__ <$> ps) ps.
Proof.
  intros Hint Hall. unfold parsed.
  induction Hall as [|p ps Hp Hall IH]; simpl; [constructor|].
  rewrite filter_cons_True by apply str_line_nonempty.
  constructor; [by apply parse_line_str|done].
Qed.

(** X3.  What a session leaves can always be loaded again: the lines
    [__str__] gives for the roster, read by [open] on a new poller, load a
    roster equal to it, participant by participant and in the same order
    (when [int] reads the numerals [str] prints). *)
Theorem saved_roster_reloads (int : string -> option Z) (filename filename' : string)
    (lines : list string) (s0 : t) (cs : list call) :
  (forall n, int (str n) = Some n) ->
  open int lines (__init__ filename) = (Return tt, s0) ->
  exists s',
    open int (Participant.__str__ <$> roster (session cs s0)) (__init__ filename')
      = (Return tt, s') /\
    roster s' = roster (session cs s0) /\
    _to_poll s' = _participants s'.
Proof.
  intros Hint Hopen.
  assert (Forall (fun p => ~ has_char "," (Participant.name p))
            (roster (session cs s0))) as Hnames.
  { apply Forall_forall. intros p Hp.
    by eapply session_opened_names. }
  destruct (open_Return_inv _ _ _ _ Hopen) as (ps & Hne & Hps & ->).
  destruct (session_inv cs (opened filename ps) (opened_loaded filename ps Hne))
    as (Hl & _ & _); [simpl; lia|].
  exists (opened filename' (roster (session cs (opened filename ps)))).
  rewrite (open_parsed int filename' _ _ (parsed_str_lines int _ Hint Hnames)).
  rewrite bool_decide_eq_false_2.
  - split; [done|]. split; [apply roster_opened|done].
  - unfold roster. intros Hnil%fmap_nil_inv. by destruct Hl as (Hne' & _).
Qed.

(** ** What a session does to the counters *)

(** A call either leaves every object and the total alone, or it is an
    outcome method that records for the object under the cursor. *)
Lemma exec_heap c s :
  loaded s -> -1 <= _index s ->
  (heap (exec c s) = heap s /\ _total_polled (exec c s) = _total_polled s) \/
  (exists k r, c = Outcome k /\ cursor s = Some r /\ exec c s = recorded k r s).
Proof.
  intros Hl Hidx.
  destruct (shuffled_head (match c with
                           | Iter d | Shuffle d | Next d => d
                           | _ => []
                           end) s (loaded_to_poll_ne s Hl)) as (r0 & l & Hs).
  destruct c as [d|d|d|k| | | |]; try (by left).
  - left. simpl. by rewrite (iter_Return d s r0 l Hs).
  - left. simpl. by rewrite (shuffle_Return d s r0 l Hs).
  - left. simpl. destruct (_stopped s) eqn:Hst; [by rewrite next_stopped|].
    by destruct (next_cases d s Hst Hl Hidx)
      as [(r & l' & _ & _ & ->)|(r & _ & _ & ->)].
  - rewrite exec_Outcome. destruct (cursor s) as [r|] eqn:Hc; [|by left].
    right. by exists k, r.
  - left. by rewrite exec_Current.
Qed.

Lemma sum_insert (l : list Z) (i : nat) (x y : Z) :
  l !! i = Some x -> foldr Z.add 0 (<[i:=y]> l) = foldr Z.add 0 l - x + y.
Proof.
  revert i. induction l as [|a l IH]; intros [|i] Hi; simplify_eq/=; [lia|].
  rewrite (IH i Hi). lia.
Qed.

Lemma polled_counts_roster s : polled_counts s = Participant.polled <$> roster s.
Proof. unfold polled_counts, roster. by rewrite <- list_fmap_compose. Qed.

Lemma sum_polled_recorded k r s :
  loaded s -> cursor s = Some r -> sum_polled (recorded k r s) = sum_polled s + 1.
Proof.
  intros Hl Hc.
  assert (r ∈ _participants s) as Hr.
  { apply (loaded_elem_of s r Hl). by apply getitem_Some_elem_of in Hc. }
  apply list_elem_of_lookup in Hr as [i Hi].
  unfold sum_polled. rewrite !polled_counts_roster, (roster_recorded k r s i Hl Hi).
  rewrite list_fmap_insert, polled_incr_category. simpl.
  rewrite (sum_insert _ i (Participant.polled (deref s r))); [lia|].
  unfold roster. by rewrite !list_lookup_fmap, Hi.
Qed.

Lemma sum_polled_same_heap s s' :
  heap s' = heap s -> _participants s' = _participants s ->
  sum_polled s' = sum_polled s.
Proof.
  intros Hh Hp. unfold sum_polled, polled_counts. rewrite Hp.
  replace (polled_of s') with (polled_of s); [done|].
  unfold polled_of, deref. by rewrite Hh.
Qed.

Lemma session_sum_total cs s :
  loaded s -> -1 <= _index s ->
  sum_polled (session cs s) - _total_polled (session cs s)
  = sum_polled s - _total_polled s.
Proof.
  revert s. induction cs as [|c cs IH]; intros s Hl Hidx; simpl; [done|].
  destruct (exec_inv c s Hl Hidx) as (Hl' & Hidx' & Hp & _).
  rewrite (IH _ Hl' Hidx').
  destruct (exec_heap c s Hl Hidx) as [[Hh Ht]|(k & r & -> & Hc & ->)].
  - by rewrite (sum_polled_same_heap s (exec c s)), Ht.
  - rewrite sum_polled_recorded by done. simpl. lia.
Qed.

(** X4.  [total] is the number of polls of the session: after any calls on
    a poller loaded by [open], the sum of the [polled] counters of the
    roster has grown by exactly [_total_polled], and [total] returns that
    number and changes nothing. *)
Theorem total_counts_polls (int : string -> option Z) (filename : string)
    (lines : list string) (s0 : t) (cs : list call) :
  open int lines (__init__ filename) = (Return tt, s0) ->
  let s := session cs s0 in
  sum_polled s = sum_polled s0 + _total_polled s /\
  total s = (Return (sum_polled s - sum_polled s0), s).
Proof.
  intros (ps & Hne & Hps & ->)%open_Return_inv. simpl.
  pose proof (session_sum_total cs (opened filename ps)
                (opened_loaded filename ps Hne)) as Hsum.
  simpl in Hsum. specialize (Hsum ltac:(lia)).
  split; [lia|]. unfold total, bind, get, ret. do 2 f_equal. lia.
Qed.

Lemma grown_refl p : grown p p.
Proof. unfold grown. repeat split; lia. Qed.

Lemma grown_trans p q r : grown p q -> grown q r -> grown p r.
Proof.
  unfold grown. intros (Hn & ? & ? & ? & ? & ?) (Hn' & ? & ? & ? & ? & ?).
  split; [congruence|]. repeat split; lia.
Qed.

Lemma grown_recorded k p : grown p (incr_category k (Participant.incr_polled p)).
Proof. unfold grown, unaccounted. destruct k; simpl; repeat split; lia. Qed.

Lemma exec_grown c s x :
  loaded s -> -1 <= _index s -> grown (deref s x) (deref (exec c s) x).
Proof.
  intros Hl Hidx.
  destruct (exec_heap c s Hl Hidx) as [[Hh _]|(k & r & -> & Hc & ->)].
  - unfold deref. rewrite Hh. apply grown_refl.
  - rewrite deref_recorded by by eapply loaded_cursor_live.
    case_decide as Hx; [subst x; apply grown_recorded|apply grown_refl].
Qed.

Lemma session_grown cs s x :
  loaded s -> -1 <= _index s -> grown (deref s x) (deref (session cs s) x).
Proof.
  revert s. induction cs as [|c cs IH]; intros s Hl Hidx; simpl.
  - apply grown_refl.
  - destruct (exec_inv c s Hl Hidx) as (Hl' & Hidx' & _).
    eapply grown_trans; [by apply exec_grown|by apply IH].
Qed.

(** X5.  Counters only grow.  After any calls on a poller loaded by
    [open], the participant at each position of the roster has the name it
    was loaded with and no counter smaller than loaded, and the polls that
    no outcome counter accounts for have not become fewer; so a participant
    loaded with [polled >= correct + attempted + excused] keeps it. *)
Theorem counters_only_grow (int : string -> option Z) (filename : string)
    (lines : list string) (s0 : t) (cs : list call) (i : nat) (p : Participant.t) :
  open int lines (__init__ filename) = (Return tt, s0) ->
  roster s0 !! i = Some p ->
  exists q, roster (session cs s0) !! i = Some q /\ grown p q /\
    (Participant.correct p + Participant.attempted p + Participant.excused p
       <= Participant.polled p ->
     Participant.correct q + Participant.attempted q + Participant.excused q
       <= Participant.polled q).
Proof.
  intros (ps & Hne & Hps & ->)%open_Return_inv Hi.
  pose proof (opened_loaded filename ps Hne) as Hl.
  destruct (session_inv cs _ Hl) as (_ & _ & Hp & _); [simpl; lia|].
  unfold roster in *. rewrite list_lookup_fmap in Hi. rewrite list_lookup_fmap, Hp.
  destruct (_participants (opened filename ps) !! i) as [r|]; simplify_eq/=.
  eexists. split; [done|].
  pose proof (session_grown cs (opened filename ps) r Hl) as Hg.
  simpl in Hg. specialize (Hg ltac:(lia)). split; [done|].
  destruct Hg as (_ & _ & _ & _ & _ & Hu). unfold unaccounted in Hu. lia.
Qed.

(** ** A poller that has loaded nothing *)

Lemma set_to_poll_nil s : _to_poll s = [] -> set_to_poll [] s = s.
Proof. destruct s. simpl. by intros ->. Qed.

Lemma shuffled_nil draws s : _to_poll s = [] -> shuffled draws s = [].
Proof.
  intros Hnil. apply Permutation_nil_r.
  by rewrite shuffled_Permutation, Hnil.
Qed.

Lemma shuffle_unloaded draws s :
  _to_poll s = [] -> shuffle draws s = (Raise IndexError, s).
Proof.
  intros Hnil. by rewrite shuffle_eq, shuffled_nil, set_to_poll_nil.
Qed.

(** X6.  Before anything is loaded ([_to_poll] is empty) every selecting
    or recording call raises [IndexError]: [shuffle], [__iter__], the
    outcome methods and [current_participant] leave the poller as it was;
    a [__next__] that is not stopped raises too, but has already moved the
    cursor on by one. *)
Theorem unloaded_poller_raises (draws : list nat) (k : kind) (s : t) :
  _to_poll s = [] ->
  shuffle draws s = (Raise IndexError, s) /\
  __iter__ draws s = (Raise IndexError, s) /\
  record_outcome k s = (Raise IndexError, s) /\
  current_participant s = (Raise IndexError, s) /\
  (_stopped s = false ->
   __next__ draws s = (Raise IndexError, set_index (_index s + 1) s)).
Proof.
  intros Hnil.
  assert (forall s', _to_poll s' = [] -> cursor s' = None) as Hcur.
  { intros s' H. unfold cursor. rewrite H. apply getitem_nil. }
  split; [by apply shuffle_unloaded|].
  split; [unfold __iter__, bind at 1; by rewrite shuffle_unloaded|].
  split; [by apply record_outcome_None, Hcur|].
  split.
  { unfold current_participant, bind at 1.
    by rewrite to_poll_at_index_None by by apply Hcur. }
  intros Hst. unfold __next__, bind at 1, get. rewrite Hst.
  unfold bind at 1, modify at 1. unfold bind at 1.
  rewrite reshuffle_due_eq. simpl. rewrite Hnil. simpl.
  case_bool_decide.
  - unfold bind at 1. unfold bind at 1. by rewrite shuffle_unloaded.
  - by rewrite Hcur.
Qed.

(** ** Loading more than once *)

Lemma roster_appended ps s :
  (forall r, r ∈ _participants s -> (r < length (heap s))%nat) ->
  roster (appended ps s) = roster s ++ ps.
Proof.
  intros Hlive. unfold roster, deref. simpl. rewrite fmap_app. f_equal.
  - apply list_fmap_ext. intros i r Hr.
    apply lookup_total_app_l. apply Hlive. by eapply list_elem_of_lookup_2.
  - apply list_eq. intros i. rewrite list_lookup_fmap.
    destruct (decide (i < length ps)%nat) as [Hi|Hi].
    + rewrite lookup_seq_lt by done. simpl.
      rewrite lookup_total_app_r by lia.
      replace (length (heap s) + i - length (heap s))%nat with i by lia.
      destruct (lookup_lt_is_Some_2 ps i Hi) as [x Hx].
      by rewrite Hx, (list_lookup_total_correct _ _ _ Hx).
    + rewrite lookup_seq_ge, lookup_ge_None_2 by lia. done.
Qed.

Lemma open_on_any int lines ps s :
  parsed int lines ps -> _participants s <> [] \/ ps <> [] ->
  open int lines s
  = (Return tt,
     set_to_poll (_participants s ++ seq (length (heap s)) (length ps))
       (appended ps s)).
Proof.
  intros Hps Hne. unfold open, bind at 1.
  rewrite (open_lines_Return int lines ps) by done.
  unfold bind, get. simpl. rewrite bool_decide_eq_false_2; [done|].
  rewrite length_app, length_seq.
  destruct Hne as [Hne|Hne].
  - destruct (_participants s); simpl; [done|lia].
  - destruct ps; simpl; [done|lia].
Qed.

(** X7.  [open] adds to what is loaded.  On a poller that already has a
    roster it returns whatever the file holds, even nothing; the new
    participants come after the old ones, which keep their counters;
    [_to_poll] is set back to the order of the roster, and the cursor, the
    floor, the stop flag and the total stay as they were.  So opening the
    same file twice lists every participant twice. *)
Theorem open_appends (int : string -> option Z) (lines : list string)
    (ps : list Participant.t) (s : t) :
  parsed int lines ps -> loaded s ->
  exists s',
    open int lines s = (Return tt, s') /\
    roster s' = roster s ++ ps /\
    _to_poll s' = _participants s' /\
    _index s' = _index s /\ _last_polled s' = _last_polled s /\
    _stopped s' = _stopped s /\ _total_polled s' = _total_polled s.
Proof.
  intros Hps Hl. eexists. split.
  - apply open_on_any; [done|]. left. apply Hl.
  - split; [|done]. apply (roster_appended ps s), Hl.
Qed.

(** X8.  A failed [open] is not undone.  When a line is malformed, the
    participants of the lines before it stay in the roster although
    [_to_poll] is left empty; a second [open] on the same poller then adds
    its participants after them, and does not raise even if it reads
    none, provided the first attempt had read some. *)
Theorem open_failure_keeps_records (int : string -> option Z) (filename : string)
    (l1 l2 : list string) (line : string) (ps : list Participant.t) :
  parsed int l1 ps -> line <> EmptyString -> malformed int line ->
  exists s1,
    open int (l1 ++ line :: l2) (__init__ filename)
      = (Raise (ValueError (malformed_message filename line)), s1) /\
    roster s1 = ps /\ _to_poll s1 = [] /\
    (forall lines' ps', parsed int lines' ps' -> ps <> [] \/ ps' <> [] ->
       exists s2, open int lines' s1 = (Return tt, s2) /\ roster s2 = ps ++ ps').
Proof.
  intros Hps Hne Hbad%parse_line_None.
  exists (appended ps (__init__ filename)).
  split; [by apply open_malformed|].
  assert (roster (appended ps (__init__ filename)) = ps) as Hroster.
  { rewrite roster_appended; [done|]. by intros r ?%elem_of_nil. }
  split; [done|]. split; [done|].
  intros lines' ps' Hps' Hsome. eexists. split.
  - apply open_on_any; [done|]. destruct Hsome as [H|H]; [left|by right].
    simpl. by destruct ps.
  - change (roster (appended ps' (appended ps (__init__ filename))) = ps ++ ps').
    rewrite roster_appended, Hroster; [done|].
    simpl. intros r Hr. apply elem_of_seq in Hr. lia.
Qed.

(** ** Stopping *)

Lemma stopped_nexts ds s :
  _stopped s = true -> session (Next <$> ds) s = s.
Proof.
  intros Hst. induction ds as [|d ds IH]; simpl; [done|].
  by rewrite next_stopped.
Qed.

(** X9.  After [stop] no [__next__] returns or changes anything, however
    often it is called; the outcome methods go on working as before, so
    that recording after [stop] is recording before it; and [__iter__]
    lifts the stop: the [__next__] after it returns a name. *)
Theorem stop_until_iter (s : t) (ds : list (list nat)) (d d' : list nat) (k : kind) :
  loaded s -> -1 <= _index s ->
  session (Next <$> ds) (exec Stop s) = exec Stop s /\
  __next__ d (exec Stop s) = (Raise StopIteration, exec Stop s) /\
  exec (Outcome k) (exec Stop s) = exec Stop (exec (Outcome k) s) /\
  (record_outcome k (exec Stop s)).1 = (record_outcome k s).1 /\
  exists nm s', (__iter__ d ;; __next__ d') (exec Stop s) = (Return nm, s').
Proof.
  intros Hl Hidx. split; [by apply stopped_nexts|].
  split; [by apply next_stopped|].
  assert (cursor (exec Stop s) = cursor s) as Hcur by done.
  split; [|split].
  - rewrite !exec_Outcome, Hcur. by destruct (cursor s).
  - destruct (cursor s) as [r|] eqn:Hc.
    + by rewrite (record_outcome_Some k _ r), (record_outcome_Some k s r).
    + by rewrite !record_outcome_None.
  - assert (loaded (exec Stop s)) as Hls by by apply loaded_set_stopped.
    destruct (shuffled_head d (exec Stop s) (loaded_to_poll_ne _ Hls)) as (r & l & Hs).
    unfold bind. rewrite (iter_Return d _ r l Hs).
    assert (loaded (set_stopped false
                      (set_index (-1)
                         (set_last_polled (polled_of (exec Stop s) r)
                            (set_to_poll (r :: l) (exec Stop s)))))) as Hl'
      by by apply loaded_set_stopped, loaded_set_index, (loaded_shuffled d).
    destruct (fun H => next_cases d' _ H Hl')
      as [(r' & l' & _ & _ & ->)|(r' & _ & _ & ->)];
      [done|simpl; lia|by eauto..].
Qed.

(** ** The least polled comes first *)

(** One round from a state whose floor is below every counter: [__next__]
    returns a participant of least [polled], the outcome is recorded for
    it, and the floor is below every counter again. *)
Lemma round_fair draws k s :
  floor_below s ->
  exists nm s1 r,
    __next__ draws s = (Return nm, s1) /\
    cursor s1 = Some r /\ r ∈ _participants s /\
    heap s1 = heap s /\ _participants s1 = _participants s /\
    loaded s1 /\
    (forall x, x ∈ _participants s -> polled_of s r <= polled_of s x) /\
    record_outcome k s1 = (Return tt, recorded k r s1) /\
    floor_below (recorded k r s1).
Proof.
  intros (Hl & Hst & Hidx & Hfloor).
  destruct (next_cases draws s Hst Hl Hidx)
    as [(r & l & _ & Hs & Heq)|(r & Hdue & Hr & Heq)].
  - assert (r ∈ _to_poll s) as Hin.
    { rewrite <- (shuffled_Permutation draws s), Hs. by left. }
    pose proof (loaded_live s r Hl Hin) as Hlive.
    assert (forall x, x ∈ _participants s -> polled_of s r <= polled_of s x) as Hleast.
    { intros x Hx. apply (shuffled_head_least draws s r l x Hs).
      by apply (loaded_elem_of s x Hl). }
    assert (loaded (set_index 0 (set_last_polled (polled_of s r)
                                   (set_to_poll (r :: l) s)))) as Hl1
      by by apply loaded_set_index, (loaded_shuffled draws).
    eexists _, _, r. split; [exact Heq|]. split; [done|].
    split; [by apply (loaded_elem_of s r Hl)|].
    do 3 (split; [done|]). split; [done|].
    split; [by apply record_outcome_Some|].
    split; [by apply loaded_recorded|]. split; [done|]. split; [simpl; lia|].
    intros x Hx. simpl in Hx. rewrite polled_of_recorded by done.
    change (polled_of (set_index _ _)) with (polled_of s). simpl.
    pose proof (Hleast x Hx). case_decide; [subst x|]; lia.
  - assert (r ∈ _to_poll s) as Hin by by eapply list_elem_of_lookup_2.
    pose proof (loaded_live s r Hl Hin) as Hlive.
    assert (cursor (set_index (_index s + 1) s) = Some r) as Hcur.
    { unfold cursor. simpl. by rewrite getitem_nonneg by lia. }
    assert (polled_of s r <= _last_polled s) as Hle.
    { rewrite reshuffle_due_eq in Hdue. simpl in Hdue.
      case_bool_decide; [done|]. rewrite Hcur in Hdue.
      change (polled_of (set_index _ _)) with (polled_of s) in Hdue.
      case_bool_decide; [done|lia]. }
    eexists _, _, r. split; [exact Heq|]. split; [done|].
    split; [by apply (loaded_elem_of s r Hl)|].
    do 3 (split; [done|]).
    split; [intros x Hx; specialize (Hfloor x Hx); lia|].
    split; [by apply record_outcome_Some|].
    split; [by apply loaded_recorded|]. split; [done|]. split; [simpl; lia|].
    intros x Hx. simpl in Hx. rewrite polled_of_recorded by done.
    change (polled_of (set_index _ _)) with (polled_of s). simpl.
    specialize (Hfloor x Hx). case_decide; [subst x|]; lia.
Qed.

(** [__iter__] puts the floor below every counter, whatever the roster. *)
Lemma iter_floor_below draws s :
  loaded s ->
  exists s1, __iter__ draws s = (Return tt, s1) /\
    heap s1 = heap s /\ _participants s1 = _participants s /\ floor_below s1.
Proof.
  intros Hl.
  destruct (shuffled_head draws s (loaded_to_poll_ne s Hl)) as (r & l & Hs).
  eexists. split; [by apply iter_Return|]. do 2 (split; [done|]).
  split; [by apply loaded_set_stopped, loaded_set_index, (loaded_shuffled draws)|].
  split; [done|]. split; [simpl; lia|].
  intros x Hx. simpl in *. apply (shuffled_head_least draws s r l x Hs).
  by apply (loaded_elem_of s x Hl).
Qed.

Lemma rounds_cons draws k rest s nm s1 s2 :
  __next__ draws s = (Return nm, s1) ->
  record_outcome k s1 = (Return tt, s2) ->
  rounds ((draws, k) :: rest) s
  = match rounds rest s2 with
    | (Return trace, s') => (Return (s1 :: s2 :: trace), s')
    | (Raise e, s') => (Raise e, s')
    end.
Proof.
  intros Hn Hr. simpl. unfold bind at 1. rewrite Hn.
  unfold bind at 1, get at 1. unfold bind at 1. rewrite Hr.
  unfold bind at 1, get at 1. unfold bind at 1.
  by destruct (rounds rest s2) as [[trace|e] s'].
Qed.

Lemma least_same_heap s s1 r :
  heap s1 = heap s -> _participants s1 = _participants s -> cursor s1 = Some r ->
  (forall x, x ∈ _participants s -> polled_of s r <= polled_of s x) ->
  least_under_cursor s1.
Proof.
  intros Hh Hp Hc Hleast. exists r. split; [done|]. rewrite Hp.
  replace (polled_of s1) with (polled_of s); [done|].
  unfold polled_of, deref. by rewrite Hh.
Qed.

(** A session of rounds from a floor below every counter. *)
Lemma rounds_fair steps s :
  floor_below s ->
  exists trace s',
    rounds steps s = (Return trace, s') /\
    length trace = (2 * length steps)%nat /\
    floor_below s' /\
    _participants s' = _participants s /\
    sum_polled s' = sum_polled s + Z.of_nat (length steps) /\
    (forall x, polled_of s x <= polled_of s' x) /\
    (forall (i : nat) s1, trace !! (2 * i)%nat = Some s1 -> least_under_cursor s1).
Proof.
  revert s. induction steps as [|[draws k] steps IH]; intros s Hinv.
  - exists [], s. split; [done|]. split; [done|]. split; [done|]. split; [done|].
    split; [simpl; lia|]. split; [intros; lia|].
    intros i s1 Hi. by rewrite lookup_nil in Hi.
  - destruct (round_fair draws k s Hinv)
      as (nm & s1 & r & Hn & Hc & Hr & Hh & Hp & Hl1 & Hleast & Hrec & Hinv2).
    destruct (IH _ Hinv2)
      as (trace & s' & Hrun & Hlen & Hinv' & Hp' & Hsum & Hmono & Htrace).
    exists (s1 :: recorded k r s1 :: trace), s'.
    split; [by rewrite (rounds_cons draws k steps s nm s1 _ Hn Hrec), Hrun|].
    split; [simpl; lia|]. split; [done|]. split; [by rewrite Hp'|]. split; [|split].
    + rewrite Hsum, sum_polled_recorded, (sum_polled_same_heap s s1) by done.
      rewrite length_cons. lia.
    + intros x. specialize (Hmono x).
      rewrite polled_of_recorded in Hmono by by eapply loaded_cursor_live.
      replace (polled_of s1) with (polled_of s) in Hmono
        by (unfold polled_of, deref; by rewrite Hh).
      case_decide; [subst x|]; lia.
    + intros [|i] s1' Hi.
      * simpl in Hi. simplify_eq. by eapply least_same_heap.
      * apply (Htrace i). replace (2 * S i)%nat with (S (S (2 * i))) in Hi by lia.
        done.
Qed.

(** X10.  The least polled comes first.  On any loaded roster, in a
    session started by [__iter__], every call returns and each [__next__]
    leaves the cursor on a participant whose [polled] is the least of the
    whole roster at that moment, whatever the draws and the outcomes. *)
Theorem least_polled_first (draws : list nat) (steps : list (list nat * kind)) (s : t) :
  loaded s ->
  exists s0 trace s',
    __iter__ draws s = (Return tt, s0) /\
    rounds steps s0 = (Return trace, s') /\
    length trace = (2 * length steps)%nat /\
    forall (i : nat) s1, trace !! (2 * i)%nat = Some s1 -> least_under_cursor s1.
Proof.
  intros Hl. destruct (iter_floor_below draws s Hl) as (s0 & Hiter & _ & _ & Hinv).
  destruct (rounds_fair steps s0 Hinv)
    as (trace & s' & Hrun & Hlen & _ & _ & _ & _ & Htrace).
  by exists s0, trace, s'.
Qed.

(** ** Sums of counters *)

Lemma sum_ge (l : list Z) (a : Z) :
  (forall v, v ∈ l -> a <= v) -> Z.of_nat (length l) * a <= foldr Z.add 0 l.
Proof.
  induction l as [|v l IH]; intros Hall; simpl; [lia|].
  pose proof (Hall v (list_elem_of_here _ _)).
  specialize (IH (fun w Hw => Hall w (list_elem_of_further _ _ _ Hw))). lia.
Qed.

Lemma sum_le (l : list Z) (b : Z) :
  (forall v, v ∈ l -> v <= b) -> foldr Z.add 0 l <= Z.of_nat (length l) * b.
Proof.
  induction l as [|v l IH]; intros Hall; simpl; [lia|].
  pose proof (Hall v (list_elem_of_here _ _)).
  specialize (IH (fun w Hw => Hall w (list_elem_of_further _ _ _ Hw))). lia.
Qed.

Lemma sum_le_with (l : list Z) (a b : Z) :
  a ∈ l -> (forall v, v ∈ l -> v <= b) ->
  foldr Z.add 0 l <= a + (Z.of_nat (length l) - 1) * b.
Proof.
  induction l as [|v l IH]; intros Ha Hall; [by apply elem_of_nil in Ha|].
  pose proof (Hall v (list_elem_of_here _ _)) as Hv.
  assert (forall w, w ∈ l -> w <= b) as Hall'
    by (intros w Hw; apply Hall; by right).
  apply elem_of_cons in Ha as [->|Ha]; simpl.
  - pose proof (sum_le l b Hall'). lia.
  - specialize (IH Ha Hall'). lia.
Qed.

Lemma sum_eq_upper (l : list Z) (b : Z) :
  (forall v, v ∈ l -> v <= b) -> foldr Z.add 0 l = Z.of_nat (length l) * b ->
  forall v, v ∈ l -> v = b.
Proof.
  induction l as [|w l IH]; intros Hall Hsum v Hv; [by apply elem_of_nil in Hv|].
  pose proof (Hall w (list_elem_of_here _ _)) as Hw.
  assert (forall u, u ∈ l -> u <= b) as Hall'
    by (intros u Hu; apply Hall; by right).
  pose proof (sum_le l b Hall') as Hle. simpl in Hsum.
  apply elem_of_cons in Hv as [->|Hv]; [lia|].
  apply IH; [done|lia|done].
Qed.

Lemma sum_eq_lower (l : list Z) (a : Z) :
  (forall v, v ∈ l -> a <= v) -> foldr Z.add 0 l = Z.of_nat (length l) * a ->
  forall v, v ∈ l -> v = a.
Proof.
  induction l as [|w l IH]; intros Hall Hsum v Hv; [by apply elem_of_nil in Hv|].
  pose proof (Hall w (list_elem_of_here _ _)) as Hw.
  assert (forall u, u ∈ l -> a <= u) as Hall'
    by (intros u Hu; apply Hall; by right).
  pose proof (sum_ge l a Hall') as Hge. simpl in Hsum.
  apply elem_of_cons in Hv as [->|Hv]; [lia|].
  apply IH; [done|lia|done].
Qed.

Lemma polled_counts_length s : length (polled_counts s) = length (_participants s).
Proof. unfold polled_counts. by rewrite length_fmap. Qed.

Lemma polled_counts_elem s x : x ∈ _participants s -> polled_of s x ∈ polled_counts s.
Proof. intros Hx. apply elem_of_polled_counts. by exists x. Qed.

(** While the sum leaves room below [B], nobody goes above [B]. *)
Lemma rounds_bound steps s (B : Z) trace s' :
  floor_below s ->
  (forall x, x ∈ _participants s -> polled_of s x <= B) ->
  sum_polled s + Z.of_nat (length steps)
    <= Z.of_nat (length (_participants s)) * B ->
  rounds steps s = (Return trace, s') ->
  forall x, x ∈ _participants s -> polled_of s' x <= B.
Proof.
  revert s trace. induction steps as [|[draws k] steps IH];
    intros s trace Hinv Hall Hroom Hrun x Hx.
  - unfold rounds, ret in Hrun. simplify_eq. by apply Hall.
  - destruct (round_fair draws k s Hinv)
      as (nm & s1 & r & Hn & Hc & Hr & Hh & Hp & Hl1 & Hleast & Hrec & Hinv2).
    rewrite (rounds_cons draws k steps s nm s1 _ Hn Hrec) in Hrun.
    destruct (rounds steps (recorded k r s1)) as [[tr|e] s''] eqn:Hrest; [|done].
    simplify_eq.
    assert (polled_of s1 = polled_of s) as Hpo
      by (unfold polled_of, deref; by rewrite Hh).
    assert (polled_of s r < B) as Hlt.
    { destruct (decide (polled_of s r < B)) as [|Hge]; [done|exfalso].
      pose proof (sum_ge (polled_counts s) B) as Hsum.
      rewrite polled_counts_length in Hsum. unfold sum_polled in Hroom.
      rewrite length_cons in Hroom.
      assert (forall v, v ∈ polled_counts s -> B <= v) as Hvs.
      { intros v (y & Hy & ->)%elem_of_polled_counts. specialize (Hleast y Hy). lia. }
      specialize (Hsum Hvs). lia. }
    apply (IH (recorded k r s1) tr); try done.
    + intros y Hy. simpl in Hy. rewrite Hp in Hy.
      rewrite polled_of_recorded, Hpo by by eapply loaded_cursor_live.
      specialize (Hall y Hy). case_decide; [subst y|]; lia.
    + rewrite sum_polled_recorded, (sum_polled_same_heap s s1) by done.
      simpl. rewrite Hp. rewrite length_cons in Hroom. lia.
    + simpl. by rewrite Hp.
Qed.

Lemma roster_elem s p :
  p ∈ roster s <-> exists x, x ∈ _participants s /\ p = deref s x.
Proof.
  unfold roster. rewrite list_elem_of_fmap.
  split; [intros (x & -> & Hx)|intros (x & Hx & ->)]; by exists x.
Qed.

(** X11.  Catching up.  On any loaded roster, in a session started by
    [__iter__], nobody is polled beyond the largest [polled] the roster was
    loaded with as long as somebody is below it: for as many rounds as the
    counters are short of that largest value in total, no counter exceeds
    it, and after exactly that many rounds every counter equals it. *)
Theorem catching_up (draws : list nat) (steps : list (list nat * kind)) (s : t) :
  loaded s ->
  let B := maximum (polled_counts s) in
  let short := Z.of_nat (length (_participants s)) * B - sum_polled s in
  Z.of_nat (length steps) <= short ->
  exists s0 trace s',
    __iter__ draws s = (Return tt, s0) /\
    rounds steps s0 = (Return trace, s') /\
    (forall p, p ∈ roster s' -> Participant.polled p <= B) /\
    (Z.of_nat (length steps) = short ->
     forall p, p ∈ roster s' -> Participant.polled p = B).
Proof.
  intros Hl B short Hroom.
  destruct (iter_floor_below draws s Hl) as (s0 & Hiter & Hh & Hp & Hinv).
  destruct (rounds_fair steps s0 Hinv)
    as (trace & s' & Hrun & _ & _ & Hp' & Hsum & _ & _).
  assert (polled_of s0 = polled_of s) as Hpo
    by (unfold polled_of, deref; by rewrite Hh).
  assert (sum_polled s0 = sum_polled s) as Hsum0 by by apply sum_polled_same_heap.
  assert (forall x, x ∈ _participants s0 -> polled_of s' x <= B) as Hbound.
  { apply (rounds_bound steps s0 B trace s'); try done.
    - intros x Hx. rewrite Hpo. apply maximum_ge, polled_counts_elem.
      by rewrite <- Hp.
    - rewrite Hsum0, Hp. unfold short in Hroom. lia. }
  exists s0, trace, s'. do 2 (split; [done|]). split.
  - intros p (x & Hx & ->)%roster_elem. apply Hbound. by rewrite <- Hp'.
  - intros Hfull p (x & Hx & ->)%roster_elem.
    apply (sum_eq_upper (polled_counts s') B).
    + intros v (y & Hy & ->)%elem_of_polled_counts. apply Hbound. by rewrite <- Hp'.
    + rewrite polled_counts_length, Hp', Hp.
      fold (sum_polled s'). rewrite Hsum, Hsum0. unfold short in Hfull. lia.
    + by apply polled_counts_elem.
Qed.

(** A window of one around the counters is kept by rounds that poll the
    least first. *)
Lemma rounds_within steps s trace s' :
  floor_below s -> (exists m, within s m) ->
  rounds steps s = (Return trace, s') -> exists m, within s' m.
Proof.
  revert s trace. induction steps as [|[draws k] steps IH];
    intros s trace Hinv Hw Hrun.
  - unfold rounds, ret in Hrun. by simplify_eq.
  - destruct (round_fair draws k s Hinv)
      as (nm & s1 & r & Hn & Hc & Hr & Hh & Hp & Hl1 & Hleast & Hrec & Hinv2).
    rewrite (rounds_cons draws k steps s nm s1 _ Hn Hrec) in Hrun.
    destruct (rounds steps (recorded k r s1)) as [[tr|e] s''] eqn:Hrest; [|done].
    simplify_eq. apply (IH (recorded k r s1) tr); [done| |done].
    destruct Hw as [m Hm]. exists (polled_of s r).
    assert (polled_of s1 = polled_of s) as Hpo
      by (unfold polled_of, deref; by rewrite Hh).
    intros y Hy. simpl in Hy. rewrite Hp in Hy.
    rewrite polled_of_recorded, Hpo by by eapply loaded_cursor_live.
    pose proof (Hm r Hr). pose proof (Hm y Hy). specialize (Hleast y Hy).
    case_decide; [subst y|]; lia.
Qed.

Lemma sum_const (l : list Z) (k : Z) :
  (forall v, v ∈ l -> v = k) -> foldr Z.add 0 l = Z.of_nat (length l) * k.
Proof.
  induction l as [|v l IH]; intros Hall; simpl; [lia|].
  rewrite (Hall v (list_elem_of_here _ _)).
  rewrite IH by (intros w Hw; apply Hall; by right). lia.
Qed.

(** X12.  Even shares.  A roster of [n] participants all loaded with
    [polled = k], in a session started by [__iter__]: after [m] rounds each
    participant has been polled [m / n] or [m / n + 1] times more, and
    exactly [m / n] times more when [n] divides [m]; so every full cycle of
    [n] rounds polls everybody once. *)
Theorem even_shares (draws : list nat) (steps : list (list nat * kind))
    (s : t) (k : Z) :
  loaded s ->
  (forall p, p ∈ roster s -> Participant.polled p = k) ->
  let n := Z.of_nat (length (_participants s)) in
  let m := Z.of_nat (length steps) in
  exists s0 trace s',
    __iter__ draws s = (Return tt, s0) /\
    rounds steps s0 = (Return trace, s') /\
    (forall p, p ∈ roster s' ->
       k + m / n <= Participant.polled p <= k + m / n + 1) /\
    (m mod n = 0 -> forall p, p ∈ roster s' -> Participant.polled p = k + m / n).
Proof.
  intros Hl Hk n m.
  destruct (iter_floor_below draws s Hl) as (s0 & Hiter & Hh & Hp & Hinv).
  destruct (rounds_fair steps s0 Hinv)
    as (trace & s' & Hrun & _ & Hinv' & Hp' & Hsum & _ & _).
  assert (polled_of s0 = polled_of s) as Hpo
    by (unfold polled_of, deref; by rewrite Hh).
  assert (forall x, x ∈ _participants s -> polled_of s x = k) as Hk'.
  { intros x Hx. apply Hk, roster_elem. by exists x. }
  assert (sum_polled s' = n * k + m) as Hsum'.
  { rewrite Hsum, (sum_polled_same_heap s s0) by done.
    unfold sum_polled. rewrite (sum_const _ k), polled_counts_length; [done|].
    intros v (x & Hx & ->)%elem_of_polled_counts. by apply Hk'. }
  destruct (rounds_within steps s0 trace s' Hinv) as [m' Hm']; [|done|].
  { exists k. intros x Hx. rewrite Hpo, Hk' by by rewrite <- Hp. lia. }
  pose proof (spread_within s' (within_spread s' m' Hm')) as Hw.
  set (a := minimum (polled_counts s')) in *.
  assert (length (polled_counts s') = length (_participants s)) as Hlen
    by by rewrite polled_counts_length, Hp', Hp.
  assert (polled_counts s' <> []) as Hne.
  { intros Hnil. rewrite Hnil in Hlen. destruct Hl as (Hne & _).
    by destruct (_participants s). }
  assert (0 < n) as Hn.
  { unfold n. destruct Hl as (Hne' & _). destruct (_participants s); simpl; [done|lia]. }
  assert (forall v, v ∈ polled_counts s' -> a <= v <= a + 1) as Hwin.
  { intros v (x & Hx & ->)%elem_of_polled_counts. by apply Hw. }
  pose proof (sum_ge (polled_counts s') a (fun v Hv => proj1 (Hwin v Hv))) as Hlow.
  pose proof (sum_le_with (polled_counts s') a (a + 1) (minimum_elem_of _ Hne)
                (fun v Hv => proj2 (Hwin v Hv))) as Hup.
  fold (sum_polled s') in Hlow, Hup. rewrite Hlen, Hsum' in Hlow, Hup.
  fold n in Hlow, Hup.
  assert (a = k + m / n) as Ha.
  { assert (a - k = m / n); [|lia].
    apply (Z.div_unique m n (a - k) (m - n * (a - k))); lia. }
  exists s0, trace, s'. do 2 (split; [done|]). split.
  - intros p (x & Hx & ->)%roster_elem. rewrite <- Ha. apply Hw, Hx.
  - intros Hdiv p (x & Hx & ->)%roster_elem. rewrite <- Ha.
    apply (sum_eq_lower (polled_counts s') a (fun v Hv => proj1 (Hwin v Hv))).
    + fold (sum_polled s'). rewrite Hlen, Hsum'. fold n.
      pose proof (Z.div_mod m n ltac:(lia)). nia.
    + by apply polled_counts_elem.
Qed.

(** ** Through the opener of the tests *)

Lemma append_nil_r (x : string) : (x ++ EmptyString)%string = x.
Proof. induction x as [|c x IH]; [done|]. by rewrite append_String, IH. Qed.

Lemma append_assoc (x y z : string) : ((x ++ y) ++ z)%string = (x ++ (y ++ z))%string.
Proof. induction x as [|c x IH]; [done|]. by rewrite !append_String, IH. Qed.

Lemma join_empty_cons x xs :
  join EmptyString (x :: xs) = (x ++ join EmptyString xs)%string.
Proof. destruct xs; simpl; [by rewrite append_nil_r|done]. Qed.

(** Lines written with a newline each and joined split back into the
    lines, followed by one empty string. *)
Lemma split_written (ls : list string) :
  Forall (fun l => ~ has_char (ascii_of_nat 10) l) ls ->
  split (ascii_of_nat 10) (join EmptyString ((fun l => l ++ newline)%string <$> ls))
  = ls ++ [EmptyString].
Proof.
  induction 1 as [|l ls Hl Hls IH]; [done|].
  rewrite fmap_cons, join_empty_cons. unfold newline at 1.
  rewrite append_assoc. change (String (ascii_of_nat 10) EmptyString ++ ?x)%string
    with (String (ascii_of_nat 10) x).
  rewrite split_app by done. by rewrite IH.
Qed.

Lemma foldl_write o chunks :
  foldl (fun o chunk => Opener.write chunk o) o chunks
  = Opener.mk (Opener.text o) (Opener.to_write o ++ chunks) (Opener.iter_called o).
Proof.
  revert o. induction chunks as [|c chunks IH]; intros o; simpl.
  - rewrite app_nil_r. by destruct o.
  - rewrite IH. simpl. by rewrite <- (assoc_L (++)).
Qed.

Lemma save_through_eq o s :
  _participants s <> [] ->
  save_through o s
  = Opener.mk
      (join EmptyString
         (Opener.to_write o
          ++ ((fun p => Participant.__str__ p ++ newline)%string <$> roster s)))
      (Opener.to_write o
       ++ ((fun p => Participant.__str__ p ++ newline)%string <$> roster s))
      (Opener.iter_called o).
Proof.
  intros Hne. unfold save_through. rewrite save_eq. simpl.
  rewrite foldl_write, line_of_roster. unfold Opener.__exit__. simpl.
  rewrite bool_decide_eq_true_2; [done|].
  intros [_ H]%app_eq_nil. apply fmap_nil_inv in H.
  unfold roster in H. by apply fmap_nil_inv in H.
Qed.

Lemma split_field_chars sep c s f :
  f ∈ split sep s -> has_char c f -> has_char c s.
Proof.
  revert f. induction s as [|a s IH]; intros f Hf Hc; simpl in Hf.
  - apply list_elem_of_singleton in Hf as ->. by apply has_char_empty in Hc.
  - apply has_char_String. case_bool_decide as Ha.
    + apply elem_of_cons in Hf as [->|Hf]; [by apply has_char_empty in Hc|].
      right. by apply (IH f).
    + destruct (split sep s) as [|h t] eqn:Hs.
      * apply list_elem_of_singleton in Hf as ->.
        apply has_char_String in Hc as [->|Hc]; [by left|].
        by apply has_char_empty in Hc.
      * apply elem_of_cons in Hf as [->|Hf].
        -- apply has_char_String in Hc as [->|Hc]; [by left|].
           right. apply (IH h); [by left|done].
        -- right. apply (IH f); [by right|done].
Qed.

Lemma parse_line_name_chars int line p c :
  parse_line int line = Some p -> has_char c (Participant.name p) -> has_char c line.
Proof.
  unfold parse_line. intros Hp Hc.
  destruct (split "," line) as [|f0 [|f1 [|f2 [|f3 [|f4 [|f5 fs]]]]]] eqn:Hs; try done.
  destruct (int f1), (int f2), (int f3), (int f4); try done.
  simplify_eq. simpl in Hc. apply (split_field_chars "," c line f0); [|done].
  rewrite Hs. by left.
Qed.

Lemma str_line_no_newline (p : Participant.t) :
  ~ has_char (ascii_of_nat 10) (Participant.name p) ->
  ~ has_char (ascii_of_nat 10) (Participant.__str__ p).
Proof.
  intros Hname. unfold Participant.__str__.
  change (join "," [Participant.name p; str (Participant.polled p);
                    str (Participant.correct p); str (Participant.attempted p);
                    str (Participant.excused p)])
    with (Participant.name p
          ++ String "," (str (Participant.polled p)
          ++ String "," (str (Participant.correct p)
          ++ String "," (str (Participant.attempted p)
          ++ String "," (str (Participant.excused p))))))%string.
  rewrite !has_char_app, !has_char_String, !has_char_app, !has_char_String,
    !has_char_app, !has_char_String, !has_char_app, !has_char_String.
  pose proof (str_no_newline (Participant.polled p)).
  pose proof (str_no_newline (Participant.correct p)).
  pose proof (str_no_newline (Participant.attempted p)).
  pose proof (str_no_newline (Participant.excused p)).
  intros [?|[?|[?|[?|[?|[?|[?|[?|?]]]]]]]]; done.
Qed.

(** What was written for [ps] through the opener loads [ps] again. *)
Lemma reload_written int filename o ps :
  (forall n, int (str n) = Some n) -> ps <> [] ->
  Forall (fun p => ~ has_char "," (Participant.name p)) ps ->
  Forall (fun p => ~ has_char (ascii_of_nat 10) (Participant.name p)) ps ->
  Opener.text o
    = join EmptyString ((fun p => Participant.__str__ p ++ newline)%string <$> ps) ->
  (open_through int o (__init__ filename)).1 = (Return tt, opened filename ps).
Proof.
  intros Hint Hne Hcomma Hnl Htext.
  assert (split (ascii_of_nat 10) (Opener.text o)
          = (Participant.__str__ <$> ps) ++ [EmptyString]) as Hsplit.
  { rewrite Htext, (list_fmap_compose Participant.__str__ (fun l => l ++ newline)%string).
    apply split_written. apply Forall_fmap.
    eapply Forall_impl; [exact Hnl|]. intros p. apply str_line_no_newline. }
  unfold open_through, Opener.__iter__. simpl.
  rewrite bool_decide_eq_false_2.
  2:{ intros Hempty. rewrite Hempty in Hsplit. simpl in Hsplit.
      destruct ps; [done|]. by destruct ps. }
  rewrite Hsplit. rewrite (open_parsed int filename _ ps).
  - by rewrite bool_decide_eq_false_2.
  - unfold parsed. rewrite filter_app.
    rewrite (filter_cons_False _ EmptyString) by (intros H; by apply H).
    rewrite filter_nil, app_nil_r. by apply parsed_str_lines.
Qed.

(** The roster a poller got through the opener of the tests has names
    free of commas and newlines, and keeps them. *)
Lemma mock_session_names int mock_text filename s0 cs :
  open int (Opener.__iter__ (Opener.mock_open mock_text)).1 (__init__ filename)
    = (Return tt, s0) ->
  roster (session cs s0) <> [] /\
  Forall (fun p => ~ has_char "," (Participant.name p)) (roster (session cs s0)) /\
  Forall (fun p => ~ has_char (ascii_of_nat 10) (Participant.name p))
    (roster (session cs s0)).
Proof.
  intros Hopen.
  pose proof (fun p => session_opened_names int filename _ s0 cs p Hopen) as Hcomma.
  destruct (open_Return_inv _ _ _ _ Hopen) as (ps & Hne & Hps & ->).
  destruct (session_inv cs (opened filename ps) (opened_loaded filename ps Hne))
    as (Hl & _ & _); [simpl; lia|].
  split; [|split].
  - unfold roster. intros H%fmap_nil_inv. by destruct Hl as (Hne' & _).
  - apply Forall_forall. intros p Hp. by apply Hcomma.
  - apply Forall_forall. intros p Hp Hc.
    assert (Participant.name p ∈ Participant.name <$> ps) as Hin.
    { rewrite <- (roster_opened filename ps).
      rewrite <- (session_names cs (opened filename ps));
        [|by apply opened_loaded|simpl; lia].
      apply list_elem_of_fmap. by exists p. }
    apply list_elem_of_fmap in Hin as (q & Hq & Hin). rewrite Hq in Hc.
    apply list_elem_of_lookup in Hin as [i Hi].
    destruct (Forall2_lookup_r _ _ _ _ _ Hps Hi) as (line & Hline & Hparse).
    apply list_elem_of_lookup_2, list_elem_of_filter in Hline as [_ Hline].
    pose proof (parse_line_name_chars int line q _ Hparse Hc) as Hbad.
    simpl in Hline. case_bool_decide; [by apply elem_of_nil in Hline|].
    pose proof (split_fields (ascii_of_nat 10) mock_text) as Hf.
    rewrite Forall_forall in Hf. by apply (Hf line).
Qed.

Lemma exec_through_not_save c s o :
  is_save c = false -> exec_through c (s, o) = (exec c s, o).
Proof. by destruct c. Qed.

(** What a session leaves in the opener of the tests. *)
Lemma session_through_written cs s o :
  loaded s -> -1 <= _index s ->
  (session_through cs (s, o)).1 = session cs s /\
  Opener.to_write (session_through cs (s, o)).2
  = Opener.to_write o
    ++ ((fun p => Participant.__str__ p ++ newline)%string <$> saved cs s) /\
  (existsb is_save cs = true ->
   Opener.text (session_through cs (s, o)).2
   = join EmptyString (Opener.to_write (session_through cs (s, o)).2)) /\
  (existsb is_save cs = false -> (session_through cs (s, o)).2 = o).
Proof.
  revert s o. induction cs as [|c cs IH]; intros s o Hl Hidx.
  - simpl. by rewrite app_nil_r.
  - destruct (exec_inv c s Hl Hidx) as (Hl' & Hidx' & _).
    change (session_through (c :: cs) (s, o))
      with (session_through cs (exec_through c (s, o))).
    change (session (c :: cs) s) with (session cs (exec c s)).
    destruct (is_save c) eqn:Hc.
    + destruct c; try done.
      assert (_participants s <> []) as Hne by by destruct Hl.
      unfold exec_through. cbn [fst snd].
      pose proof (save_through_eq o s Hne) as Ho'.
      destruct (IH (exec Save s) (save_through o s) Hl' Hidx') as (Hs & Hw & Ht & Ho).
      split; [done|]. cbn [saved is_save existsb orb].
      split; [|split; [|done]].
      * rewrite Hw, Ho'. cbn [Opener.to_write]. by rewrite fmap_app, (assoc_L (++)).
      * intros _. destruct (existsb is_save cs) eqn:Hcs; [by apply Ht|].
        rewrite (Ho eq_refl), Ho'. done.
    + rewrite (exec_through_not_save c s o Hc).
      destruct (IH (exec c s) o Hl' Hidx') as (Hs & Hw & Ht & Ho).
      cbn [saved existsb]. rewrite Hc. by cbn [orb app].
Qed.

(** What [saved] lists was in the roster at some point of the session. *)
Lemma saved_elem cs s p :
  p ∈ saved cs s -> exists cs1, p ∈ roster (session cs1 s).
Proof.
  revert s. induction cs as [|c cs IH]; intros s; simpl.
  - by intros ?%elem_of_nil.
  - intros [Hp|Hp]%elem_of_app.
    + destruct (is_save c); [|by apply elem_of_nil in Hp]. by exists [].
    + destruct (IH _ Hp) as [cs1 Hcs1]. by exists (c :: cs1).
Qed.

Lemma saved_length cs s :
  loaded s -> -1 <= _index s ->
  length (saved cs s)
  = (length (filter (fun c => is_save c = true) cs) * length (roster s))%nat.
Proof.
  revert s. induction cs as [|c cs IH]; intros s Hl Hidx; [done|].
  destruct (exec_inv c s Hl Hidx) as (Hl' & Hidx' & Hp & _).
  cbn [saved]. rewrite length_app, (IH _ Hl' Hidx').
  assert (length (roster (exec c s)) = length (roster s)) as ->
    by (unfold roster; by rewrite !length_fmap, Hp).
  destruct (is_save c) eqn:Hc.
  - rewrite filter_cons_True by done. simpl. lia.
  - rewrite filter_cons_False by (by rewrite Hc). simpl. lia.
Qed.

(** X13.  Round trip through the opener of the tests.  A poller loads from
    a new opener, any calls but [save] follow, and [save] then writes
    through the same opener: the calls have left the opener as it was after
    loading, the text it holds after the [save] is the lines of the roster,
    and on a new poller that text loads a roster equal to the one saved,
    participant by participant and in the same order (when [int] reads the
    numerals [str] prints). *)
Theorem mock_round_trip (int : string -> option Z) (mock_text filename filename' : string)
    (s0 : t) (o1 : Opener.t) (cs : list call) :
  (forall n, int (str n) = Some n) ->
  open_through int (Opener.mock_open mock_text) (__init__ filename)
    = (Return tt, s0, o1) ->
  existsb is_save cs = false ->
  let s := (session_through cs (s0, o1)).1 in
  let o := save_through (session_through cs (s0, o1)).2 s in
  session_through cs (s0, o1) = (session cs s0, o1) /\
  Opener.text o
  = join EmptyString ((fun p => Participant.__str__ p ++ newline)%string <$> roster s) /\
  exists s',
    (open_through int o (__init__ filename')).1 = (Return tt, s') /\
    roster s' = roster s.
Proof.
  intros Hint Hopen Hcs. unfold open_through in Hopen at 1.
  injection Hopen as Hopen <-.
  destruct (mock_session_names int mock_text filename s0 cs Hopen)
    as (Hne & Hcomma & Hnl).
  destruct (open_Return_inv _ _ _ _ Hopen) as (ps & Hps & _ & Hs0).
  assert (loaded s0 /\ -1 <= _index s0) as [Hl Hidx].
  { rewrite Hs0. split; [by apply opened_loaded|simpl; lia]. }
  set (o1 := Opener.mk mock_text [] true).
  assert (session_through cs (s0, o1) = (session cs s0, o1)) as Hso.
  { destruct (session_through_written cs s0 o1 Hl Hidx) as (Hs & _ & _ & Ho).
    specialize (Ho Hcs).
    destruct (session_through cs (s0, o1)) as [s o]. simpl in Hs, Ho. by subst. }
  cbv zeta. rewrite Hso. cbn [fst snd].
  assert (_participants (session cs s0) <> []) as Hne'.
  { intros H. apply Hne. unfold roster. by rewrite H. }
  split; [done|]. rewrite save_through_eq by done.
  split; [done|].
  exists (opened filename' (roster (session cs s0))).
  split; [by apply reload_written|apply roster_opened].
Qed.

(** X14.  The opener of the tests never empties [to_write].  A poller
    loads from a new opener and any calls follow, each [save] among them
    writing through the same opener.  The poller is left as by the same
    calls on any opener; [to_write] holds the lines of the roster as it
    was at the first [save], then those at the second, and so on, so every
    participant is listed once for each [save]; and once a [save] has
    happened the text is these lines joined, and on a new poller it loads
    all these rosters one after the other. *)
Theorem mock_saves_accumulate (int : string -> option Z)
    (mock_text filename filename' : string)
    (s0 : t) (o1 : Opener.t) (cs : list call) :
  (forall n, int (str n) = Some n) ->
  open_through int (Opener.mock_open mock_text) (__init__ filename)
    = (Return tt, s0, o1) ->
  let so := session_through cs (s0, o1) in
  so.1 = session cs s0 /\
  Opener.to_write so.2
    = ((fun p => Participant.__str__ p ++ newline)%string <$> saved cs s0) /\
  length (saved cs s0)
    = (length (filter (fun c => is_save c = true) cs) * length (roster s0))%nat /\
  (existsb is_save cs = true ->
   Opener.text so.2 = join EmptyString (Opener.to_write so.2) /\
   exists s',
     (open_through int so.2 (__init__ filename')).1 = (Return tt, s') /\
     roster s' = saved cs s0).
Proof.
  intros Hint Hopen. unfold open_through in Hopen at 1.
  injection Hopen as Hopen <-. cbv zeta.
  destruct (open_Return_inv _ _ _ _ Hopen) as (ps & Hps & _ & Hs0).
  assert (loaded s0 /\ -1 <= _index s0) as [Hl Hidx].
  { rewrite Hs0. split; [by apply opened_loaded|simpl; lia]. }
  destruct (session_through_written cs s0 (Opener.mk mock_text [] true) Hl Hidx)
    as (Hs & Hw & Ht & _).
  cbn [Opener.to_write app] in Hw.
  split; [done|]. split; [done|]. split; [by apply saved_length|].
  intros Hcs. specialize (Ht Hcs). split; [done|].
  exists (opened filename' (saved cs s0)).
  split; [|apply roster_opened].
  assert (length (roster s0) <> 0%nat) as Hlen.
  { unfold roster. rewrite length_fmap. destruct Hl as (Hne & _).
    by destruct (_participants s0). }
  apply reload_written; try done.
  - intros Hnil. pose proof (saved_length cs s0 Hl Hidx) as Hsl.
    rewrite Hnil in Hsl. simpl in Hsl.
    assert (filter (fun c => is_save c = true) cs <> []) as Hf.
    { apply existsb_exists in Hcs as (c & Hc%list_elem_of_In & Hsave).
      intros Hnil'. assert (c ∈ filter (fun c => is_save c = true) cs) as Hin
        by by apply list_elem_of_filter.
      rewrite Hnil' in Hin. by apply elem_of_nil in Hin. }
    destruct (filter (fun c => is_save c = true) cs); [done|]. simpl in Hsl. lia.
  - apply Forall_forall. intros p [cs1 Hp]%saved_elem.
    destruct (mock_session_names int mock_text filename s0 cs1 Hopen)
      as (_ & Hcomma & _).
    rewrite Forall_forall in Hcomma. by apply Hcomma.
  - apply Forall_forall. intros p [cs1 Hp]%saved_elem.
    destruct (mock_session_names int mock_text filename s0 cs1 Hopen)
      as (_ & _ & Hnl).
    rewrite Forall_forall in Hnl. by apply Hnl.
  - by rewrite Ht, Hw.
Qed.

(** ** The driver *)

Lemma paired_hd_tl draws ks : paired (hd [] draws :: tl draws) ks = paired draws ks.
Proof. by destruct ks. Qed.

Lemma nth_hd_tl (n : nat) (draws : list (list nat)) :
  nth n (hd [] draws :: tl draws) [] = nth n draws [].
Proof. destruct draws; [by destruct n as [|[|n]]|done]. Qed.

(** The [if] chain of [main], command by command. *)
Lemma asking_cons line rest draws participant s out :
  Randopoll.asking (line :: rest) draws participant s out
  = match answer line with
    | Some k =>
        resumed rest draws (out ++ [Randopoll.prompt participant]) (record_outcome k s)
    | None =>
        if quits line then
          resumed rest draws (out ++ [Randopoll.prompt participant]) (stop s)
        else
          Randopoll.asking rest draws participant s
            ((out ++ [Randopoll.prompt participant]) ++ ["Unknown response"%string])
    end.
Proof.
  unfold answer, quits. cbn [Randopoll.asking]. fold (resumed rest draws).
  repeat case_bool_decide; try done; congruence.
Qed.

Lemma answer_not_quits line k : answer line = Some k -> quits line = false.
Proof.
  unfold answer, quits. repeat case_bool_decide; try done; congruence.
Qed.

Lemma answer_not_missing line : answer line <> Some MissingOnly.
Proof. unfold answer. by repeat case_bool_decide. Qed.

Lemma answers_cons line rest :
  answers (line :: rest)
  = match answer line with
    | Some k => k :: answers rest
    | None => if quits line then [] else answers rest
    end.
Proof.
  simpl. destruct (answer line) as [k|] eqn:Hk; [|by destruct (quits line)].
  by rewrite (answer_not_quits line k).
Qed.

Lemma answers_not_missing inputs : Forall (fun k => k <> MissingOnly) (answers inputs).
Proof.
  induction inputs as [|line rest IH]; [constructor|].
  rewrite answers_cons. destruct (answer line) as [k|] eqn:Hk.
  - constructor; [|done]. intros ->. by apply answer_not_missing in Hk.
  - by destruct (quits line); [constructor|].
Qed.

Lemma existsb_quits_cons line rest :
  existsb quits (line :: rest) = quits line || existsb quits rest.
Proof. done. Qed.

(** The turns of [main] from a participant just returned are the rounds of
    the answers typed before the first quit, and one more [__next__]. *)
Lemma asking_rounds inputs draws d nm s s1 out :
  floor_below s -> __next__ d s = (Return nm, s1) ->
  exists trace s2 nm' s3 out',
    rounds (paired (d :: draws) (answers inputs)) s = (Return trace, s2) /\
    floor_below s2 /\
    __next__ (nth (length (answers inputs)) (d :: draws) []) s2 = (Return nm', s3) /\
    last out' = Some (Randopoll.prompt nm') /\
    Randopoll.asking inputs draws nm s1 out
    = (if existsb quits inputs then Randopoll.Finished else Randopoll.Waiting,
       if existsb quits inputs then set_stopped true s3 else s3, out').
Proof.
  revert draws d nm s s1 out.
  induction inputs as [|line rest IH]; intros draws d nm s s1 out Hinv Hn.
  - exists [], s, nm, s1, (out ++ [Randopoll.prompt nm]).
    split; [done|]. split; [done|]. split; [done|]. by rewrite last_snoc.
  - rewrite asking_cons, answers_cons. destruct (answer line) as [k|] eqn:Hk.
    + rewrite existsb_quits_cons, (answer_not_quits line k Hk), orb_false_l.
      destruct (round_fair d k s Hinv)
        as (nm0 & s1' & r & Hn' & _ & _ & _ & _ & _ & _ & Hrec & Hinv2).
      rewrite Hn in Hn'. injection Hn' as <- <-.
      destruct (round_fair (hd [] draws) k _ Hinv2)
        as (nm2 & s1'' & r2 & Hn2 & _).
      destruct (IH (tl draws) (hd [] draws) nm2 _ s1''
                  (out ++ [Randopoll.prompt nm]) Hinv2 Hn2)
        as (trace & s2 & nm' & s3 & out' & Hrun & Hinv' & Hlast & Hout & Hask).
      rewrite paired_hd_tl in Hrun. rewrite nth_hd_tl in Hlast.
      exists (s1 :: recorded k r s1 :: trace), s2, nm', s3, out'.
      split; [|split; [done|split; [done|split; [done|]]]].
      * cbn [paired hd tl]. by rewrite (rounds_cons d k _ s nm s1 _ Hn Hrec), Hrun.
      * unfold resumed. by rewrite Hrec, Hn2.
    + rewrite existsb_quits_cons. destruct (quits line) eqn:Hq.
      * exists [], s, nm, s1, (out ++ [Randopoll.prompt nm]).
        split; [done|]. split; [done|]. split; [done|].
        split; [by rewrite last_snoc|].
        unfold resumed, stop, modify. by rewrite next_stopped.
      * rewrite orb_false_l. by apply IH.
Qed.

(** [open] prints nothing for lines it reads. *)
Lemma open_prints_parsed int lines ps : parsed int lines ps -> open_prints int lines = [].
Proof.
  unfold parsed. revert ps.
  induction lines as [|line lines IH]; intros ps Hps; simpl; [done|].
  rewrite filter_cons in Hps. case_bool_decide as Hline.
  - rewrite decide_True in Hps by done.
    apply Forall2_cons_inv_l in Hps as (p & ps' & Hp & Hps' & ->).
    rewrite Hp. by apply (IH ps').
  - rewrite decide_False in Hps by naive_solver. by apply (IH ps).
Qed.

(** [open] prints the first line it cannot read, in quotes. *)
Lemma open_prints_malformed int l1 line l2 ps :
  parsed int l1 ps -> line <> EmptyString -> parse_line int line = None ->
  open_prints int (l1 ++ line :: l2) = [quoted line].
Proof.
  unfold parsed. intros Hps Hne Hbad. revert ps Hps.
  induction l1 as [|l l1 IH]; intros ps Hps; simpl.
  - by rewrite bool_decide_eq_true_2, Hbad.
  - rewrite filter_cons in Hps. case_bool_decide as Hline.
    + rewrite decide_True in Hps by done.
      apply Forall2_cons_inv_l in Hps as (p & ps' & Hp & Hps' & ->).
      rewrite Hp. by apply (IH ps').
    + rewrite decide_False in Hps by naive_solver. by apply (IH ps).
Qed.

(** [main] on a file that loads. *)
Lemma main_rounds int filename lines draws inputs s0 :
  open int lines (__init__ filename) = (Return tt, s0) ->
  exists s_it trace s2 nm s3 out,
    __iter__ (hd [] draws) s0 = (Return tt, s_it) /\
    floor_below s_it /\ heap s_it = heap s0 /\ _participants s_it = _participants s0 /\
    rounds (paired (tl draws) (answers inputs)) s_it = (Return trace, s2) /\
    floor_below s2 /\
    __next__ (nth (length (answers inputs)) (tl draws) []) s2 = (Return nm, s3) /\
    last out = Some (Randopoll.prompt nm) /\
    Randopoll.main int filename lines draws inputs
    = (if existsb quits inputs then Randopoll.Finished else Randopoll.Waiting,
       if existsb quits inputs then (save (set_stopped true s3)).2 else s3, out).
Proof.
  intros Hopen.
  destruct (open_Return_inv _ _ _ _ Hopen) as (ps & Hne & Hps & ->).
  destruct (iter_floor_below (hd [] draws) _ (opened_loaded filename ps Hne))
    as (s_it & Hiter & Hh & Hp & Hinv).
  destruct (round_fair (hd [] (tl draws)) Attempted s_it Hinv)
    as (nm1 & s1 & r & Hn & _).
  destruct (asking_rounds inputs (tl (tl draws)) (hd [] (tl draws)) nm1 s_it s1 [] Hinv Hn)
    as (trace & s2 & nm' & s3 & out' & Hrun & Hinv' & Hlast & Hout & Hask).
  rewrite paired_hd_tl in Hrun. rewrite nth_hd_tl in Hlast.
  exists s_it, trace, s2, nm', s3, out'. do 8 (split; [done|]).
  unfold Randopoll.main, __enter__. rewrite (open_prints_parsed int lines ps Hps), Hopen.
  unfold Randopoll.for_participants. rewrite Hiter, Hn, Hask.
  by destruct (existsb quits inputs).
Qed.

(** [__next__] touches neither the objects, the roster, the total nor the
    file. *)
Lemma next_frame draws s :
  loaded s -> -1 <= _index s ->
  heap (__next__ draws s).2 = heap s /\
  _participants (__next__ draws s).2 = _participants s /\
  _total_polled (__next__ draws s).2 = _total_polled s /\
  _opener (__next__ draws s).2 = _opener s.
Proof.
  intros Hl Hidx. destruct (_stopped s) eqn:Hst; [by rewrite next_stopped|].
  by destruct (next_cases draws s Hst Hl Hidx)
    as [(r & l & _ & _ & ->)|(r & _ & _ & ->)].
Qed.

Lemma unaccounted_recorded k p :
  k <> MissingOnly ->
  unaccounted (incr_category k (Participant.incr_polled p)) = unaccounted p.
Proof. unfold unaccounted. destruct k; simpl; intros; try done; lia. Qed.

(** What a session of rounds leaves alone, and what it counts. *)
Lemma rounds_frame steps s trace s' :
  floor_below s -> rounds steps s = (Return trace, s') ->
  _total_polled s' = _total_polled s + Z.of_nat (length steps) /\
  _opener s' = _opener s /\
  (forall x, grown (deref s x) (deref s' x)) /\
  (Forall (fun step => step.2 <> MissingOnly) steps ->
   forall x, unaccounted (deref s' x) = unaccounted (deref s x)).
Proof.
  revert s trace. induction steps as [|[draws k] steps IH]; intros s trace Hinv Hrun.
  - unfold rounds, ret in Hrun. simplify_eq. simpl.
    split; [lia|]. split; [done|]. split; [intros; apply grown_refl|done].
  - destruct (round_fair draws k s Hinv)
      as (nm & s1 & r & Hn & Hc & Hr & Hh & Hp & Hl1 & Hleast & Hrec & Hinv2).
    rewrite (rounds_cons draws k steps s nm s1 _ Hn Hrec) in Hrun.
    destruct (rounds steps (recorded k r s1)) as [[tr|e] s''] eqn:Hrest; [|done].
    simplify_eq.
    destruct (IH _ _ Hinv2 Hrest) as (Ht & Ho & Hg & Hu).
    destruct Hinv as (Hl & _ & Hidx & _).
    destruct (next_frame draws s Hl Hidx) as (_ & _ & Ht1 & Ho1).
    rewrite Hn in Ht1, Ho1. simpl in Ht1, Ho1.
    assert (deref s1 = deref s) as Hd by (unfold deref; by rewrite Hh).
    pose proof (loaded_cursor_live s1 r Hl1 Hc) as Hlive.
    split; [rewrite Ht, length_cons; simpl; lia|].
    split; [by rewrite Ho|]. split.
    + intros x. eapply grown_trans; [|apply Hg].
      rewrite deref_recorded, Hd by done.
      case_decide; [subst x; apply grown_recorded|apply grown_refl].
    + intros [Hk Hall]%Forall_cons x. rewrite (Hu Hall).
      rewrite deref_recorded, Hd by done.
      case_decide; [subst x; by apply unaccounted_recorded|done].
Qed.

Lemma paired_length draws ks : length (paired draws ks) = length ks.
Proof. revert draws. induction ks as [|k ks IH]; intros draws; simpl; [done|]. by rewrite IH. Qed.

Lemma paired_kinds draws ks (P : kind -> Prop) :
  Forall P ks -> Forall (fun step => P step.2) (paired draws ks).
Proof.
  intros Hall. revert draws. induction Hall as [|k ks Hk Hall IH]; intros draws; simpl.
  - constructor.
  - constructor; [done|apply IH].
Qed.

(** The share of each participant after [m] polls from equal counters [k],
    in a roster whose counters lie within one of each other. *)
Lemma even_window s (k m : Z) :
  _participants s <> [] -> (exists a, within s a) ->
  sum_polled s = Z.of_nat (length (_participants s)) * k + m ->
  let n := Z.of_nat (length (_participants s)) in
  forall x, x ∈ _participants s ->
    k + m / n <= polled_of s x <= k + m / n + 1 /\
    (m mod n = 0 -> polled_of s x = k + m / n).
Proof.
  intros Hne' [a' Ha'] Hsum n x Hx.
  pose proof (spread_within s (within_spread s a' Ha')) as Hw.
  set (a := minimum (polled_counts s)) in *.
  assert (polled_counts s <> []) as Hne.
  { intros Hnil. apply (f_equal length) in Hnil.
    rewrite polled_counts_length in Hnil. by destruct (_participants s). }
  assert (0 < n) as Hn.
  { unfold n. destruct (_participants s); simpl; [done|lia]. }
  assert (forall v, v ∈ polled_counts s -> a <= v <= a + 1) as Hwin.
  { intros v (y & Hy & ->)%elem_of_polled_counts. by apply Hw. }
  pose proof (sum_ge (polled_counts s) a (fun v Hv => proj1 (Hwin v Hv))) as Hlow.
  pose proof (sum_le_with (polled_counts s) a (a + 1) (minimum_elem_of _ Hne)
                (fun v Hv => proj2 (Hwin v Hv))) as Hup.
  fold (sum_polled s) in Hlow, Hup.
  rewrite polled_counts_length, Hsum in Hlow, Hup. fold n in Hlow, Hup.
  assert (a = k + m / n) as Ha.
  { assert (a - k = m / n); [|lia].
    apply (Z.div_unique m n (a - k) (m - n * (a - k))); lia. }
  rewrite <- Ha. split; [by apply Hw|].
  intros Hdiv.
  apply (sum_eq_lower (polled_counts s) a (fun v Hv => proj1 (Hwin v Hv))).
  - fold (sum_polled s). rewrite polled_counts_length, Hsum. fold n.
    pose proof (Z.div_mod m n ltac:(lia)). nia.
  - by apply polled_counts_elem.
Qed.

Lemma next_stopped_same draws s :
  loaded s -> -1 <= _index s -> _stopped (__next__ draws s).2 = _stopped s.
Proof.
  intros Hl Hidx. destruct (_stopped s) eqn:Hst; [by rewrite next_stopped|].
  by destruct (next_cases draws s Hst Hl Hidx)
    as [(r & l & _ & _ & ->)|(r & _ & _ & ->)].
Qed.

Lemma iter_frame draws s s1 :
  loaded s -> __iter__ draws s = (Return tt, s1) ->
  _opener s1 = _opener s /\ _total_polled s1 = _total_polled s.
Proof.
  intros Hl Hiter.
  destruct (shuffled_head draws s (loaded_to_poll_ne s Hl)) as (r & l & Hs).
  rewrite (iter_Return draws s r l Hs) in Hiter. by simplify_eq.
Qed.

(** The poller [main] ends with, from the poller at the end of the rounds
    of the answers. *)
Lemma main_result int filename lines draws inputs s0 :
  open int lines (__init__ filename) = (Return tt, s0) ->
  exists s_it trace s2,
    __iter__ (hd [] draws) s0 = (Return tt, s_it) /\
    floor_below s_it /\ heap s_it = heap s0 /\ _participants s_it = _participants s0 /\
    rounds (paired (tl draws) (answers inputs)) s_it = (Return trace, s2) /\
    floor_below s2 /\
    let result := Randopoll.main int filename lines draws inputs in
    result.1.1 = (if existsb quits inputs then Randopoll.Finished else Randopoll.Waiting) /\
    heap result.1.2 = heap s2 /\
    _participants result.1.2 = _participants s2 /\
    _total_polled result.1.2 = _total_polled s2 /\
    _stopped result.1.2 = existsb quits inputs /\
    _opener result.1.2
    = (if existsb quits inputs
       then Some ((fun p => Participant.__str__ p ++ newline)%string <$> roster result.1.2)
       else _opener s2).
Proof.
  intros Hopen.
  destruct (main_rounds int filename lines draws inputs s0 Hopen)
    as (s_it & trace & s2 & nm & s3 & out & Hiter & Hinv & Hh & Hp & Hrun & Hinv2
        & Hlast & _ & Hmain).
  exists s_it, trace, s2. do 6 (split; [done|]). rewrite Hmain. cbv zeta.
  destruct Hinv2 as (Hl2 & Hst2 & Hidx2 & _).
  destruct (next_frame (nth (length (answers inputs)) (tl draws) []) s2 Hl2 Hidx2)
    as (Hh3 & Hp3 & Ht3 & Ho3).
  pose proof (next_stopped_same (nth (length (answers inputs)) (tl draws) []) s2 Hl2 Hidx2)
    as Hst3.
  rewrite Hlast in Hh3, Hp3, Ht3, Ho3, Hst3. simpl in Hh3, Hp3, Ht3, Ho3, Hst3.
  destruct (existsb quits inputs); simpl.
  - do 5 (split; [done|]). unfold roster. by rewrite <- list_fmap_compose.
  - do 4 (split; [done|]). split; [congruence|done].
Qed.

(** X15.  The driver on the lines typed so far.  If the file does not
    load, [main] ends with the exception of [open], nothing is written, and
    what was printed is the offending line in quotes when a line is
    malformed and nothing when the file holds no participant.  If the file
    loads, no call on the poller raises: [main] has left the [with] block
    when a line that quits ([q] or [m], in either case) was typed, and
    otherwise it is in [input()], waiting for the next line; the file is
    written exactly when the block has been left, with the lines of the
    roster as it then is; the roster holds the participants loaded, in
    their order and with their names; and [total] is the number of answers
    ([a], [c], [e]) typed before the quit. *)
Theorem driver_session (int : string -> option Z) (filename : string)
    (lines : list string) (draws : list (list nat)) (inputs : list string) :
  let result := Randopoll.main int filename lines draws inputs in
  (forall e s, open int lines (__init__ filename) = (Raise e, s) ->
     result.1 = (Randopoll.Failed e, s) /\ _opener s = None /\
     ((e = ValueError (empty_message filename) /\ result.2 = []) \/
      (exists line, line ∈ lines /\ line <> EmptyString /\ malformed int line /\
         e = ValueError (malformed_message filename line) /\
         result.2 = [quoted line]))) /\
  (forall s0, open int lines (__init__ filename) = (Return tt, s0) ->
     result.1.1 = (if existsb quits inputs then Randopoll.Finished else Randopoll.Waiting) /\
     _opener result.1.2
     = (if existsb quits inputs
        then Some ((fun p => Participant.__str__ p ++ newline)%string <$> roster result.1.2)
        else None) /\
     _stopped result.1.2 = existsb quits inputs /\
     _participants result.1.2 = _participants s0 /\
     Participant.name <$> roster result.1.2 = Participant.name <$> roster s0 /\
     _total_polled result.1.2 = Z.of_nat (length (answers inputs))).
Proof.
  cbv zeta. split.
  - intros e s Hopen. unfold Randopoll.main, __enter__. rewrite Hopen.
    cbn [fst snd]. split; [done|].
    destruct (lines_cases int lines)
      as [[ps Hps]|(l1 & line & l2 & ps & -> & Hps & Hne & Hbad)].
    + rewrite (open_parsed int filename lines ps Hps) in Hopen.
      case_bool_decide; [|done]. simplify_eq. split; [done|]. left.
      split; [done|]. by apply (open_prints_parsed int lines []).
    + rewrite (open_malformed int filename l1 line l2 ps) in Hopen by done.
      simplify_eq. split; [done|]. right. exists line.
      split; [apply elem_of_app; right; by left|]. split; [done|].
      split; [by apply parse_line_None|]. split; [done|].
      by apply (open_prints_malformed int l1 line l2 ps).
  - intros s0 Hopen.
    destruct (main_result int filename lines draws inputs s0 Hopen)
      as (s_it & trace & s2 & Hiter & Hinv & Hh & Hp & Hrun & Hinv2
          & Hst & Hh' & Hp' & Ht' & Hstop & Hopener).
    destruct (rounds_fair (paired (tl draws) (answers inputs)) s_it Hinv)
      as (trace' & s2' & Hrun' & _ & _ & Hp2 & _).
    rewrite Hrun in Hrun'. injection Hrun' as <- <-.
    destruct (rounds_frame _ _ _ _ Hinv Hrun) as (Ht2 & Ho2 & Hg & _).
    destruct (open_Return_inv _ _ _ _ Hopen) as (ps & Hne & Hps & ->).
    destruct (iter_frame _ _ _ (opened_loaded filename ps Hne) Hiter) as (Ho1 & Ht1).
    split; [done|]. split.
    { rewrite Hopener. destruct (existsb quits inputs); [done|].
      by rewrite Ho2, Ho1. }
    split; [done|]. split; [by rewrite Hp', Hp2, Hp|]. split.
    + unfold roster. rewrite Hp', Hp2, Hp, <- !list_fmap_compose.
      apply list_fmap_ext. intros i x _. simpl.
      destruct (Hg x) as (Hname & _). unfold deref in *.
      by rewrite Hh', Hname, Hh.
    + rewrite Ht', Ht2, Ht1, paired_length. simpl. lia.
Qed.

Lemma answers_app l1 l2 :
  answers (l1 ++ l2) = if existsb quits l1 then answers l1 else answers l1 ++ answers l2.
Proof.
  induction l1 as [|line l1 IH]; [done|]. simpl.
  destruct (quits line); [done|]. simpl.
  destruct (answer line); rewrite IH; by destruct (existsb quits l1).
Qed.

(** X16.  What the driver reads of its input.  The status [main] ends
    with and the poller it leaves depend only on the answers ([a], [c],
    [e]) typed before the first line that quits, and on whether a line
    quits.  So a line that is no command changes neither; [m] ends the
    session exactly as [q] does, without recording anything, and what is
    typed after it is never read; and upper and lower case are the same
    command. *)
Theorem driver_ignores (int : string -> option Z) (filename : string)
    (lines : list string) (draws : list (list nat)) :
  let run inputs := (Randopoll.main int filename lines draws inputs).1 in
  (forall inputs inputs',
     answers inputs = answers inputs' ->
     existsb quits inputs = existsb quits inputs' ->
     run inputs = run inputs') /\
  (forall before line after,
     answer line = None -> quits line = false ->
     run (before ++ line :: after) = run (before ++ after)) /\
  (forall before after after',
     run (before ++ "m" :: after) = run (before ++ "q" :: after')) /\
  (forall before line line' after,
     Randopoll.lower line = Randopoll.lower line' ->
     run (before ++ line :: after) = run (before ++ line' :: after)).
Proof.
  intros run.
  assert (forall inputs inputs',
     answers inputs = answers inputs' ->
     existsb quits inputs = existsb quits inputs' ->
     run inputs = run inputs') as Hsame.
  { intros inputs inputs' Ha Hq. unfold run.
    destruct (open int lines (__init__ filename)) as [[[]|e] s0] eqn:Hopen.
    - destruct (main_rounds int filename lines draws inputs s0 Hopen)
        as (s_it & trace & s2 & nm & s3 & out & Hiter & _ & _ & _ & Hrun & _
            & Hlast & _ & ->).
      destruct (main_rounds int filename lines draws inputs' s0 Hopen)
        as (s_it' & trace' & s2' & nm' & s3' & out' & Hiter' & _ & _ & _ & Hrun' & _
            & Hlast' & _ & ->).
      rewrite Hiter in Hiter'. simplify_eq.
      rewrite <- Ha, Hrun in Hrun'. simplify_eq.
      rewrite <- Ha, Hlast in Hlast'. simplify_eq.
      simpl. by rewrite Hq.
    - unfold Randopoll.main, __enter__. by rewrite Hopen. }
  split; [done|]. split; [|split].
  - intros before line after Ha Hq. apply Hsame.
    + rewrite !answers_app, answers_cons, Ha, Hq. done.
    + rewrite !existsb_app, existsb_quits_cons, Hq. done.
  - intros before after after'. apply Hsame.
    + by rewrite !answers_app.
    + rewrite !existsb_app, !existsb_quits_cons. done.
  - intros before line line' after Hlow. apply Hsame.
    + rewrite !answers_app. simpl. unfold quits, answer. by rewrite Hlow.
    + rewrite !existsb_app, !existsb_quits_cons. unfold quits. by rewrite Hlow.
Qed.

(** X17.  What the driver records.  On a file that loads, the sum of the
    [polled] counters has grown by the number of answers typed before the
    quit; the participant at each position of the roster has kept its name,
    no counter is smaller than loaded, and the polls that no outcome counter
    accounts for are as many as loaded: every poll the driver records is
    recorded as correct, attempted or excused, none as missing. *)
Theorem driver_counts (int : string -> option Z) (filename : string)
    (lines : list string) (draws : list (list nat)) (inputs : list string) (s0 : t) :
  open int lines (__init__ filename) = (Return tt, s0) ->
  let final := (Randopoll.main int filename lines draws inputs).1.2 in
  sum_polled final = sum_polled s0 + Z.of_nat (length (answers inputs)) /\
  length (roster final) = length (roster s0) /\
  forall i p, roster s0 !! i = Some p ->
    exists q, roster final !! i = Some q /\ grown p q /\
      unaccounted q = unaccounted p.
Proof.
  intros Hopen final.
  destruct (main_result int filename lines draws inputs s0 Hopen)
    as (s_it & trace & s2 & Hiter & Hinv & Hh & Hp & Hrun & Hinv2
        & _ & Hh' & Hp' & _).
  fold final in Hh', Hp'.
  destruct (rounds_fair (paired (tl draws) (answers inputs)) s_it Hinv)
    as (trace' & s2' & Hrun' & _ & _ & Hp2 & Hsum & _).
  rewrite Hrun in Hrun'. injection Hrun' as <- <-.
  destruct (rounds_frame _ _ _ _ Hinv Hrun) as (_ & _ & Hg & Hu).
  specialize (Hu (paired_kinds _ _ _ (answers_not_missing inputs))).
  split; [|split].
  - rewrite (sum_polled_same_heap s2 final Hh' Hp'), Hsum, paired_length.
    by rewrite (sum_polled_same_heap s0 s_it Hh Hp).
  - unfold roster. by rewrite !length_fmap, Hp', Hp2, Hp.
  - intros i p Hi. unfold roster in *.
    rewrite list_lookup_fmap in Hi. rewrite list_lookup_fmap, Hp', Hp2, Hp.
    destruct (_participants s0 !! i) as [r|]; simplify_eq/=.
    eexists. split; [done|].
    specialize (Hg r). specialize (Hu r). unfold deref in *.
    rewrite Hh'. rewrite Hh in Hg, Hu. done.
Qed.

(** X18.  The driver polls evenly.  On a file that loads with [polled]
    counters no more than 1 apart, they are no more than 1 apart whenever
    [main] stops or waits.  On a file of [n] participants all loaded with
    [polled = k], after [m] answers each participant has been polled
    [m / n] or [m / n + 1] times more, and exactly [m / n] times more when
    [n] divides [m]. *)
Theorem driver_balance (int : string -> option Z) (filename : string)
    (lines : list string) (draws : list (list nat)) (inputs : list string) (s0 : t) :
  open int lines (__init__ filename) = (Return tt, s0) ->
  let final := (Randopoll.main int filename lines draws inputs).1.2 in
  let n := Z.of_nat (length (roster s0)) in
  let m := Z.of_nat (length (answers inputs)) in
  (spread s0 <= 1 -> spread final <= 1) /\
  (forall k, (forall p, p ∈ roster s0 -> Participant.polled p = k) ->
     forall p, p ∈ roster final ->
       k + m / n <= Participant.polled p <= k + m / n + 1 /\
       (m mod n = 0 -> Participant.polled p = k + m / n)).
Proof.
  intros Hopen final n m.
  destruct (main_result int filename lines draws inputs s0 Hopen)
    as (s_it & trace & s2 & Hiter & Hinv & Hh & Hp & Hrun & Hinv2
        & _ & Hh' & Hp' & _).
  fold final in Hh', Hp'.
  destruct (rounds_fair (paired (tl draws) (answers inputs)) s_it Hinv)
    as (trace' & s2' & Hrun' & _ & _ & Hp2 & Hsum & _).
  rewrite Hrun in Hrun'. injection Hrun' as <- <-.
  assert (polled_of s_it = polled_of s0) as Hpo
    by (unfold polled_of, deref; by rewrite Hh).
  assert (polled_of final = polled_of s2) as Hpo'
    by (unfold polled_of, deref; by rewrite Hh').
  assert (forall a, within s0 a -> exists a', within final a') as Hkeep.
  { intros a Ha.
    assert (within s_it a) as Ha0.
    { intros x Hx. rewrite Hpo. apply Ha. by rewrite <- Hp. }
    destruct (rounds_within _ _ _ _ Hinv (ex_intro _ a Ha0) Hrun) as [a' Ha'].
    exists a'. intros x Hx. rewrite Hpo'. apply Ha'. by rewrite <- Hp'. }
  split.
  - intros Hs. destruct (Hkeep _ (spread_within s0 Hs)) as [a' Ha'].
    by apply (within_spread final a').
  - intros k Hk.
    assert (forall x, x ∈ _participants s0 -> polled_of s0 x = k) as Hk'.
    { intros x Hx. apply Hk, roster_elem. by exists x. }
    assert (length (_participants final) = length (roster s0)) as Hlen
      by (unfold roster; by rewrite length_fmap, Hp', Hp2, Hp).
    assert (sum_polled final = Z.of_nat (length (_participants final)) * k + m) as Hsum'.
    { rewrite (sum_polled_same_heap s2 final Hh' Hp'), Hsum, paired_length.
      rewrite (sum_polled_same_heap s0 s_it Hh Hp), Hlen.
      unfold sum_polled. rewrite (sum_const _ k); [|].
      - rewrite polled_counts_length. unfold roster. by rewrite length_fmap.
      - intros v (x & Hx & ->)%elem_of_polled_counts. by apply Hk'. }
    assert (_participants final <> []) as Hne.
    { rewrite Hp', Hp2. by destruct Hinv as ((Hne & _) & _). }
    destruct (Hkeep k) as [a' Ha'].
    { intros x Hx. rewrite Hk' by done. lia. }
    intros p (x & Hx & ->)%roster_elem.
    pose proof (even_window final k m Hne (ex_intro _ a' Ha') Hsum' x Hx) as Hwin.
    cbv zeta in Hwin. rewrite Hlen in Hwin. done.
Qed.

Lemma paired_snoc draws ks k :
  paired draws (ks ++ [k]) = paired draws ks ++ [(nth (length ks) draws [], k)].
Proof.
  revert draws. induction ks as [|k0 ks IH]; intros draws.
  - simpl. by destruct draws.
  - cbn [app paired length]. rewrite IH. cbn [app]. do 3 f_equal.
    destruct draws; [by destruct (length ks)|done].
Qed.

Lemma rounds_snoc steps d k s trace s2 nm s3 r :
  floor_below s -> rounds steps s = (Return trace, s2) ->
  __next__ d s2 = (Return nm, s3) -> cursor s3 = Some r ->
  rounds (steps ++ [(d, k)]) s
  = (Return (trace ++ [s3; recorded k r s3]), recorded k r s3).
Proof.
  revert s trace. induction steps as [|[draws k0] steps IH];
    intros s trace Hinv Hrun Hn Hc.
  - unfold rounds, ret in Hrun. simplify_eq. cbn [app].
    by rewrite (rounds_cons d k [] s2 nm s3 _ Hn (record_outcome_Some k s3 r Hc)).
  - destruct (round_fair draws k0 s Hinv)
      as (nm0 & s1 & r0 & Hn0 & _ & _ & _ & _ & _ & _ & Hrec & Hinv2).
    rewrite (rounds_cons draws k0 steps s nm0 s1 _ Hn0 Hrec) in Hrun.
    destruct (rounds steps (recorded k0 r0 s1)) as [[tr|e] s''] eqn:Hrest; [|done].
    simplify_eq. cbn [app].
    rewrite (rounds_cons draws k0 _ s nm0 s1 _ Hn0 Hrec).
    by rewrite (IH _ tr Hinv2 Hrest Hn Hc).
Qed.

(** The name [__next__] returns is the name of the participant it leaves
    under the cursor. *)
Lemma next_names_cursor d s nm s1 r :
  floor_below s -> __next__ d s = (Return nm, s1) -> cursor s1 = Some r ->
  nm = Participant.name (deref s1 r).
Proof.
  intros (Hl & Hst & Hidx & _) Hn Hc.
  destruct (next_cases d s Hst Hl Hidx)
    as [(r' & l & _ & Hs & Heq)|(r' & Hdue & Hr & Heq)];
    rewrite Heq in Hn; simplify_eq; unfold cursor in Hc; simpl in Hc.
  - rewrite getitem_nonneg in Hc by lia. by simplify_eq/=.
  - rewrite getitem_nonneg in Hc by lia. by simplify_eq/=.
Qed.

(** X19.  The driver records an answer for the participant it asked
    about.  While [main] waits on a file that loaded, the line printed last
    is the prompt with the name of the participant under the cursor, who is
    a participant of the roster with the least [polled]; and an answer
    ([a], [c] or [e]) typed next is recorded for that very participant,
    before the next participant is selected. *)
Theorem driver_prompt (int : string -> option Z) (filename : string)
    (lines : list string) (draws : list (list nat)) (inputs : list string) (s0 : t) :
  open int lines (__init__ filename) = (Return tt, s0) ->
  existsb quits inputs = false ->
  let result := Randopoll.main int filename lines draws inputs in
  exists nm r,
    last result.2 = Some (Randopoll.prompt nm) /\
    cursor result.1.2 = Some r /\
    r ∈ _participants result.1.2 /\
    Participant.name (deref result.1.2 r) = nm /\
    (forall x, x ∈ _participants result.1.2 ->
       polled_of result.1.2 r <= polled_of result.1.2 x) /\
    forall line k, answer line = Some k ->
      exists d,
        (Randopoll.main int filename lines draws (inputs ++ [line])).1.2
        = (__next__ d (recorded k r result.1.2)).2.
Proof.
  intros Hopen Hq result.
  destruct (main_rounds int filename lines draws inputs s0 Hopen)
    as (s_it & trace & s2 & nm & s3 & out & Hiter & Hinv & Hh & Hp & Hrun & Hinv2
        & Hlast & Hout & Hmain).
  rewrite Hq in Hmain. subst result. rewrite Hmain. simpl.
  destruct (round_fair (nth (length (answers inputs)) (tl draws) []) Attempted s2 Hinv2)
    as (nm' & s3' & r & Hn & Hc & Hr & Hh3 & Hp3 & Hl3 & Hleast & _).
  rewrite Hlast in Hn. injection Hn as <- <-.
  assert (polled_of s3 = polled_of s2) as Hpo
    by (unfold polled_of, deref; by rewrite Hh3).
  exists nm, r. split; [done|]. split; [done|]. split; [by rewrite Hp3|].
  split; [symmetry; by apply (next_names_cursor _ s2 nm s3 r Hinv2 Hlast)|].
  split; [intros x Hx; rewrite Hpo; apply Hleast; by rewrite <- Hp3|].
  intros line k Hk.
  destruct (main_rounds int filename lines draws (inputs ++ [line]) s0 Hopen)
    as (s_it' & trace' & s2' & nm2 & s4 & out' & Hiter' & _ & _ & _ & Hrun' & _
        & Hlast' & _ & Hmain').
  rewrite Hiter in Hiter'. simplify_eq.
  assert (answers (inputs ++ [line]) = answers inputs ++ [k]) as Ha.
  { rewrite answers_app, Hq, answers_cons, Hk. done. }
  assert (existsb quits (inputs ++ [line]) = false) as Hq'.
  { rewrite existsb_app, Hq, existsb_quits_cons, (answer_not_quits line k Hk). done. }
  rewrite Hq' in Hmain'. rewrite Hmain'. simpl.
  rewrite Ha, paired_snoc in Hrun'.
  rewrite (rounds_snoc _ _ k _ _ _ _ _ r Hinv Hrun Hlast Hc) in Hrun'.
  simplify_eq.
  exists (nth (length (answers (inputs ++ [line]))) (tl draws) []).
  by rewrite Hlast'.
Qed.

(** ** The further properties on the roster of the tests *)

Lemma test_lines_parsed :
  parsed int_decimal ["Person0,0,0,0,0"; "Person1,0,0,0,0"; ""]%string test_roster.
Proof. unfold parsed, test_roster. vm_compute. by repeat constructor. Defined.

Lemma example_roster_loaded : loaded (opened "roster" example_roster).
Proof. by apply opened_loaded. Defined.

(** X1 on the first participant of the tests. *)
Lemma line_round_trip_witness :
  let p := Participant.mk "Person0" 0 0 0 0 in
  ((forall n, int_decimal (str n) = Some n) /\
   ~ has_char "," (Participant.name p)) /\
  parse_line int_decimal (Participant.__str__ p) = Some p.
Proof.
  assert (~ has_char "," "Person0") as Hname.
  { unfold has_char. simpl. rewrite !elem_of_cons, elem_of_nil.
    intros H. repeat destruct H as [H|H]; done. }
  split; [by split; [exact int_decimal_str|]|].
  exact (proj2 (line_round_trip int_decimal (Participant.mk "Person0" 0 0 0 0)
                  int_decimal_str Hname)).
Defined.

(** X2 after both participants of the tests have been polled. *)
Lemma roster_names_comma_free_witness :
  let s0 := opened "test" test_roster in
  let cs := [Iter [0%nat]; Next []; Outcome Attempted; Next []; Outcome Attempted] in
  let p := Participant.mk "Person0" 1 0 1 0 in
  (open int_decimal ["Person0,0,0,0,0"; "Person1,0,0,0,0"; ""]%string (__init__ "test")
     = (Return tt, s0) /\
   p ∈ roster (session cs s0)) /\
  ~ has_char "," (Participant.name p).
Proof.
  assert (Participant.mk "Person0" 1 0 1 0
            ∈ roster (session [Iter [0%nat]; Next []; Outcome Attempted;
                                Next []; Outcome Attempted]
                        (opened "test" test_roster))) as Hin
    by (by apply (list_elem_of_lookup_2 _ 0%nat)).
  split; [by split; [exact test_roster_opened|]|].
  exact (proj1 (roster_names_comma_free int_decimal "test" _ _ _ _
                  test_roster_opened Hin)).
Defined.

(** X3 on the session of [test_attempted]. *)
Lemma saved_roster_reloads_witness :
  let s0 := opened "test" test_roster in
  let cs := [Iter [0%nat]; Next []; Outcome Attempted; Next []; Stop; Outcome Attempted] in
  ((forall n, int_decimal (str n) = Some n) /\
   open int_decimal ["Person0,0,0,0,0"; "Person1,0,0,0,0"; ""]%string (__init__ "test")
     = (Return tt, s0)) /\
  exists s',
    open int_decimal (Participant.__str__ <$> roster (session cs s0)) (__init__ "copy")
      = (Return tt, s') /\
    roster s' = roster (session cs s0).
Proof.
  split; [by split; [exact int_decimal_str|exact test_roster_opened]|].
  destruct (saved_roster_reloads int_decimal "test" "copy" _ _
              [Iter [0%nat]; Next []; Outcome Attempted; Next []; Stop; Outcome Attempted]
              int_decimal_str test_roster_opened) as (s' & Hopen & Hr & _).
  by exists s'.
Defined.

(** X4 on the session of [test_attempted]. *)
Lemma total_counts_polls_witness :
  let s0 := opened "test" test_roster in
  let s := session [Iter [0%nat]; Next []; Outcome Attempted; Next []; Stop;
                    Outcome Attempted] s0 in
  open int_decimal ["Person0,0,0,0,0"; "Person1,0,0,0,0"; ""]%string (__init__ "test")
    = (Return tt, s0) /\
  total s = (Return (sum_polled s - sum_polled s0), s).
Proof.
  split; [exact test_roster_opened|].
  exact (proj2 (total_counts_polls int_decimal "test" _ _
                  [Iter [0%nat]; Next []; Outcome Attempted; Next []; Stop;
                   Outcome Attempted] test_roster_opened)).
Defined.

(** X5 on the session of [test_attempted], first participant. *)
Lemma counters_only_grow_witness :
  let s0 := opened "test" test_roster in
  let cs := [Iter [0%nat]; Next []; Outcome Attempted; Next []; Stop; Outcome Attempted] in
  let p := Participant.mk "Person0" 0 0 0 0 in
  (open int_decimal ["Person0,0,0,0,0"; "Person1,0,0,0,0"; ""]%string (__init__ "test")
     = (Return tt, s0) /\
   roster s0 !! 0%nat = Some p) /\
  exists q, roster (session cs s0) !! 0%nat = Some q /\ grown p q.
Proof.
  split; [by split; [exact test_roster_opened|]|].
  destruct (counters_only_grow int_decimal "test" _ _
              [Iter [0%nat]; Next []; Outcome Attempted; Next []; Stop; Outcome Attempted]
              0%nat (Participant.mk "Person0" 0 0 0 0) test_roster_opened eq_refl)
    as (q & Hq & Hg & _).
  by exists q.
Defined.

(** X6 on a new [Poller]. *)
Lemma unloaded_poller_raises_witness :
  let s := __init__ "test" in
  _to_poll s = [] /\
  __iter__ [] s = (Raise IndexError, s) /\
  record_outcome Attempted s = (Raise IndexError, s).
Proof.
  split; [done|].
  destruct (unloaded_poller_raises [] Attempted (__init__ "test") eq_refl)
    as (_ & Hiter & Hrec & _).
  by split.
Defined.

(** X7: the file of the tests opened twice. *)
Lemma open_appends_witness :
  let lines := ["Person0,0,0,0,0"; "Person1,0,0,0,0"; ""]%string in
  let s := opened "test" test_roster in
  (parsed int_decimal lines test_roster /\ loaded s) /\
  exists s', open int_decimal lines s = (Return tt, s') /\
    roster s' = roster s ++ test_roster.
Proof.
  split; [by split; [exact test_lines_parsed|exact test_roster_loaded]|].
  destruct (open_appends int_decimal _ _ _ test_lines_parsed test_roster_loaded)
    as (s' & Hopen & Hr & _).
  by exists s'.
Defined.

(** X8: the file of the tests with a line of one field after its records. *)
Lemma open_failure_keeps_records_witness :
  let l1 := ["Person0,0,0,0,0"; "Person1,0,0,0,0"; ""]%string in
  (parsed int_decimal l1 test_roster /\ "Person2"%string <> EmptyString /\
   malformed int_decimal "Person2") /\
  exists s1,
    open int_decimal (l1 ++ ["Person2"; "Person3,0,0,0,0"]%string) (__init__ "test")
      = (Raise (ValueError (malformed_message "test" "Person2")), s1) /\
    roster s1 = test_roster /\ _to_poll s1 = [].
Proof.
  assert (malformed int_decimal "Person2") as Hbad by (by apply parse_line_None).
  assert ("Person2"%string <> EmptyString) as Hne by done.
  split; [by split; [exact test_lines_parsed|]|].
  destruct (open_failure_keeps_records int_decimal "test" _ ["Person3,0,0,0,0"%string]
              "Person2" test_roster test_lines_parsed Hne Hbad)
    as (s1 & Hopen & Hr & Hp & _).
  by exists s1.
Defined.

(** X9 on the roster of the tests. *)
Lemma stop_until_iter_witness :
  let s := opened "test" test_roster in
  (loaded s /\ -1 <= _index s) /\
  session (Next <$> [[]; [0%nat]]) (exec Stop s) = exec Stop s /\
  exists nm s', (__iter__ [] ;; __next__ []) (exec Stop s) = (Return nm, s').
Proof.
  assert (-1 <= _index (opened "test" test_roster)) as Hidx by (simpl; lia).
  split; [by split; [exact test_roster_loaded|]|].
  destruct (stop_until_iter (opened "test" test_roster) [[]; [0%nat]] [] [] Attempted
              test_roster_loaded Hidx) as (Hs & _ & _ & _ & Hiter).
  by split.
Defined.

(** X10 on the roster of the sorting example, three rounds. *)
Lemma least_polled_first_witness :
  let s := opened "roster" example_roster in
  let steps := [([], Attempted); ([1%nat], Correct); ([], MissingOnly)] in
  loaded s /\
  exists s0 trace s',
    __iter__ [2%nat] s = (Return tt, s0) /\
    rounds steps s0 = (Return trace, s') /\
    forall (i : nat) s1, trace !! (2 * i)%nat = Some s1 -> least_under_cursor s1.
Proof.
  split; [exact example_roster_loaded|].
  destruct (least_polled_first [2%nat]
              [([], Attempted); ([1%nat], Correct); ([], MissingOnly)]
              (opened "roster" example_roster) example_roster_loaded)
    as (s0 & trace & s' & Hiter & Hrun & _ & Hleast).
  by exists s0, trace, s'.
Defined.

(** X11 on the roster of the sorting example: 3, 1, 1, 2 is five polls
    short of 3 each. *)
Lemma catching_up_witness :
  let s := opened "roster" example_roster in
  let steps := [([], Attempted); ([1%nat], Correct); ([], MissingOnly);
                ([], Excused); ([0%nat], Attempted)] in
  (loaded s /\
   Z.of_nat (length steps)
   <= Z.of_nat (length (_participants s)) * maximum (polled_counts s) - sum_polled s) /\
  exists s0 trace s',
    __iter__ [2%nat] s = (Return tt, s0) /\
    rounds steps s0 = (Return trace, s') /\
    (forall p, p ∈ roster s' -> Participant.polled p = 3).
Proof.
  assert (Z.of_nat (length [([] : list nat, Attempted); ([1%nat], Correct);
                            ([], MissingOnly); ([], Excused); ([0%nat], Attempted)])
          <= Z.of_nat (length (_participants (opened "roster" example_roster)))
             * maximum (polled_counts (opened "roster" example_roster))
             - sum_polled (opened "roster" example_roster)) as Hshort by by vm_compute.
  split; [by split; [exact example_roster_loaded|]|].
  destruct (catching_up [2%nat] _ (opened "roster" example_roster)
              example_roster_loaded Hshort)
    as (s0 & trace & s' & Hiter & Hrun & _ & Hall).
  exists s0, trace, s'. split; [done|]. split; [done|]. by apply Hall.
Defined.

(** X12 on the roster of the tests, three rounds. *)
Lemma even_shares_witness :
  let s := opened "test" test_roster in
  let steps := [([], Attempted); ([1%nat], Correct); ([], MissingOnly)] in
  (loaded s /\ (forall p, p ∈ roster s -> Participant.polled p = 0)) /\
  exists s0 trace s',
    __iter__ [] s = (Return tt, s0) /\
    rounds steps s0 = (Return trace, s') /\
    (forall p, p ∈ roster s' -> 1 <= Participant.polled p <= 2).
Proof.
  assert (forall p, p ∈ roster (opened "test" test_roster) -> Participant.polled p = 0)
    as Hzero.
  { intros p. rewrite roster_opened. unfold test_roster.
    rewrite !elem_of_cons, elem_of_nil. by intros [->|[->|[]]]. }
  split; [by split; [exact test_roster_loaded|]|].
  destruct (even_shares [] [([], Attempted); ([1%nat], Correct); ([], MissingOnly)]
              (opened "test" test_roster) 0 test_roster_loaded Hzero)
    as (s0 & trace & s' & Hiter & Hrun & Hwin & _).
  by exists s0, trace, s'.
Defined.

(** The assertion of [test_attempted]: the text the opener holds after
    the session and the [save] of [__exit__]. *)
Example test_attempted_text :
  Opener.text
    (save_through (Opener.mk mock_0 [] true)
       (session [Iter [0%nat]; Next []; Outcome Attempted; Next []; Stop;
                 Outcome Attempted] (opened "test" test_roster)))
  = ("Person0,1,0,1,0" ++ newline ++ "Person1,1,0,1,0" ++ newline)%string.
Proof. by vm_compute. Qed.

(** Two saves through the fixture: every participant is written twice. *)
Example mock_two_saves :
  Opener.to_write
    (session_through [Iter [0%nat]; Next []; Outcome Attempted; Save;
                      Next []; Outcome Correct; Save]
       (opened "test" test_roster, Opener.mk mock_0 [] true)).2
  = [("Person0,0,0,0,0" ++ newline)%string; ("Person1,1,0,1,0" ++ newline)%string;
     ("Person0,1,1,0,0" ++ newline)%string; ("Person1,1,0,1,0" ++ newline)%string].
Proof. by vm_compute. Qed.

(** X13 on the fixture and the session of [test_attempted]. *)
Lemma mock_round_trip_witness :
  let s0 := opened "test" test_roster in
  let o1 := Opener.mk mock_0 [] true in
  let cs := [Iter [0%nat]; Next []; Outcome Attempted; Next []; Stop;
             Outcome Attempted] in
  let s := (session_through cs (s0, o1)).1 in
  let o := save_through (session_through cs (s0, o1)).2 s in
  ((forall n, int_decimal (str n) = Some n) /\
   open_through int_decimal (Opener.mock_open mock_0) (__init__ "test")
     = (Return tt, s0, o1) /\
   existsb is_save cs = false) /\
  Opener.text o
  = join EmptyString ((fun p => Participant.__str__ p ++ newline)%string <$> roster s) /\
  exists s',
    (open_through int_decimal o (__init__ "copy")).1 = (Return tt, s') /\
    roster s' = roster s.
Proof.
  assert (open_through int_decimal (Opener.mock_open mock_0) (__init__ "test")
          = (Return tt, opened "test" test_roster, Opener.mk mock_0 [] true)) as Hopen
    by reflexivity.
  split; [by split; [exact int_decimal_str|split]|].
  exact (proj2 (mock_round_trip int_decimal mock_0 "test" "copy" _ _
                  [Iter [0%nat]; Next []; Outcome Attempted; Next []; Stop;
                   Outcome Attempted]
                  int_decimal_str Hopen eq_refl)).
Defined.

(** X14 on the fixture of the tests, saved twice. *)
Lemma mock_saves_accumulate_witness :
  let s0 := opened "test" test_roster in
  let o1 := Opener.mk mock_0 [] true in
  let cs := [Iter [0%nat]; Next []; Outcome Attempted; Save;
             Next []; Outcome Correct; Save] in
  let so := session_through cs (s0, o1) in
  ((forall n, int_decimal (str n) = Some n) /\
   open_through int_decimal (Opener.mock_open mock_0) (__init__ "test")
     = (Return tt, s0, o1) /\
   existsb is_save cs = true) /\
  Opener.to_write so.2
    = ((fun p => Participant.__str__ p ++ newline)%string <$> saved cs s0) /\
  exists s',
    (open_through int_decimal so.2 (__init__ "copy")).1 = (Return tt, s') /\
    roster s' = saved cs s0.
Proof.
  assert (open_through int_decimal (Opener.mock_open mock_0) (__init__ "test")
          = (Return tt, opened "test" test_roster, Opener.mk mock_0 [] true)) as Hopen
    by reflexivity.
  split; [by split; [exact int_decimal_str|split]|].
  destruct (mock_saves_accumulate int_decimal mock_0 "test" "copy" _ _
              [Iter [0%nat]; Next []; Outcome Attempted; Save;
               Next []; Outcome Correct; Save]
              int_decimal_str Hopen) as (_ & Hw & _ & Hre).
  split; [exact Hw|]. exact (proj2 (Hre eq_refl)).
Defined.

(** X15 on the file of the tests: two answers, a line that is no command,
    and a quit; and on a file whose second line has one field. *)
Lemma driver_session_witness :
  let lines := ["Person0,0,0,0,0"; "Person1,0,0,0,0"; ""]%string in
  let bad := ["Person0,0,0,0,0"; "Person2"; ""]%string in
  let result := Randopoll.main int_decimal "test" lines [[0%nat]; []; []; []]
                  ["a"; "x"; "C"; "q"]%string in
  let failed := Randopoll.main int_decimal "test" bad [] ["a"]%string in
  (open int_decimal lines (__init__ "test") = (Return tt, opened "test" test_roster) /\
   open int_decimal bad (__init__ "test")
   = (Raise (ValueError (malformed_message "test" "Person2")),
      appended [Participant.mk "Person0" 0 0 0 0] (__init__ "test"))) /\
  (result.1.1 = Randopoll.Finished /\
   _opener result.1.2
   = Some ((fun p => Participant.__str__ p ++ newline)%string <$> roster result.1.2) /\
   _total_polled result.1.2 = 2) /\
  failed.1 = (Randopoll.Failed (ValueError (malformed_message "test" "Person2")),
              appended [Participant.mk "Person0" 0 0 0 0] (__init__ "test")) /\
  failed.2 = [quoted "Person2"].
Proof.
  assert (open int_decimal ["Person0,0,0,0,0"; "Person2"; ""]%string (__init__ "test")
          = (Raise (ValueError (malformed_message "test" "Person2")),
             appended [Participant.mk "Person0" 0 0 0 0] (__init__ "test"))) as Hbad
    by reflexivity.
  split; [by split; [exact test_roster_opened|]|].
  split.
  - destruct (proj2 (driver_session int_decimal "test"
                       ["Person0,0,0,0,0"; "Person1,0,0,0,0"; ""]%string
                       [[0%nat]; []; []; []] ["a"; "x"; "C"; "q"]%string)
                _ test_roster_opened) as (Hst & Hop & _ & _ & _ & Htot).
    split; [exact Hst|]. split; [exact Hop|exact Htot].
  - destruct (proj1 (driver_session int_decimal "test"
                       ["Person0,0,0,0,0"; "Person2"; ""]%string [] ["a"]%string)
                _ _ Hbad) as (Hf & _ & _).
    split; [exact Hf|reflexivity].
Defined.

(** X16 on the file of the tests: two inputs with the same answers. *)
Lemma driver_ignores_witness :
  let lines := ["Person0,0,0,0,0"; "Person1,0,0,0,0"; ""]%string in
  let run inputs := (Randopoll.main int_decimal "test" lines [[0%nat]; []; []] inputs).1 in
  (answers ["a"; "x"; "q"]%string = answers ["A"; "M"; "c"]%string /\
   existsb quits ["a"; "x"; "q"]%string = existsb quits ["A"; "M"; "c"]%string) /\
  run ["a"; "x"; "q"]%string = run ["A"; "M"; "c"]%string.
Proof.
  split; [by split|].
  exact (proj1 (driver_ignores int_decimal "test"
                  ["Person0,0,0,0,0"; "Person1,0,0,0,0"; ""]%string [[0%nat]; []; []])
           ["a"; "x"; "q"]%string ["A"; "M"; "c"]%string eq_refl eq_refl).
Defined.

(** X17 on the file of the tests: two answers. *)
Lemma driver_counts_witness :
  let lines := ["Person0,0,0,0,0"; "Person1,0,0,0,0"; ""]%string in
  let s0 := opened "test" test_roster in
  let final := (Randopoll.main int_decimal "test" lines [[0%nat]; []; []; []]
                  ["a"; "x"; "C"; "q"]%string).1.2 in
  open int_decimal lines (__init__ "test") = (Return tt, s0) /\
  sum_polled final = sum_polled s0 + 2.
Proof.
  split; [exact test_roster_opened|].
  exact (proj1 (driver_counts int_decimal "test" _ [[0%nat]; []; []; []]
                  ["a"; "x"; "C"; "q"]%string _ test_roster_opened)).
Defined.

(** X18 on the file of the tests: three answers for two participants. *)
Lemma driver_balance_witness :
  let lines := ["Person0,0,0,0,0"; "Person1,0,0,0,0"; ""]%string in
  let s0 := opened "test" test_roster in
  let final := (Randopoll.main int_decimal "test" lines [[0%nat]; []; []; []; []]
                  ["a"; "e"; "C"]%string).1.2 in
  (open int_decimal lines (__init__ "test") = (Return tt, s0) /\ spread s0 <= 1) /\
  spread final <= 1.
Proof.
  assert (spread (opened "test" test_roster) <= 1) as Hs by by vm_compute.
  split; [by split; [exact test_roster_opened|]|].
  exact (proj1 (driver_balance int_decimal "test" _ [[0%nat]; []; []; []; []]
                  ["a"; "e"; "C"]%string _ test_roster_opened) Hs).
Defined.

(** X19 on the file of the tests: after one answer the driver waits. *)
Lemma driver_prompt_witness :
  let lines := ["Person0,0,0,0,0"; "Person1,0,0,0,0"; ""]%string in
  let result := Randopoll.main int_decimal "test" lines [[0%nat]; []; []; []]
                  ["a"; "x"]%string in
  (open int_decimal lines (__init__ "test") = (Return tt, opened "test" test_roster) /\
   existsb quits ["a"; "x"]%string = false) /\
  exists nm r,
    last result.2 = Some (Randopoll.prompt nm) /\
    cursor result.1.2 = Some r /\
    Participant.name (deref result.1.2 r) = nm.
Proof.
  split; [by split; [exact test_roster_opened|]|].
  destruct (driver_prompt int_decimal "test" _ [[0%nat]; []; []; []]
              ["a"; "x"]%string _ test_roster_opened eq_refl)
    as (nm & r & Hout & Hc & _ & Hnm & _).
  by exists nm, r.
Defined.
